(** * Semeru region heap: block offset table, regions, region-local
    compaction and the suspendible thread set.

    A shallow embedding of the HotSpot/Semeru sources

    - gc/g1/g1SemeruBlockOffsetTable.cpp  (block offset table, BOT)
    - gc/g1/heapRegion.cpp                (CPU-server HeapRegion)
    - gc/g1/SemeruHeapRegion.inline.hpp   (allocation, marked-object walk)
    - gc/g1/g1SemeruSTWCompact.hpp        (adjust closure of the compactor)
    - gc/g1/g1FullGCCompactTask.cpp       (compact closure)
    - gc/shared/suspendibleThreadSet.cpp  (suspend/resume protocol)

    Conventions.  Heap addresses are word addresses ([HeapWord*]) held in
    [Z]; [NULL] is [0].  [size_t] values are held in [Z]; the development
    stays inside the range where no 64-bit wrap-around occurs, the only
    narrowing store that matters, the [u_char] entries of the offset
    array, is written out with [mod 256].  The model is the build with
    assertions enabled: a failing [assert] or [guarantee] aborts the
    process, which is the outcome [Fatal]. Loops that the source bounds
    only by the data run on fuel and report [Timeout] when it runs out. *)

From Stdlib Require Import ZArith List Bool Lia.
From stdpp Require Import base list.
Import ListNotations.
Local Open Scope Z_scope.

(** ** Outcomes of a call *)

Inductive res (A : Type) : Type :=
| Ret (a : A)
| Fatal
| Timeout.
Arguments Ret {A} a.
Arguments Fatal {A}.
Arguments Timeout {A}.

#[global] Instance res_bind : MBind res := fun A B k c =>
  match c with
  | Ret a => k a
  | Fatal => Fatal
  | Timeout => Timeout
  end.
#[global] Instance res_ret : MRet res := fun A a => Ret a.

(** [assert(cond, msg)] and [guarantee(cond, msg)]. *)
Definition assert (b : bool) : res unit := if b then Ret tt else Fatal.
Definition guarantee (b : bool) : res unit := if b then Ret tt else Fatal.

(** ** Block offset table *)

Module BOT.

(** Modelled from the spec: [BOTConstants] lives in blockOffsetTable.hpp,
    which is not part of the sources at hand.  The spec fixes only that a
    card is a power of two words, that entries from [N_words] upward are
    logarithmic codes and that code [i] skips back a power [Base^i] of
    cards; the exponents and the number of codes are parameters here,
    together with the bounds of the reserved heap the table covers. *)
Class BOTConstants := {
  LogN_words : Z;
  LogBase : Z;
  N_powers : Z;
  reserved_start : Z;
  reserved_end : Z
}.

Section Table.
Context `{BOTConstants}.

Definition N_words : Z := Z.shiftl 1 LogN_words.

Definition power_to_cards_back (i : Z) : Z := Z.shiftl 1 (LogBase * i).

Definition entry_to_cards_back (entry : Z) : Z :=
  power_to_cards_back (entry - N_words).

(** [u_char] narrowing. *)
Definition u_char (x : Z) : Z := x mod 256.

(** The constants make sense: a card holds at least one word, the base
    of the logarithmic codes is at least two, every code fits a [u_char]
    and every skip fits a [size_t]. *)
Definition constants_ok : Prop :=
  0 <= LogN_words /\ 1 <= LogBase /\ 1 <= N_powers /\
  N_words + N_powers <= 256 /\ LogBase * N_powers < 64.

(** The offset array: one [u_char] per card. *)
Definition table := Z -> Z.

(** [pointer_delta(left, right)] in words. *)
Definition pointer_delta (left right : Z) : Z := left - right.

Definition index_for (p : Z) : Z :=
  Z.shiftr (pointer_delta p reserved_start) LogN_words.

Definition address_for_index (index : Z) : Z :=
  reserved_start + Z.shiftl index LogN_words.

(** g1SemeruBlockOffsetTable.cpp:60 *)
Definition is_card_boundary (p : Z) : bool :=
  Z.land (pointer_delta p reserved_start) (Z.ones LogN_words) =? 0.

Definition offset_array (T : table) (index : Z) : Z := T index.

(** [G1SemeruCollectedHeap::is_in_semeru_reserved(p)] *)
Definition is_in_semeru_reserved (p : Z) : bool :=
  (reserved_start <=? p) && (p <? reserved_end).

(** [set_offset_array(index, offset)] *)
Definition set_offset_array_raw (index offset : Z) (T : table) : table :=
  fun c => if c =? index then u_char offset else T c.

(** [set_offset_array(index, high, low)]: the distance in words from
    [low] up to [high], narrowed to [u_char]. *)
Definition set_offset_array (index high low : Z) (T : table) : table :=
  set_offset_array_raw index (pointer_delta high low) T.

(** [set_offset_array(left, right, offset)]: fills the closed card
    interval. *)
Definition set_offset_array_range (left right offset : Z) (T : table) : table :=
  fun c => if (left <=? c) && (c <=? right) then u_char offset else T c.

(** The covered space: the region's [bottom], [top] and [end]. *)
Record Space := mkSpace { bottom : Z; top : Z; end_ : Z }.

(** The per-region part: the shared array and the allocation cursor
    [(_next_offset_threshold, _next_offset_index)]. *)
Record Part := mkPart {
  bot : table;
  next_offset_threshold : Z;
  next_offset_index : Z
}.

(** What the heap holds at an address, as far as the table needs it:
    the size of the object whose header is there and whether its klass
    word is set yet. *)
Class HeapView := {
  obj_size : Z -> Z;
  klass_or_null_acquire : Z -> bool
}.

(** Ranges of cards, for the loops over card indices. *)
Definition cards (from to : Z) : list Z :=
  map (fun k => from + Z.of_nat k) (seq 0 (Z.to_nat (to + 1 - from))).

(** g1SemeruBlockOffsetTable.cpp:184, the body for one card [c]. *)
Definition check_card (T : table) (start_card c : Z) : res unit :=
  let entry := offset_array T c in
  (if power_to_cards_back 1 <? c - start_card
   then guarantee (N_words <? entry) else Ret tt) ;;
  let backskip := entry_to_cards_back entry in
  let landing_card := c - backskip in
  guarantee (start_card - 1 <=? landing_card) ;;
  if start_card <=? landing_card then
    guarantee (offset_array T landing_card <=? entry)
  else
    guarantee (landing_card =? start_card - 1) ;;
    guarantee (offset_array T landing_card <=? N_words).

Fixpoint check_cards (T : table) (start_card : Z) (cs : list Z) : res unit :=
  match cs with
  | [] => Ret tt
  | c :: cs' => check_card T start_card c ;; check_cards T start_card cs'
  end.

(** g1SemeruBlockOffsetTable.cpp:184 *)
Definition check_all_cards (T : table) (start_card end_card : Z) : res unit :=
  if end_card <? start_card then Ret tt
  else
    guarantee (offset_array T start_card =? N_words) ;;
    check_cards T start_card (cards (start_card + 1) end_card).

(** The [for] loop of [set_remainder_to_point_to_start_incl]; [n] counts
    the iterations left, [i] is the loop variable.  Returns the array and
    [start_card_for_region]. *)
Fixpoint set_remainder_loop (n : nat) (i start_card end_card start_card_for_region : Z)
    (T : table) : table * Z :=
  match n with
  | O => (T, start_card_for_region)
  | S n' =>
    let reach := start_card - 1 + (power_to_cards_back (i + 1) - 1) in
    let offset := u_char (N_words + i) in
    if end_card <=? reach then
      (set_offset_array_range start_card_for_region end_card offset T, reach + 1)
    else
      set_remainder_loop n' (i + 1) start_card end_card (reach + 1)
        (set_offset_array_range start_card_for_region reach offset T)
  end.

(** g1SemeruBlockOffsetTable.cpp:154 *)
Definition set_remainder_to_point_to_start_incl (sp : Space) (start_card end_card : Z)
    (T : table) : res table :=
  if end_card <? start_card then Ret T
  else
    assert (index_for (bottom sp) <? start_card) ;;
    assert (offset_array T (start_card - 1) <=? N_words) ;;
    let '(T', start_card_for_region) :=
      set_remainder_loop (Z.to_nat N_powers) 0 start_card end_card start_card T in
    assert (end_card <? start_card_for_region) ;;
    check_all_cards T' start_card end_card ;;
    Ret T'.

(** g1SemeruBlockOffsetTable.cpp:102 *)
Definition set_remainder_to_point_to_start (sp : Space) (start end' : Z) (T : table)
    : res table :=
  if end' <=? start then Ret T
  else
    let start_card := index_for start in
    let end_card := index_for (end' - 1) in
    assert (start =? address_for_index start_card) ;;
    assert (end' =? address_for_index end_card + N_words) ;;
    set_remainder_to_point_to_start_incl sp start_card end_card T.

(** g1SemeruBlockOffsetTable.cpp:266.  [threshold] and [index] are the
    copied-in cursor; the result is the copied-out cursor and the array. *)
Definition alloc_block_work (sp : Space) (threshold index blk_start blk_end : Z)
    (T : table) : res (Z * Z * table) :=
  assert (negb (blk_start =? 0) && (blk_start <? blk_end)) ;;
  assert (threshold <? blk_end) ;;
  assert (blk_start <=? threshold) ;;
  assert (pointer_delta threshold blk_start <=? N_words) ;;
  assert (is_in_semeru_reserved blk_start) ;;
  assert (is_in_semeru_reserved (blk_end - 1)) ;;
  assert (threshold =? reserved_start + index * N_words) ;;
  let orig_index := index in
  let T1 := set_offset_array index threshold blk_start T in
  let end_index := index_for (blk_end - 1) in
  T2 ← (if index + 1 <=? end_index then
           let rem_st := address_for_index (index + 1) in
           let rem_end := address_for_index end_index + N_words in
           set_remainder_to_point_to_start sp rem_st rem_end T1
         else Ret T1);
  let index' := end_index + 1 in
  let threshold' := address_for_index end_index + N_words in
  assert (blk_end <=? threshold') ;;
  let start_index := index_for blk_start in
  let boundary := address_for_index start_index in
  assert (((offset_array T2 orig_index =? 0) && (blk_start =? boundary))
          || ((0 <? offset_array T2 orig_index)
              && (offset_array T2 orig_index <=? N_words))) ;;
  assert (forallb (fun j => (0 <? offset_array T2 j)
                            && (offset_array T2 j <=? u_char (N_words + N_powers - 1)))
                  (cards (orig_index + 1) end_index)) ;;
  Ret (threshold', index', T2).

(** Modelled from the spec: [alloc_block(blk_start, blk_end)] is defined
    in g1SemeruBlockOffsetTable.inline.hpp, not part of the sources at
    hand.  It stamps the table only when the block crosses the cached
    threshold, and then runs [alloc_block_work] on the part's own
    cursor. *)
Definition alloc_block (sp : Space) (blk_start blk_end : Z) (P : Part) : res Part :=
  if next_offset_threshold P <? blk_end then
    '(threshold, index, T) ←
      alloc_block_work sp (next_offset_threshold P) (next_offset_index P)
                       blk_start blk_end (bot P);
    Ret (mkPart T threshold index)
  else Ret P.

(** g1SemeruBlockOffsetTable.cpp:417 *)
Definition zero_bottom_entry_raw (sp : Space) (P : Part) : res Part :=
  let bottom_index := index_for (bottom sp) in
  assert (address_for_index bottom_index =? bottom sp) ;;
  Ret (mkPart (set_offset_array_raw bottom_index 0 (bot P))
              (next_offset_threshold P) (next_offset_index P)).

(** g1SemeruBlockOffsetTable.cpp:407 and :426 *)
Definition initialize_threshold (sp : Space) (P : Part) : Part :=
  let index := index_for (bottom sp) + 1 in
  mkPart (bot P) (address_for_index index) index.

(** Modelled from the spec: [reset_bot()] is declared in the part's
    header, not part of the sources at hand: the bottom entry is zeroed
    and the cursor put back on the second card. *)
Definition reset_bot (sp : Space) (P : Part) : res Part :=
  P1 ← zero_bottom_entry_raw sp P;
  Ret (initialize_threshold sp P1).

Context `{HeapView}.

(** SemeruHeapRegion.inline.hpp, [block_size]: with class unloading
    during marking switched off every block below [top] is an object. *)
Definition block_size (sp : Space) (addr : Z) : Z :=
  if addr =? top sp then pointer_delta (end_ sp) addr else obj_size addr.

(** Modelled from the spec: the lookup side of the part
    ([block_at_or_preceding], [forward_to_block_containing_addr],
    [forward_to_block_containing_addr_const], [block_start]) is defined
    in g1SemeruBlockOffsetTable.inline.hpp, not part of the sources at
    hand.  An entry below [N_words] is the distance in words back to the
    start of the block covering the card's first word; an entry from
    [N_words] upward is a logarithmic code to skip back a power of
    [Base] cards and look again. *)
Fixpoint block_at_or_preceding_loop (fuel : nat) (T : table) (q index offset : Z)
    : res Z :=
  if offset <? N_words then Ret (q - offset)
  else
    match fuel with
    | O => Timeout
    | S fuel' =>
      let n_cards_back := entry_to_cards_back offset in
      let q' := q - N_words * n_cards_back in
      let index' := index - n_cards_back in
      block_at_or_preceding_loop fuel' T q' index' (offset_array T index')
    end.

Definition block_at_or_preceding (fuel : nat) (T : table) (addr : Z)
    (has_max_index : bool) (max_index : Z) : res Z :=
  let index := index_for addr in
  let index := if has_max_index then Z.min index max_index else index in
  let q := address_for_index index in
  block_at_or_preceding_loop fuel T q index (offset_array T index).

(** The walk forward over whole blocks: [while (n <= addr)]. *)
Fixpoint forward_const_loop (fuel : nat) (sp : Space) (q n addr : Z) : res Z :=
  if n <=? addr then
    match fuel with
    | O => Timeout
    | S fuel' =>
      let q := n in
      if negb (klass_or_null_acquire q) then Ret q
      else forward_const_loop fuel' sp q (n + block_size sp q) addr
    end
  else Ret q.

Definition forward_to_block_containing_addr_const (fuel : nat) (sp : Space)
    (q n addr : Z) : res Z :=
  if top sp <=? addr then Ret (top sp)
  else forward_const_loop fuel sp q n addr.

(** The inner loop of the slow path: [while (n <= next_boundary)].  The
    result is [inl q] when an object without klass ends the query, else
    [inr (q, n)] with the block [q, n) crossing the boundary. *)
Fixpoint slow_inner_loop (fuel : nat) (sp : Space) (q n next_boundary : Z)
    : res (Z + Z * Z) :=
  if n <=? next_boundary then
    match fuel with
    | O => Timeout
    | S fuel' =>
      let q := n in
      if negb (klass_or_null_acquire q) then Ret (inl q)
      else slow_inner_loop fuel' sp q (n + block_size sp q) next_boundary
    end
  else Ret (inr (q, n)).

(** The outer loop of the slow path: [while (next_boundary < addr)]. *)
Fixpoint slow_outer_loop (fuel : nat) (sp : Space) (q n next_boundary next_index addr : Z)
    (T : table) : res ((Z + Z * Z) * table) :=
  if next_boundary <? addr then
    match fuel with
    | O => Timeout
    | S fuel' =>
      r ← slow_inner_loop fuel' sp q n next_boundary;
      match r with
      | inl q' => Ret (inl q', T)
      | inr (q', n') =>
        '(next_boundary', next_index', T') ←
          alloc_block_work sp next_boundary next_index q' n' T;
        slow_outer_loop fuel' sp q' n' next_boundary' next_index' addr T'
      end
    end
  else Ret (inr (q, n), T).

(** g1SemeruBlockOffsetTable.cpp:219 *)
Definition forward_to_block_containing_addr_slow (fuel : nat) (sp : Space)
    (q n addr : Z) (T : table) : res (Z * table) :=
  let n_index := index_for n in
  let next_index := index_for n + (if is_card_boundary n then 0 else 1) in
  let next_boundary :=
    address_for_index n_index + (if n_index =? next_index then 0 else N_words) in
  if top sp <=? addr then Ret (top sp, T)
  else
    '(r, T') ← slow_outer_loop fuel sp q n next_boundary next_index addr T;
    match r with
    | inl q' => Ret (q', T')
    | inr (q', n') =>
      q'' ← forward_to_block_containing_addr_const fuel sp q' n' addr;
      Ret (q'', T')
    end.

Definition forward_to_block_containing_addr (fuel : nat) (sp : Space) (q addr : Z)
    (T : table) : res (Z * table) :=
  if negb (klass_or_null_acquire q) then Ret (q, T)
  else
    let n := q + block_size sp q in
    '(q', T') ← (if n <=? addr
                  then forward_to_block_containing_addr_slow fuel sp q n addr T
                  else Ret (q, T));
    assert (q' <=? addr) ;;
    Ret (q', T').

(** [block_start(addr)]: [NULL] outside the space, else the start of the
    block holding [addr]; the array may be refined on the way. *)
Definition block_start (fuel : nat) (sp : Space) (addr : Z) (P : Part) : res (Z * Part) :=
  if (bottom sp <=? addr) && (addr <? end_ sp) then
    q ← block_at_or_preceding fuel (bot P) addr true (next_offset_index P - 1);
    '(q', T') ← forward_to_block_containing_addr fuel sp q addr (bot P);
    Ret (q', mkPart T' (next_offset_threshold P) (next_offset_index P))
  else Ret (0, P).

(** g1SemeruBlockOffsetTable.cpp:342, the body for one card. *)
Fixpoint verify_walk (fuel : nat) (sp : Space) (obj_end card_address : Z) : res unit :=
  if obj_end <? card_address then
    match fuel with
    | O => Timeout
    | S fuel' =>
      let obj := obj_end in
      let obj_size := block_size sp obj in
      let obj_end := obj + obj_size in
      guarantee ((obj <? obj_end) && (obj_end <=? top sp)) ;;
      verify_walk fuel' sp obj_end card_address
    end
  else Ret tt.

Definition verify_card (fuel : nat) (sp : Space) (T : table) (start_card current_card : Z)
    : res unit :=
  let entry := offset_array T current_card in
  if entry <? N_words then
    let card_address := address_for_index current_card in
    verify_walk fuel sp (card_address - entry) card_address
  else
    let backskip := entry_to_cards_back entry in
    guarantee (1 <=? backskip) ;;
    let max_backskip := current_card - start_card in
    guarantee (backskip <=? max_backskip) ;;
    let backskip_address := address_for_index (current_card - backskip) in
    guarantee (bottom sp <=? backskip_address).

Fixpoint verify_cards (fuel : nat) (sp : Space) (T : table) (start_card : Z) (cs : list Z)
    : res unit :=
  match cs with
  | [] => Ret tt
  | c :: cs' => verify_card fuel sp T start_card c ;; verify_cards fuel sp T start_card cs'
  end.

(** g1SemeruBlockOffsetTable.cpp:342 *)
Definition verify (fuel : nat) (sp : Space) (P : Part) : res unit :=
  assert (bottom sp <? top sp) ;;
  let start_card := index_for (bottom sp) in
  let end_card := index_for (top sp - 1) in
  verify_cards fuel sp (bot P) start_card (cards start_card (end_card - 1)).

(** A run of [alloc_block] calls, one per block [(start, end)]. *)
Fixpoint alloc_blocks (sp : Space) (blocks : list (Z * Z)) (P : Part) : res Part :=
  match blocks with
  | [] => Ret P
  | (s, e) :: rest => P' ← alloc_block sp s e P; alloc_blocks sp rest P'
  end.

End Table.
End BOT.

(** ** The CPU-server region: heapRegion.cpp, SemeruHeapRegion.inline.hpp *)

Module Region.
Import BOT.

(** Modelled from the spec: [HeapRegionType] (heapRegionType.hpp) and
    [G1HeapRegionTraceType] (g1HeapRegionTraceType.hpp) are not part of
    the sources at hand; the spec lists the type tags. *)
Inductive HeapRegionType :=
| FreeTag | EdenTag | SurvTag | StartsHumongousTag | ContinuesHumongousTag
| OldTag | OpenArchiveTag | ClosedArchiveTag.

Inductive TraceType :=
| TFree | TEden | TSurvivor | TStartsHumongous | TContinuesHumongous
| TOld | TOpenArchive | TClosedArchive.

Definition get_trace_type_of (t : HeapRegionType) : TraceType :=
  match t with
  | FreeTag => TFree | EdenTag => TEden | SurvTag => TSurvivor
  | StartsHumongousTag => TStartsHumongous
  | ContinuesHumongousTag => TContinuesHumongous
  | OldTag => TOld | OpenArchiveTag => TOpenArchive
  | ClosedArchiveTag => TClosedArchive
  end.

Definition type_is_young (t : HeapRegionType) : bool :=
  match t with EdenTag | SurvTag => true | _ => false end.

Definition type_is_humongous (t : HeapRegionType) : bool :=
  match t with StartsHumongousTag | ContinuesHumongousTag => true | _ => false end.

(** One event of the tracer collaborator,
    [HeapRegionTracer::send_region_type_change(index, from, to, start, used)]. *)
Record TraceEvent := mkEvent {
  ev_index : Z;
  ev_from : TraceType;
  ev_to : TraceType;
  ev_start : Z;
  ev_used : Z
}.

Definition HeapWordSize : Z := 8.

(** The region.  [tracer] is the log of the tracer collaborator, kept
    with the region it reports on; [in_cset] is the answer of
    [G1CollectedHeap::is_in_cset(this)]; [rem_set] stands for the cards
    recorded in the remembered set. *)
Record HeapRegion := mkRegion {
  hrm_index : Z;
  bottom : Z;
  top : Z;
  end_ : Z;
  compaction_top : Z;
  saved_mark_word : Z;
  type : HeapRegionType;
  humongous_start_region : option Z;
  object_can_span : bool;
  in_cset : bool;
  young_index_in_cset : Z;
  surv_rate_group : option Z;
  age_index : Z;
  pre_dummy_top : Z;
  rem_set : list Z;
  prev_marked_bytes : Z;
  next_marked_bytes : Z;
  prev_top_at_mark_start : Z;
  next_top_at_mark_start : Z;
  bot_part : Part;
  tracer : list TraceEvent
}.

Definition space_of (r : HeapRegion) : Space := mkSpace (bottom r) (top r) (end_ r).

Definition set_top (v : Z) (r : HeapRegion) : HeapRegion :=
  mkRegion (hrm_index r) (bottom r) v (end_ r) (compaction_top r) (saved_mark_word r)
    (type r) (humongous_start_region r) (object_can_span r) (in_cset r)
    (young_index_in_cset r) (surv_rate_group r) (age_index r) (pre_dummy_top r)
    (rem_set r) (prev_marked_bytes r) (next_marked_bytes r)
    (prev_top_at_mark_start r) (next_top_at_mark_start r) (bot_part r) (tracer r).

Definition set_type (t : HeapRegionType) (r : HeapRegion) : HeapRegion :=
  mkRegion (hrm_index r) (bottom r) (top r) (end_ r) (compaction_top r) (saved_mark_word r)
    t (humongous_start_region r) (object_can_span r) (in_cset r)
    (young_index_in_cset r) (surv_rate_group r) (age_index r) (pre_dummy_top r)
    (rem_set r) (prev_marked_bytes r) (next_marked_bytes r)
    (prev_top_at_mark_start r) (next_top_at_mark_start r) (bot_part r) (tracer r).

Definition set_humongous_start_region (h : option Z) (r : HeapRegion) : HeapRegion :=
  mkRegion (hrm_index r) (bottom r) (top r) (end_ r) (compaction_top r) (saved_mark_word r)
    (type r) h (object_can_span r) (in_cset r)
    (young_index_in_cset r) (surv_rate_group r) (age_index r) (pre_dummy_top r)
    (rem_set r) (prev_marked_bytes r) (next_marked_bytes r)
    (prev_top_at_mark_start r) (next_top_at_mark_start r) (bot_part r) (tracer r).

Definition set_object_can_span (b : bool) (r : HeapRegion) : HeapRegion :=
  mkRegion (hrm_index r) (bottom r) (top r) (end_ r) (compaction_top r) (saved_mark_word r)
    (type r) (humongous_start_region r) b (in_cset r)
    (young_index_in_cset r) (surv_rate_group r) (age_index r) (pre_dummy_top r)
    (rem_set r) (prev_marked_bytes r) (next_marked_bytes r)
    (prev_top_at_mark_start r) (next_top_at_mark_start r) (bot_part r) (tracer r).

Definition set_bot_part (P : Part) (r : HeapRegion) : HeapRegion :=
  mkRegion (hrm_index r) (bottom r) (top r) (end_ r) (compaction_top r) (saved_mark_word r)
    (type r) (humongous_start_region r) (object_can_span r) (in_cset r)
    (young_index_in_cset r) (surv_rate_group r) (age_index r) (pre_dummy_top r)
    (rem_set r) (prev_marked_bytes r) (next_marked_bytes r)
    (prev_top_at_mark_start r) (next_top_at_mark_start r) P (tracer r).

Definition set_tracer (l : list TraceEvent) (r : HeapRegion) : HeapRegion :=
  mkRegion (hrm_index r) (bottom r) (top r) (end_ r) (compaction_top r) (saved_mark_word r)
    (type r) (humongous_start_region r) (object_can_span r) (in_cset r)
    (young_index_in_cset r) (surv_rate_group r) (age_index r) (pre_dummy_top r)
    (rem_set r) (prev_marked_bytes r) (next_marked_bytes r)
    (prev_top_at_mark_start r) (next_top_at_mark_start r) (bot_part r) l.

Definition is_young (r : HeapRegion) : bool := type_is_young (type r).
Definition is_humongous (r : HeapRegion) : bool := type_is_humongous (type r).
Definition in_collection_set (r : HeapRegion) : bool := in_cset r.
Definition get_trace_type (r : HeapRegion) : TraceType := get_trace_type_of (type r).

(** [used()]: bytes between [bottom] and [top]. *)
Definition used (r : HeapRegion) : Z := (top r - bottom r) * HeapWordSize.

(** *** Type transitions *)

(** heapRegion.cpp:299 *)
Definition report_region_type_change (to : TraceType) (r : HeapRegion) : HeapRegion :=
  set_tracer (tracer r ++ [mkEvent (hrm_index r) (get_trace_type r) to (bottom r) (used r)]) r.

(** heapRegion.cpp:179 *)
Definition set_free (r : HeapRegion) : HeapRegion :=
  let r := report_region_type_change TFree r in
  set_type FreeTag r.

(** heapRegion.cpp:184 *)
Definition set_eden (r : HeapRegion) : HeapRegion :=
  let r := report_region_type_change TEden r in
  set_type EdenTag r.

(** heapRegion.cpp:189 *)
Definition set_eden_pre_gc (r : HeapRegion) : HeapRegion :=
  let r := report_region_type_change TEden r in
  set_type EdenTag r.

(** heapRegion.cpp:194 *)
Definition set_survivor (r : HeapRegion) : HeapRegion :=
  let r := report_region_type_change TSurvivor r in
  set_type SurvTag r.

(** Modelled from the spec: [HeapRegionType::relabel_as_old()] is not
    part of the sources at hand; the caller shows that it answers
    whether a relabel took place.  A region that is old already is left
    alone, any other becomes old. *)
Definition relabel_as_old (t : HeapRegionType) : bool * HeapRegionType :=
  match t with
  | OldTag => (false, OldTag)
  | _ => (true, OldTag)
  end.

(** heapRegion.cpp:199, over any relabel function. *)
Definition move_to_old_with (relabel : HeapRegionType -> bool * HeapRegionType)
    (r : HeapRegion) : HeapRegion :=
  let '(changed, t) := relabel (type r) in
  let r := set_type t r in
  if changed then report_region_type_change TOld r else r.

Definition move_to_old : HeapRegion -> HeapRegion := move_to_old_with relabel_as_old.

(** heapRegion.cpp:205 *)
Definition set_old (r : HeapRegion) : HeapRegion :=
  let r := report_region_type_change TOld r in
  set_type OldTag r.

(** heapRegion.cpp:210 *)
Definition set_open_archive (r : HeapRegion) : HeapRegion :=
  let r := report_region_type_change TOpenArchive r in
  set_type OpenArchiveTag r.

(** heapRegion.cpp:215 *)
Definition set_closed_archive (r : HeapRegion) : HeapRegion :=
  let r := report_region_type_change TClosedArchive r in
  set_type ClosedArchiveTag r.

Section WithBOT.
Context `{BOTConstants}.

(** g1SemeruBlockOffsetTable.cpp:436 *)
Definition set_for_starts_humongous (sp : Space) (obj_top fill_size : Z) (P : Part)
    : res Part :=
  P ← reset_bot sp P;
  P ← alloc_block sp (BOT.bottom sp) obj_top P;
  if 0 <? fill_size then alloc_block sp obj_top (obj_top + fill_size) P else Ret P.

(** heapRegion.cpp:220 *)
Definition set_starts_humongous (obj_top fill_size : Z) (r : HeapRegion) : res HeapRegion :=
  assert (negb (is_humongous r)) ;;
  assert (top r =? bottom r) ;;
  let r := report_region_type_change TStartsHumongous r in
  let r := set_type StartsHumongousTag r in
  let r := set_humongous_start_region (Some (hrm_index r)) r in
  P ← set_for_starts_humongous (space_of r) obj_top fill_size (bot_part r);
  Ret (set_bot_part P r).

(** heapRegion.cpp:231 *)
Definition set_continues_humongous (first_hr : HeapRegion) (r : HeapRegion)
    : res HeapRegion :=
  assert (negb (is_humongous r)) ;;
  assert (top r =? bottom r) ;;
  assert (match type first_hr with StartsHumongousTag => true | _ => false end) ;;
  let r := report_region_type_change TContinuesHumongous r in
  let r := set_type ContinuesHumongousTag r in
  let r := set_humongous_start_region (Some (hrm_index first_hr)) r in
  Ret (set_object_can_span true r).

(** *** Clearing *)

(** Modelled from the spec: the small per-cycle resets used by
    [hr_clear] are declared in heapRegion.hpp, not part of the sources at
    hand.  The spec has them zero the liveness counters, put both TAMS
    back to [bottom] and drop the young-generation bookkeeping. *)
Definition set_young_index_in_cset (v : Z) (r : HeapRegion) : HeapRegion :=
  mkRegion (hrm_index r) (bottom r) (top r) (end_ r) (compaction_top r) (saved_mark_word r)
    (type r) (humongous_start_region r) (object_can_span r) (in_cset r)
    v (surv_rate_group r) (age_index r) (pre_dummy_top r)
    (rem_set r) (prev_marked_bytes r) (next_marked_bytes r)
    (prev_top_at_mark_start r) (next_top_at_mark_start r) (bot_part r) (tracer r).

Definition uninstall_surv_rate_group (r : HeapRegion) : HeapRegion :=
  mkRegion (hrm_index r) (bottom r) (top r) (end_ r) (compaction_top r) (saved_mark_word r)
    (type r) (humongous_start_region r) (object_can_span r) (in_cset r)
    (young_index_in_cset r) None (-1) (pre_dummy_top r)
    (rem_set r) (prev_marked_bytes r) (next_marked_bytes r)
    (prev_top_at_mark_start r) (next_top_at_mark_start r) (bot_part r) (tracer r).

Definition reset_pre_dummy_top (r : HeapRegion) : HeapRegion :=
  mkRegion (hrm_index r) (bottom r) (top r) (end_ r) (compaction_top r) (saved_mark_word r)
    (type r) (humongous_start_region r) (object_can_span r) (in_cset r)
    (young_index_in_cset r) (surv_rate_group r) (age_index r) 0
    (rem_set r) (prev_marked_bytes r) (next_marked_bytes r)
    (prev_top_at_mark_start r) (next_top_at_mark_start r) (bot_part r) (tracer r).

(** [rem_set()->clear()] and [rem_set()->clear_locked()]. *)
Definition rem_set_clear (r : HeapRegion) : HeapRegion :=
  mkRegion (hrm_index r) (bottom r) (top r) (end_ r) (compaction_top r) (saved_mark_word r)
    (type r) (humongous_start_region r) (object_can_span r) (in_cset r)
    (young_index_in_cset r) (surv_rate_group r) (age_index r) (pre_dummy_top r)
    [] (prev_marked_bytes r) (next_marked_bytes r)
    (prev_top_at_mark_start r) (next_top_at_mark_start r) (bot_part r) (tracer r).

Definition rem_set_clear_locked (r : HeapRegion) : HeapRegion := rem_set_clear r.

Definition zero_marked_bytes (r : HeapRegion) : HeapRegion :=
  mkRegion (hrm_index r) (bottom r) (top r) (end_ r) (compaction_top r) (saved_mark_word r)
    (type r) (humongous_start_region r) (object_can_span r) (in_cset r)
    (young_index_in_cset r) (surv_rate_group r) (age_index r) (pre_dummy_top r)
    (rem_set r) 0 0
    (prev_top_at_mark_start r) (next_top_at_mark_start r) (bot_part r) (tracer r).

Definition init_top_at_mark_start (r : HeapRegion) : HeapRegion :=
  mkRegion (hrm_index r) (bottom r) (top r) (end_ r) (compaction_top r) (saved_mark_word r)
    (type r) (humongous_start_region r) (object_can_span r) (in_cset r)
    (young_index_in_cset r) (surv_rate_group r) (age_index r) (pre_dummy_top r)
    (rem_set r) (prev_marked_bytes r) (next_marked_bytes r)
    (bottom r) (bottom r) (bot_part r) (tracer r).

(** Modelled from the spec: [CompactibleSpace::clear] (space.cpp) is not
    part of the sources at hand; it empties the space and puts the
    compaction cursor back to [bottom]. *)
Definition CompactibleSpace_clear (mangle_space : bool) (r : HeapRegion) : HeapRegion :=
  let r := set_top (bottom r) r in
  mkRegion (hrm_index r) (bottom r) (top r) (end_ r) (bottom r) (bottom r)
    (type r) (humongous_start_region r) (object_can_span r) (in_cset r)
    (young_index_in_cset r) (surv_rate_group r) (age_index r) (pre_dummy_top r)
    (rem_set r) (prev_marked_bytes r) (next_marked_bytes r)
    (prev_top_at_mark_start r) (next_top_at_mark_start r) (bot_part r) (tracer r).

(** heapRegion.cpp:964 *)
Definition clear (mangle_space : bool) (r : HeapRegion) : res HeapRegion :=
  let r := set_top (bottom r) r in
  let r := CompactibleSpace_clear mangle_space r in
  P ← reset_bot (space_of r) (bot_part r);
  Ret (set_bot_part P r).

(** heapRegion.cpp:116 *)
Definition hr_clear (keep_remset clear_space locked : bool) (r : HeapRegion)
    : res HeapRegion :=
  assert (match humongous_start_region r with None => true | Some _ => false end) ;;
  assert (negb (in_collection_set r)) ;;
  let _is_young := is_young r in
  let r := set_young_index_in_cset (-1) r in
  let r := uninstall_surv_rate_group r in
  let r := set_free r in
  let r := reset_pre_dummy_top r in
  let r := if negb keep_remset
           then (if locked then rem_set_clear_locked r else rem_set_clear r)
           else r in
  let r := zero_marked_bytes r in
  let r := init_top_at_mark_start r in
  if clear_space then clear true r else Ret r.

End WithBOT.

(** *** Allocation *)

(** SemeruHeapRegion.inline.hpp:383.  The result is [Some (obj,
    actual_size)], or [None] for [NULL]. *)
Definition allocate_impl (min_word_size desired_word_size : Z) (r : HeapRegion)
    : option (Z * Z) * HeapRegion :=
  let obj := top r in
  let available := pointer_delta (end_ r) obj in
  let want_to_allocate := Z.min available desired_word_size in
  if min_word_size <=? want_to_allocate then
    let new_top := obj + want_to_allocate in
    let r := set_top new_top r in
    (Some (obj, want_to_allocate), r)
  else (None, r).

(** What other threads do to [top] while this one is between two of its
    own accesses: nothing, or a store of another value. *)
Definition interference := option Z.

Definition interfere (e : interference) (r : HeapRegion) : HeapRegion :=
  match e with
  | Some t => set_top t r
  | None => r
  end.

(** [Atomic::cmpxchg(new_top, top_addr(), obj)]: the old value, and the
    store when it equals [obj]. *)
Definition cmpxchg_top (new_top obj : Z) (r : HeapRegion) : Z * HeapRegion :=
  if top r =? obj then (top r, set_top new_top r) else (top r, r).

(** SemeruHeapRegion.inline.hpp:407, one round of the retry loop:
    [inl] is a return, [inr] the region with which the loop goes round
    again.  [e_read] is the interference before the read of [top],
    [e_cas] the interference between that read and the [cmpxchg]. *)
Definition par_allocate_round (e_read e_cas : interference)
    (min_word_size desired_word_size : Z) (r : HeapRegion)
    : (option (Z * Z) * HeapRegion) + HeapRegion :=
  let r := interfere e_read r in
  let obj := top r in
  let available := pointer_delta (end_ r) obj in
  let want_to_allocate := Z.min available desired_word_size in
  if min_word_size <=? want_to_allocate then
    let new_top := obj + want_to_allocate in
    let r := interfere e_cas r in
    let '(result, r) := cmpxchg_top new_top obj r in
    if result =? obj then inl (Some (obj, want_to_allocate), r)
    else inr r
  else inl (None, r).

(** SemeruHeapRegion.inline.hpp:407.  The schedule lists the
    interference round by round; once it is used up no other thread
    touches [top] any more. *)
Fixpoint par_allocate_impl (sched : list (interference * interference))
    (min_word_size desired_word_size : Z) (r : HeapRegion)
    : res (option (Z * Z) * HeapRegion) :=
  match sched with
  | [] =>
    match par_allocate_round None None min_word_size desired_word_size r with
    | inl out => Ret out
    | inr _ => Timeout
    end
  | (e_read, e_cas) :: sched' =>
    match par_allocate_round e_read e_cas min_word_size desired_word_size r with
    | inl out => Ret out
    | inr r' => par_allocate_impl sched' min_word_size desired_word_size r'
    end
  end.

(** *** Transfer to the memory server *)

Section Transport.

(** The first address of the window of memory server 1 and the grain
    size, both configuration constants defined outside the sources at
    hand, and the transport collaborator: the status returned by
    [syscall(RDMA_WRITE, server, addr, bytes)]. *)
Variable MEMORY_SERVER_1_START_ADDR : Z.
Variable GrainBytes : Z.
Variable rdma_write : Z -> Z -> Z -> Z.




End Transport.

End Region.

(** ** Region-local compaction: g1FullGCCompactTask.cpp,
    g1SemeruSTWCompact.hpp, SemeruHeapRegion.inline.hpp *)

Module Compact.
Import Region.

(** The heap, word by word, and the concurrent-mark bitmap, one bit per
    heap word. *)
Definition mem := Z -> Z.
Definition bitmap := Z -> bool.

(** Modelled from the spec: the object model (oop.inline.hpp,
    markOop.hpp, the klass metadata) is not part of the sources at hand.
    oop.hpp puts the mark word first and the klass word second; the spec
    keeps the forwarding value in the header.  How a klass word gives the
    size and the reference fields, and how a mark word holds a pointer,
    are parameters. *)
Class ObjectModel := {
  klass_size : Z -> Z;
  klass_oop_offsets : Z -> list Z;
  encode_pointer_as_mark : Z -> Z;
  decode_pointer : Z -> Z;
  prototype : Z
}.

(** What the development asks of the object model: a pointer stored in a
    mark word reads back, and a fresh mark word holds none. *)
Definition object_model_ok `{ObjectModel} : Prop :=
  (forall p, decode_pointer (encode_pointer_as_mark p) = p) /\
  decode_pointer prototype = 0.

Section Heap.
Context `{ObjectModel}.

Definition store (a v : Z) (h : mem) : mem :=
  fun x => if x =? a then v else h x.

Definition mark_raw (h : mem) (obj : Z) : Z := h obj.
Definition klass (h : mem) (obj : Z) : Z := h (obj + 1).
Definition size (h : mem) (obj : Z) : Z := klass_size (klass h obj).
Definition forwardee (h : mem) (obj : Z) : Z := decode_pointer (mark_raw h obj).
Definition forward_to (obj p : Z) (h : mem) : mem := store obj (encode_pointer_as_mark p) h.
Definition init_mark_raw (obj : Z) (h : mem) : mem := store obj prototype h.

(** [Copy::aligned_conjoint_words(from, to, count)]: a word copy that is
    safe for overlapping ranges, so every target word receives the word
    the source held before the call. *)
Definition aligned_conjoint_words (from to count : Z) (h : mem) : mem :=
  fun x => if (to <=? x) && (x <? to + count) then h (from + (x - to)) else h x.

(** Modelled from the spec: [G1CMBitMap] (markBitMap.hpp) is not part of
    the sources at hand.  [get_next_marked_addr(addr, limit)] is the first
    marked address from [addr] on, or [limit] when there is none below
    it. *)
Definition is_marked (bm : bitmap) (addr : Z) : bool := bm addr.

Fixpoint next_marked_from (n : nat) (bm : bitmap) (addr limit : Z) : Z :=
  match n with
  | O => limit
  | S n' => if bm addr then addr else next_marked_from n' bm (addr + 1) limit
  end.

Definition get_next_marked_addr (bm : bitmap) (addr limit : Z) : Z :=
  next_marked_from (Z.to_nat (limit - addr)) bm addr limit.

Definition bitmap_clear (obj : Z) (bm : bitmap) : bitmap :=
  fun x => if x =? obj then false else bm x.

Definition clear_region (r : HeapRegion) (bm : bitmap) : bitmap :=
  fun x => if (bottom r <=? x) && (x <? end_ r) then false else bm x.

Definition scan_limit (r : HeapRegion) : Z := top r.

(** SemeruHeapRegion.inline.hpp:575.  The closure works on a state [S]
    and answers the size of the object it was applied to. *)
Fixpoint apply_to_marked_loop {S : Type} (fuel : nat) (bm : bitmap)
    (closure : Z -> S -> res (Z * S)) (limit next_addr : Z) (s : S) : res S :=
  if next_addr <? limit then
    match fuel with
    | O => Timeout
    | Datatypes.S fuel' =>
      if is_marked bm next_addr then
        '(sz, s') ← closure next_addr s;
        apply_to_marked_loop fuel' bm closure limit (next_addr + sz) s'
      else
        apply_to_marked_loop fuel' bm closure limit
          (get_next_marked_addr bm next_addr limit) s
    end
  else assert (next_addr =? limit) ;; Ret s.

Definition apply_to_marked_objects {S : Type} (fuel : nat) (r : HeapRegion)
    (bm : bitmap) (closure : Z -> S -> res (Z * S)) (s : S) : res S :=
  let limit := scan_limit r in
  let next_addr := bottom r in
  apply_to_marked_loop fuel bm closure limit next_addr s.

(** *** Phase 3: the copy *)

(** g1FullGCCompactTask.cpp:72, [G1CompactRegionClosure::apply]. *)
Definition G1CompactRegionClosure_apply (obj : Z) (h : mem) : res (Z * mem) :=
  let size := size h obj in
  let destination := forwardee h obj in
  if destination =? 0 then Ret (size, h)
  else
    let obj_addr := obj in
    assert (negb (obj_addr =? destination)) ;;
    let h := aligned_conjoint_words obj_addr destination size h in
    let h := init_mark_raw destination h in
    assert (negb (klass h destination =? 0)) ;;
    Ret (size, h).

(** Debug builds fill the unused part of a space with a marker word when
    [ZapUnusedHeapArea] is set; flag and marker are defined outside the
    sources at hand. *)
Variable ZapUnusedHeapArea : bool.
Variable badHeapWordVal : Z.

(** heapRegion.cpp:974 *)
Definition mangle_unused_area (r : HeapRegion) (h : mem) : mem :=
  fun x => if (top r <=? x) && (x <? end_ r) then badHeapWordVal else h x.

Context `{BOT.BOTConstants}.

(** Modelled from the spec: [reset_after_compaction] (space.hpp) is not
    part of the sources at hand; it makes the compaction cursor the new
    [top]. *)
Definition reset_after_compaction (r : HeapRegion) : HeapRegion :=
  set_top (compaction_top r) r.

(** SemeruHeapRegion.inline.hpp:536 *)
Definition complete_compaction (r : HeapRegion) (h : mem) : res (HeapRegion * mem) :=
  let r := reset_after_compaction r in
  r ← (if top r <=? bottom r
       then P ← BOT.reset_bot (space_of r) (bot_part r); Ret (set_bot_part P r)
       else Ret r);
  let r := zero_marked_bytes r in
  let r := init_top_at_mark_start r in
  Ret (r, if ZapUnusedHeapArea then mangle_unused_area r h else h).

(** g1FullGCCompactTask.cpp:97 *)
Definition compact_region (fuel : nat) (r : HeapRegion) (bm : bitmap) (h : mem)
    : res (HeapRegion * bitmap * mem) :=
  assert (negb (is_humongous r)) ;;
  h ← apply_to_marked_objects fuel r bm G1CompactRegionClosure_apply h;
  let bm := clear_region r bm in
  '(r, h) ← complete_compaction r h;
  Ret (r, bm, h).

(** *** Phase 2: the adjustment *)

(** The state of the adjust closure: the heap and the references that
    leave the region, recorded for the deferred fix-up. *)
Definition adjust_state : Type := mem * list Z.

Definition is_in_reserved (r : HeapRegion) (p : Z) : bool :=
  (bottom r <=? p) && (p <? end_ r).

(** Modelled from the spec: [G1SemeruAdjustClosure::adjust_intra_region_pointer]
    is only declared in the sources at hand.  A reference into the
    region of the object is rewritten to the forwarding value of its
    target when the target has one; a reference into another region is
    recorded, not rewritten. *)
Definition adjust_intra_region_pointer (hr : HeapRegion) (p : Z) (s : adjust_state)
    : adjust_state :=
  let '(h, queue) := s in
  let v := h p in
  if v =? 0 then s
  else if is_in_reserved hr v then
    let fwd := forwardee h v in
    if fwd =? 0 then s else (store p fwd h, queue)
  else (h, queue ++ [p]).

(** Modelled from the spec: [oop_iterate_size(cl)] and [oop_iterate(cl,
    mr)] (oop.inline.hpp) are not part of the sources at hand: the
    closure visits every reference field of the object, for the second
    form only those inside [mr]. *)
Definition oop_fields (h : mem) (obj : Z) : list Z :=
  map (fun off => obj + off) (klass_oop_offsets (klass h obj)).

Definition oop_iterate_size (hr : HeapRegion) (obj : Z) (s : adjust_state)
    : Z * adjust_state :=
  let sz := size (fst s) obj in
  (sz, fold_left (fun s p => adjust_intra_region_pointer hr p s) (oop_fields (fst s) obj) s).

Definition oop_iterate_bounded (hr : HeapRegion) (obj mr_start mr_end : Z)
    (s : adjust_state) : adjust_state :=
  fold_left (fun s p => adjust_intra_region_pointer hr p s)
    (filter (fun p => (mr_start <=? p) && (p <? mr_end)) (oop_fields (fst s) obj)) s.

(** g1SemeruSTWCompact.hpp:632, [G1SemeruAdjustLiveClosure::apply]. *)
Definition G1SemeruAdjustLiveClosure_apply (hr : HeapRegion) (obj : Z) (s : adjust_state)
    : res (Z * adjust_state) :=
  Ret (oop_iterate_size hr obj s).

(** g1SemeruSTWCompact.hpp:655, [G1SemeruAdjustRegionClosure::do_heap_region].
    [region_bottom] finds the [bottom] of a region from its index. *)
Definition do_heap_region (fuel : nat) (region_bottom : Z -> Z) (r : HeapRegion)
    (bm : bitmap) (s : adjust_state) : res (bitmap * adjust_state) :=
  if is_humongous r then
    match humongous_start_region r with
    | Some start =>
      let obj := region_bottom start in
      Ret (bm, oop_iterate_bounded r obj (bottom r) (top r) s)
    | None => Fatal
    end
  else if match type r with OpenArchiveTag => true | _ => false end then
    s ← apply_to_marked_objects fuel r bm (G1SemeruAdjustLiveClosure_apply r) s;
    Ret (clear_region r bm, s)
  else
    s ← apply_to_marked_objects fuel r bm (G1SemeruAdjustLiveClosure_apply r) s;
    Ret (bm, s).

(** *** Phase 1: the destinations *)

(** Modelled from the spec: [G1SemeruPrepareCompactLiveClosure::apply]
    and the compaction point it drives are only declared in the sources
    at hand.  Each live object, in address order, is given the current
    compaction cursor as destination, kept in its header as forwarding
    value, and the cursor moves on by the object's size; an object that
    sits at the cursor already is not moving and keeps a header without
    forwarding value, which is what the compact closure reads as such. *)
Definition forward (obj size : Z) (s : mem * Z) : mem * Z :=
  let '(h, compaction_top) := s in
  let h := if negb (obj =? compaction_top) then forward_to obj compaction_top h
           else if negb (forwardee h obj =? 0) then init_mark_raw obj h
           else h in
  (h, compaction_top + size).

Definition G1SemeruPrepareCompactLiveClosure_apply (obj : Z) (s : mem * Z)
    : res (Z * (mem * Z)) :=
  let size := size (fst s) obj in
  Ret (size, forward obj size s).

Definition set_compaction_top (v : Z) (r : HeapRegion) : HeapRegion :=
  mkRegion (hrm_index r) (bottom r) (top r) (end_ r) v (saved_mark_word r)
    (type r) (humongous_start_region r) (object_can_span r) (in_cset r)
    (young_index_in_cset r) (surv_rate_group r) (age_index r) (pre_dummy_top r)
    (rem_set r) (prev_marked_bytes r) (next_marked_bytes r)
    (prev_top_at_mark_start r) (next_top_at_mark_start r) (bot_part r) (tracer r).

Definition phase1_prepare_for_compact (fuel : nat) (r : HeapRegion) (bm : bitmap)
    (h : mem) : res (HeapRegion * mem) :=
  '(h, cursor) ←
    apply_to_marked_objects fuel r bm G1SemeruPrepareCompactLiveClosure_apply
      (h, bottom r);
  Ret (set_compaction_top cursor r, h).

Definition phase2_adjust_intra_region_pointer (fuel : nat) (region_bottom : Z -> Z)
    (r : HeapRegion) (bm : bitmap) (s : adjust_state) : res (bitmap * adjust_state) :=
  do_heap_region fuel region_bottom r bm s.

Definition phase3_compact_region (fuel : nat) (r : HeapRegion) (bm : bitmap) (h : mem)
    : res (HeapRegion * bitmap * mem) :=
  compact_region fuel r bm h.

(** Phases 1 to 3 on one region, in order. *)
Definition compact_phases (fuel : nat) (region_bottom : Z -> Z) (r : HeapRegion)
    (bm : bitmap) (h : mem) : res (HeapRegion * bitmap * mem * list Z) :=
  '(r, h) ← phase1_prepare_for_compact fuel r bm h;
  '(bm, (h, queue)) ← phase2_adjust_intra_region_pointer fuel region_bottom r bm (h, []);
  '(r, bm, h) ← phase3_compact_region fuel r bm h;
  Ret (r, bm, h, queue).

(** heapRegion.cpp:1000, [object_iterate], collecting the objects met:
    the walk over the objects of a region from [bottom] to [top]. *)
Fixpoint objects_from (fuel : nat) (h : mem) (p limit : Z) : res (list (Z * Z)) :=
  if p <? limit then
    match fuel with
    | O => Timeout
    | Datatypes.S fuel' =>
      rest ← objects_from fuel' h (p + size h p) limit;
      Ret ((p, size h p) :: rest)
    end
  else Ret [].

Definition object_iterate (fuel : nat) (r : HeapRegion) (h : mem) : res (list (Z * Z)) :=
  objects_from fuel h (bottom r) (top r).

(** [live_bytes()]: what lies above the marking snapshot is live as a
    whole, what lies below counts by the marked bytes. *)
Definition live_bytes (r : HeapRegion) : Z :=
  (top r - next_top_at_mark_start r) * HeapWordSize + next_marked_bytes r.

End Heap.
End Compact.

(** ** The suspendible thread set: suspendibleThreadSet.cpp *)

Module STS.

(** Where a concurrent thread stands with respect to the set: not in it,
    in it and running, or parked inside [yield] in the loop
    [while (_suspend_all) ml.wait()]. *)
Inductive thread_state := Outside | Running | Parked.

(** Where the VM thread stands: between requests, inside [synchronize]
    on [_synchronize_wakeup->wait()], or back from [synchronize]. *)
Inductive vm_state := VMIdle | VMWaiting | VMSynchronized.

(** The static fields, the semaphore count, and who is where.
    [signals] counts the calls of [_synchronize_wakeup->signal()] since
    the last [synchronize] began; it is bookkeeping of the model only. *)
Record state := mkState {
  nthreads : Z;
  nthreads_stopped : Z;
  suspend_all : bool;
  synchronize_wakeup : Z;
  threads : list thread_state;
  vm : vm_state;
  signals : Z
}.

(** What a critical section does when a thread enters it: it runs to its
    end, it blocks in a wait, or an assertion fails. *)
Inductive outcome := Done (s : state) | Blocked | Abort.

Definition init (n : nat) : state :=
  mkState 0 0 false 0 (replicate n Outside) VMIdle 0.

(** suspendibleThreadSet.cpp:172; [None] is the failed assertion. *)
Definition is_synchronized (s : state) : option bool :=
  if nthreads_stopped s <=? nthreads s
  then Some (nthreads_stopped s =? nthreads s) else None.

Definition semaphore_signal (s : state) : state :=
  mkState (nthreads s) (nthreads_stopped s) (suspend_all s)
    (synchronize_wakeup s + 1) (threads s) (vm s) (signals s + 1).

Definition set_thread (t : nat) (x : thread_state) (s : state) : state :=
  mkState (nthreads s) (nthreads_stopped s) (suspend_all s)
    (synchronize_wakeup s) (<[t := x]> (threads s)) (vm s) (signals s).

(** suspendibleThreadSet.cpp:178 *)
Definition join (t : nat) (s : state) : outcome :=
  match threads s !! t with
  | Some Outside =>
    if suspend_all s then Blocked
    else
      let s := mkState (nthreads s + 1) (nthreads_stopped s) (suspend_all s)
                 (synchronize_wakeup s) (threads s) (vm s) (signals s) in
      Done (set_thread t Running s)
  | Some Parked => Blocked
  | _ => Abort
  end.

(** suspendibleThreadSet.cpp:188 *)
Definition leave (t : nat) (s : state) : outcome :=
  match threads s !! t with
  | Some Running =>
    if 0 <? nthreads s then
      let s := set_thread t Outside s in
      let s := mkState (nthreads s - 1) (nthreads_stopped s) (suspend_all s)
                 (synchronize_wakeup s) (threads s) (vm s) (signals s) in
      if suspend_all s then
        match is_synchronized s with
        | Some true => Done (semaphore_signal s)
        | Some false => Done s
        | None => Abort
        end
      else Done s
    else Abort
  | Some Parked => Blocked
  | _ => Abort
  end.

(** suspendibleThreadSet.cpp:200, from the entry up to the first wait.
    [ConcGCYieldTimeout] is 0, its default, so no clock is read. *)
Definition yield (t : nat) (s : state) : outcome :=
  match threads s !! t with
  | Some Running =>
    if suspend_all s then
      let s := mkState (nthreads s) (nthreads_stopped s + 1) (suspend_all s)
                 (synchronize_wakeup s) (threads s) (vm s) (signals s) in
      match is_synchronized s with
      | Some true => Done (set_thread t Parked (semaphore_signal s))
      | Some false => Done (set_thread t Parked s)
      | None => Abort
      end
    else Done s
  | Some Parked => Blocked
  | _ => Abort
  end.

(** suspendibleThreadSet.cpp:215, a parked thread coming back from
    [ml.wait()]: it stays in the loop while [_suspend_all] holds. *)
Definition yield_resume (t : nat) (s : state) : outcome :=
  match threads s !! t with
  | Some Parked =>
    if suspend_all s then Blocked
    else if 0 <? nthreads_stopped s then
      let s := mkState (nthreads s) (nthreads_stopped s - 1) (suspend_all s)
                 (synchronize_wakeup s) (threads s) (vm s) (signals s) in
      Done (set_thread t Running s)
    else Abort
  | _ => Abort
  end.

Definition set_vm (v : vm_state) (s : state) : state :=
  mkState (nthreads s) (nthreads_stopped s) (suspend_all s)
    (synchronize_wakeup s) (threads s) v (signals s).

(** suspendibleThreadSet.cpp:237, up to the release of the lock. *)
Definition synchronize (s : state) : outcome :=
  match vm s with
  | VMIdle =>
    if suspend_all s then Abort
    else
      let s := mkState (nthreads s) (nthreads_stopped s) true
                 (synchronize_wakeup s) (threads s) (vm s) 0 in
      match is_synchronized s with
      | Some true => Done (set_vm VMSynchronized s)
      | Some false => Done (set_vm VMWaiting s)
      | None => Abort
      end
  | _ => Abort
  end.

(** suspendibleThreadSet.cpp:266, [_synchronize_wakeup->wait()] and the
    assertions after it. *)
Definition synchronize_wait (s : state) : outcome :=
  match vm s with
  | VMWaiting =>
    if 0 <? synchronize_wakeup s then
      let s := mkState (nthreads s) (nthreads_stopped s) (suspend_all s)
                 (synchronize_wakeup s - 1) (threads s) (vm s) (signals s) in
      if suspend_all s then
        match is_synchronized s with
        | Some true => Done (set_vm VMSynchronized s)
        | _ => Abort
        end
      else Abort
    else Blocked
  | _ => Abort
  end.

(** suspendibleThreadSet.cpp:275 *)
Definition desynchronize (s : state) : outcome :=
  match vm s with
  | VMSynchronized =>
    if suspend_all s then
      match is_synchronized s with
      | Some true =>
        Done (set_vm VMIdle
                (mkState (nthreads s) (nthreads_stopped s) false
                   (synchronize_wakeup s) (threads s) (vm s) (signals s)))
      | _ => Abort
      end
    else Abort
  | _ => Abort
  end.

(** The calls the threads make.  All of them run under [STS_lock], so
    each critical section is one step of the system. *)
Inductive call :=
| CJoin (t : nat) | CLeave (t : nat) | CYield (t : nat) | CResume (t : nat)
| CSynchronize | CSynchronizeWait | CDesynchronize.

Definition run (c : call) (s : state) : outcome :=
  match c with
  | CJoin t => join t s
  | CLeave t => leave t s
  | CYield t => yield t s
  | CResume t => yield_resume t s
  | CSynchronize => synchronize s
  | CSynchronizeWait => synchronize_wait s
  | CDesynchronize => desynchronize s
  end.

(** One step of the system: a call that runs to its end. *)
Inductive step : state -> state -> Prop :=
| step_call c s s' : run c s = Done s' -> step s s'.

Inductive reachable (n : nat) : state -> Prop :=
| reach_init : reachable n (init n)
| reach_step s s' : reachable n s -> step s s' -> reachable n s'.

(** How many threads are in the set, and how many of them are parked. *)
Definition same_state (x y : thread_state) : bool :=
  match x, y with
  | Outside, Outside | Running, Running | Parked, Parked => true
  | _, _ => false
  end.

Fixpoint count (x : thread_state) (l : list thread_state) : Z :=
  match l with
  | [] => 0
  | y :: l' => (if same_state y x then 1 else 0) + count x l'
  end.

Definition joined (s : state) : Z := count Running (threads s) + count Parked (threads s).
Definition parked (s : state) : Z := count Parked (threads s).

(** A run of calls from a state; [None] when one of them blocks or
    aborts. *)
Fixpoint run_all (cs : list call) (s : state) : option state :=
  match cs with
  | [] => Some s
  | c :: cs' =>
    match run c s with
    | Done s' => run_all cs' s'
    | _ => None
    end
  end.

End STS.

(** * The vocabulary of the statements

    Predicates the theorems are stated with, the invariants their proofs
    keep, and small concrete configurations to run the definitions on. *)

Module BOTSpec.
Import BOT.

Section Predicates.
Context `{BOTConstants} `{HeapView}.

Fixpoint contiguous (from : Z) (blocks : list (Z * Z)) : Prop :=
  match blocks with
  | [] => True
  | (s, e) :: rest => s = from /\ s < e /\ contiguous e rest
  end.

Fixpoint last_end (from : Z) (blocks : list (Z * Z)) : Z :=
  match blocks with
  | [] => from
  | (_, e) :: rest => last_end e rest
  end.

(** Blocks in increasing order that do not overlap, as the claim has
    them: each starts at or after the end of the one before. *)
Fixpoint separated (from : Z) (blocks : list (Z * Z)) : Prop :=
  match blocks with
  | [] => True
  | (s, e) :: rest => from <= s /\ s < e /\ separated e rest
  end.

(** The space a part covers sits on a card boundary inside the reserved
    heap, away from [NULL], and is short enough for the codes to reach
    across it. *)
Definition space_ok (sp : Space) : Prop :=
  address_for_index (index_for (bottom sp)) = bottom sp /\
  0 < bottom sp /\ reserved_start <= bottom sp /\ end_ sp <= reserved_end /\
  top sp <= end_ sp /\
  end_ sp - bottom sp <= N_words * power_to_cards_back N_powers.

(** Every block is one object in the heap, with its klass set. *)
Definition heap_agrees (blocks : list (Z * Z)) : Prop :=
  forall s e, In (s, e) blocks -> obj_size s = e - s /\ klass_or_null_acquire s = true.

(** The cards [start_card..end_card] carry the logarithmic codes of a
    block whose offset card is [start_card - 1]: code [i] on the cards
    whose distance from the offset card lies between [Base^i] and
    [Base^(i+1) - 1]. *)
Definition stamped (T : table) (start_card end_card : Z) : Prop :=
  forall c, start_card <= c <= end_card ->
    exists i, 0 <= i < N_powers /\ T c = N_words + i /\
      power_to_cards_back i <= c - (start_card - 1) < power_to_cards_back (i + 1).

(** What the entry of card [c] says about the block that covers the
    first word of the card: it is the distance back to the block's
    start, or a skip of at least one card that stays inside the region
    and inside the block, onto a card whose entry is no larger. *)
Definition entry_ok (blocks : list (Z * Z)) (T : table) (bottom_card c : Z) : Prop :=
  exists s e, In (s, e) blocks /\ s <= address_for_index c < e /\
    ((T c < N_words /\ address_for_index c - T c = s) \/
     (N_words <= T c /\ 1 <= entry_to_cards_back (T c) /\
      bottom_card <= c - entry_to_cards_back (T c) /\
      s <= address_for_index (c - entry_to_cards_back (T c)) /\
      T (c - entry_to_cards_back (T c)) <= T c)).

Definition part_inv (sp : Space) (blocks : list (Z * Z)) (P : Part) : Prop :=
  next_offset_threshold P = address_for_index (next_offset_index P) /\
  index_for (bottom sp) < next_offset_index P /\
  next_offset_threshold P - N_words <= last_end (bottom sp) blocks <= next_offset_threshold P /\
  bot P (index_for (bottom sp)) = 0 /\
  forall c, index_for (bottom sp) < c < next_offset_index P ->
    entry_ok blocks (bot P) (index_for (bottom sp)) c.

End Predicates.

(** A small configuration: cards of 64 words, codes in base 8 as in the
    comment of [set_remainder_to_point_to_start], 14 codes, a heap
    reserved from word 4096 on. *)
Definition example_constants : BOTConstants :=
  {| LogN_words := 6; LogBase := 3; N_powers := 14;
     reserved_start := 4096; reserved_end := 69632 |}.

(** A space of 1024 words from 4096 on, with three blocks allocated back
    to back up to [top] = 5000: one of 100 words, one of 10 words inside
    the second card, and one of 794 words that runs over 13 cards. *)
Definition example_space : Space := mkSpace 4096 5000 5120.

Definition example_blocks : list (Z * Z) := [(4096, 4196); (4196, 4206); (4206, 5000)].

Definition example_view : HeapView :=
  {| obj_size := fun a =>
       if a =? 4096 then 100 else if a =? 4196 then 10 else if a =? 4206 then 794 else 0;
     klass_or_null_acquire := fun _ => true |}.

Definition example_part : Part := mkPart (fun _ => 0) 0 0.

Definition gap_blocks : list (Z * Z) := [(4096, 4106); (4300, 4400)].

End BOTSpec.

Module RegionSpec.
Import BOT Region BOTSpec.

(** What an allocation request [(min, desired)] may do to a region whose
    [top] is [t]: fail and change nothing, or hand out [t] and move [top]
    on. *)
Definition alloc_post (t min_word_size desired_word_size : Z) (r0 : HeapRegion)
    (out : option (Z * Z)) (r' : HeapRegion) : Prop :=
  (end_ r0 - t < min_word_size /\ out = None /\ r' = set_top t r0) \/
  (min_word_size <= end_ r0 - t /\
   exists actual, actual = Z.min (end_ r0 - t) desired_word_size /\
     out = Some (t, actual) /\ r' = set_top (t + actual) r0 /\
     min_word_size <= actual <= desired_word_size).

Definition quiet (sched : list (interference * interference)) : Prop :=
  Forall (fun p => p = (None, None)) sched.

Section Clearing.
Context `{BOTConstants}.

Definition card_aligned (p : Z) : Prop := address_for_index (index_for p) = p.

(** What [hr_clear] leaves behind. *)
Definition cleared (keep_remset clear_space : bool) (r r' : HeapRegion) : Prop :=
  bottom r' = bottom r /\
  top r' = (if clear_space then bottom r else top r) /\
  prev_marked_bytes r' = 0 /\ next_marked_bytes r' = 0 /\
  prev_top_at_mark_start r' = bottom r /\ next_top_at_mark_start r' = bottom r /\
  rem_set r' = (if keep_remset then rem_set r else []) /\
  type r' = FreeTag.

End Clearing.

(** The tracer received exactly one more event, taken from the region as
    it was before the call, and the region has the new type. *)
Definition traced_then_set (to : TraceType) (t' : HeapRegionType) (r r' : HeapRegion)
    : Prop :=
  tracer r' = tracer r ++ [mkEvent (hrm_index r) (get_trace_type r) to (bottom r) (used r)] /\
  type r' = t'.

(** How a call that may abort relates the region before and after: it
    returns a region in the relation, or it aborts. *)
Definition returns_with (P : HeapRegion -> Prop) (c : res HeapRegion) : Prop :=
  match c with
  | Ret r' => P r'
  | Fatal => True
  | Timeout => False
  end.

(** What [move_to_old] does with a relabel function: the type is
    relabelled first, and an event follows only when the relabel says it
    changed something; the event is taken from the region after the
    relabel. *)
Definition relabelled_then_traced (relabel : HeapRegionType -> bool * HeapRegionType)
    (r r' : HeapRegion) : Prop :=
  type r' = snd (relabel (type r)) /\
  tracer r' =
    tracer r ++
    (if fst (relabel (type r))
     then [mkEvent (hrm_index r) (get_trace_type_of (snd (relabel (type r)))) TOld
             (bottom r) (used r)]
     else []).

(** An old region of 1024 words from 4096 on with 100 words in use. *)
Definition example_region : HeapRegion :=
  mkRegion 0 4096 4196 5120 4096 0 OldTag None false false (-1) None (-1) 0
    [4100; 4150] 320 128 4150 4120 example_part [].

(** Two regions to relabel: one old already, one survivor. *)
Definition old_region : HeapRegion := example_region.

Definition survivor_region : HeapRegion := set_type SurvTag example_region.

End RegionSpec.

Module CompactSpec.
Import Region Compact RegionSpec.

Section Predicates.
Context `{ObjectModel}.

(** How the live objects [(address, size)] of a region lie between a
    scan position and the scan limit, as the bitmap shows them: in
    address order, each one marked at its first word, none overlapping
    the next, and no mark between them. *)
Inductive live_layout (bm : bitmap) (limit : Z) : Z -> list (Z * Z) -> Prop :=
| layout_nil next :
    next <= limit ->
    (forall x, next <= x < limit -> bm x = false) ->
    live_layout bm limit next []
| layout_cons next a sz rest :
    next <= a -> 0 < sz -> a + sz <= limit ->
    bm a = true ->
    (forall x, next <= x < a -> bm x = false) ->
    live_layout bm limit (a + sz) rest ->
    live_layout bm limit next ((a, sz) :: rest).

(** The closure applied to the objects of a list in turn, each time
    answering the size the list has for the object. *)
Inductive runs {S : Type} (closure : Z -> S -> res (Z * S))
    : list (Z * Z) -> S -> S -> Prop :=
| runs_nil s : runs closure [] s s
| runs_cons a sz rest s s1 s' :
    closure a s = Ret (sz, s1) -> runs closure rest s1 s' ->
    runs closure ((a, sz) :: rest) s s'.

(** Objects in address order from [next] on, each of at least the two
    header words. *)
Fixpoint ascending (next : Z) (live : list (Z * Z)) : Prop :=
  match live with
  | [] => True
  | (a, sz) :: rest => next <= a /\ 2 <= sz /\ ascending (a + sz) rest
  end.

Fixpoint sum_sizes (live : list (Z * Z)) : Z :=
  match live with
  | [] => 0
  | (_, sz) :: rest => sz + sum_sizes rest
  end.

(** Where sliding the objects down to [cursor] puts them. *)
Fixpoint relocate (cursor : Z) (live : list (Z * Z)) : list (Z * Z) :=
  match live with
  | [] => []
  | (_, sz) :: rest => (cursor, sz) :: relocate (cursor + sz) rest
  end.

(** The reference fields of an object lie behind its header and inside
    its body. *)
Definition fields_inside (h : mem) (o : Z * Z) : Prop :=
  size h (fst o) = snd o /\
  Forall (fun off => 2 <= off < snd o) (klass_oop_offsets (klass h (fst o))).

(** Inside the body of one of the objects, behind its header. *)
Definition in_body (live : list (Z * Z)) (x : Z) : Prop :=
  exists a sz, In (a, sz) live /\ a + 2 <= x < a + sz.

(** A live object as phases 1 to 3 expect it: the size its klass word
    gives, a klass word that is set, at least the two header words, and
    reference fields behind the header. *)
Definition well_formed (h : mem) (o : Z * Z) : Prop :=
  fields_inside h o /\ klass h (fst o) <> 0 /\ 2 <= snd o.

(** After phase 1 every object holds its destination as forwarding
    value, or none when it stays where it is. *)
Fixpoint forwarded (cursor : Z) (live : list (Z * Z)) (h : mem) : Prop :=
  match live with
  | [] => True
  | (a, sz) :: rest =>
    forwardee h a = (if a =? cursor then 0 else cursor) /\ forwarded (cursor + sz) rest h
  end.

(** Before phase 3 every object still to be copied holds its destination
    and its klass word. *)
Fixpoint intact (cursor : Z) (live : list (Z * Z)) (h : mem) : Prop :=
  match live with
  | [] => True
  | (a, sz) :: rest =>
    forwardee h a = (if a =? cursor then 0 else cursor) /\
    size h a = sz /\ klass h a <> 0 /\
    intact (cursor + sz) rest h
  end.

(** After phase 3 the words of each object behind the mark word are at
    its destination. *)
Fixpoint moved (cursor : Z) (live : list (Z * Z)) (h h' : mem) : Prop :=
  match live with
  | [] => True
  | (a, sz) :: rest =>
    (forall k, 1 <= k < sz -> h' (cursor + k) = h (a + k)) /\
    moved (cursor + sz) rest h h'
  end.

End Predicates.

(** A klass word is the size of its instances; instances of three words
    or more have one reference field, behind the header.  A mark word
    holds a pointer as four times the pointer plus three; the fresh
    mark word is 1. *)
Definition example_model : ObjectModel :=
  {| klass_size := fun k => k;
     klass_oop_offsets := fun k => if 3 <=? k then [2] else [];
     encode_pointer_as_mark := fun p => 4 * p + 3;
     decode_pointer := fun m => if m mod 4 =? 3 then m / 4 else 0;
     prototype := 1 |}.

(** Two live objects, of 3 words at 4100 and of 4 words at 4110, each
    with a reference to the other; nothing else is marked. *)
Definition example_live : list (Z * Z) := [(4100, 3); (4110, 4)].

Definition example_bitmap : bitmap := fun x => (x =? 4100) || (x =? 4110).

Definition example_heap : mem := fun x =>
  if x =? 4100 then 1 else if x =? 4101 then 3 else if x =? 4102 then 4110
  else if x =? 4110 then 1 else if x =? 4111 then 4 else if x =? 4112 then 4100
  else 0.




End CompactSpec.

Module STSSpec.
Import STS.

Definition indicator (x y : thread_state) : Z := if same_state x y then 1 else 0.

(** The invariant of the protocol. *)
Definition invariant (s : state) : Prop :=
  nthreads s = joined s /\
  nthreads_stopped s = parked s /\
  0 <= signals s <= 1 /\
  match vm s with
  | VMIdle => suspend_all s = false /\ synchronize_wakeup s = 0
  | VMWaiting =>
    suspend_all s = true /\ signals s = synchronize_wakeup s /\
    ((synchronize_wakeup s = 1 /\ nthreads_stopped s = nthreads s) \/
     (synchronize_wakeup s = 0 /\ nthreads_stopped s < nthreads s))
  | VMSynchronized =>
    suspend_all s = true /\ synchronize_wakeup s = 0 /\
    nthreads_stopped s = nthreads s
  end.

(** Two threads join, the VM thread asks for synchronisation, the first
    thread yields and the second leaves: the leave completes the request
    and gives the one signal. *)
Definition example_calls : list call :=
  [CJoin 0%nat; CJoin 1%nat; CSynchronize; CYield 0%nat; CLeave 1%nat].

Definition example_state : state :=
  mkState 1 1 true 1 [Parked; Outside] VMWaiting 1.

(** One thread joins and is stopped by a first request; the request is
    withdrawn and a second one made before the thread has come back from
    its wait. *)
Definition lingering_calls : list call :=
  [CJoin 0%nat; CSynchronize; CYield 0%nat; CSynchronizeWait; CDesynchronize; CSynchronize].

End STSSpec.

(** ** Further operations of the region *)

Module RegionMore.
Import BOT Region.

Definition set_marking (pmb nmb ptams ntams : Z) (r : HeapRegion) : HeapRegion :=
  mkRegion (hrm_index r) (bottom r) (top r) (end_ r) (compaction_top r) (saved_mark_word r)
    (type r) (humongous_start_region r) (object_can_span r) (in_cset r)
    (young_index_in_cset r) (surv_rate_group r) (age_index r) (pre_dummy_top r)
    (rem_set r) pmb nmb ptams ntams (bot_part r) (tracer r).

(** SemeruHeapRegion.inline.hpp:617 *)
Definition note_start_of_marking (r : HeapRegion) : HeapRegion :=
  set_marking (prev_marked_bytes r) 0 (prev_top_at_mark_start r) (top r) r.

(** SemeruHeapRegion.inline.hpp:622 *)
Definition note_end_of_marking (r : HeapRegion) : HeapRegion :=
  set_marking (next_marked_bytes r) 0 (next_top_at_mark_start r) (bottom r) r.

(** [add_to_marked_bytes(incr_bytes)] of the marking threads, declared
    in SemeruHeapRegion.hpp. *)
Definition add_to_marked_bytes (incr_bytes : Z) (r : HeapRegion) : HeapRegion :=
  set_marking (prev_marked_bytes r) (next_marked_bytes r + incr_bytes)
    (prev_top_at_mark_start r) (next_top_at_mark_start r) r.

(** heapRegion.cpp:307 *)
Definition note_self_forwarding_removal_start (during_initial_mark during_conc_mark : bool)
    (r : HeapRegion) : HeapRegion :=
  let r := set_marking 0 (next_marked_bytes r) (prev_top_at_mark_start r)
             (next_top_at_mark_start r) r in
  if during_initial_mark then
    set_marking (prev_marked_bytes r) 0 (prev_top_at_mark_start r) (top r) r
  else if during_conc_mark then
    set_marking (prev_marked_bytes r) 0 (prev_top_at_mark_start r) (bottom r) r
  else r.

(** heapRegion.cpp:329 *)
Definition note_self_forwarding_removal_end (marked_bytes : Z) (r : HeapRegion)
    : res HeapRegion :=
  assert (marked_bytes <=? used r) ;;
  Ret (set_marking marked_bytes (next_marked_bytes r) (top r)
         (next_top_at_mark_start r) r).

(** [capacity()]: the bytes between [bottom] and [end]. *)
Definition capacity (r : HeapRegion) : Z := (end_ r - bottom r) * HeapWordSize.

(** heapRegion.cpp:243; [GrainBytes] is the region size fixed at start-up. *)
Definition clear_humongous (GrainBytes : Z) (r : HeapRegion) : res HeapRegion :=
  assert (is_humongous r) ;;
  assert (capacity r =? GrainBytes) ;;
  let r := set_humongous_start_region None r in
  Ret (set_object_can_span false r).

Section WithBOT.
Context `{BOTConstants}.

(** SemeruHeapRegion.inline.hpp:431, [allocate(min_word_size,
    desired_word_size, actual_size)]: the table is told of the block
    handed out, through [alloc_block(res, *actual_size)]. *)
Definition allocate (min_word_size desired_word_size : Z) (r : HeapRegion)
    : res (option (Z * Z) * HeapRegion) :=
  let '(res, r) := allocate_impl min_word_size desired_word_size r in
  match res with
  | Some (obj, actual_size) =>
    P ← alloc_block (space_of r) obj (obj + actual_size) (bot_part r);
    Ret (res, set_bot_part P r)
  | None => Ret (res, r)
  end.

(** SemeruHeapRegion.inline.hpp:454, [par_allocate(min_word_size,
    desired_word_size, actual_size)]: [allocate] under
    [_par_alloc_lock], so one call at a time. *)
Definition par_allocate (min_word_size desired_word_size : Z) (r : HeapRegion)
    : res (option (Z * Z) * HeapRegion) :=
  allocate min_word_size desired_word_size r.

(** SemeruHeapRegion.inline.hpp:610 *)
Definition allocate_no_bot_updates (min_word_size desired_word_size : Z) (r : HeapRegion)
    : res (option (Z * Z) * HeapRegion) :=
  assert (is_young r) ;;
  Ret (allocate_impl min_word_size desired_word_size r).

(** SemeruHeapRegion.inline.hpp:598 *)
Definition par_allocate_no_bot_updates (sched : list (interference * interference))
    (min_word_size desired_word_size : Z) (r : HeapRegion)
    : res (option (Z * Z) * HeapRegion) :=
  assert (is_young r) ;;
  par_allocate_impl sched min_word_size desired_word_size r.

(** heapRegion.cpp:990, [cross_threshold(start, end)]: the block is
    recorded and the threshold of the part is the answer. *)
Definition cross_threshold (start end' : Z) (r : HeapRegion) : res (Z * HeapRegion) :=
  P ← alloc_block (space_of r) start end' (bot_part r);
  Ret (next_offset_threshold P, set_bot_part P r).

(** A run of [allocate] requests [(min_word_size, desired_word_size)],
    with the answers in order. *)
Fixpoint allocates (reqs : list (Z * Z)) (r : HeapRegion)
    : res (list (option (Z * Z)) * HeapRegion) :=
  match reqs with
  | [] => Ret ([], r)
  | (min_word_size, desired_word_size) :: rest =>
    '(out, r1) ← allocate min_word_size desired_word_size r;
    '(outs, r2) ← allocates rest r1;
    Ret (out :: outs, r2)
  end.

End WithBOT.

(** *** The region size at start-up *)

(** The globals [setup_heap_region_size] sets, and the flag
    [G1HeapRegionSize]. *)
Record RegionSizes := mkSizes {
  LogOfHRGrainBytes : Z;
  LogOfHRGrainWords : Z;
  GrainBytes : Z;
  GrainWords : Z;
  CardsPerRegion : Z;
  G1HeapRegionSize : Z
}.

Section Setup.

(** [HeapRegionBounds::min_size()], [HeapRegionBounds::target_number()],
    [LogHeapWordSize] and [G1CardTable::card_shift] are defined outside
    the sources at hand. *)
Variable min_size : Z.
Variable target_number : Z.
Variable LogHeapWordSize : Z.
Variable card_shift : Z.

(** [size_t] arithmetic. *)
Definition size_t (x : Z) : Z := x mod 2 ^ 64.

(** [log2_long(x)] (globalDefinitions.hpp): the position of the highest
    bit set, [-1] for zero. *)
Definition log2_long (x : Z) : Z := if x =? 0 then -1 else Z.log2 x.

(** heapRegion.cpp:64.  [flag_is_default] is
    [FLAG_IS_DEFAULT(G1HeapRegionSize)]. *)
Definition setup_heap_region_size (flag_is_default : bool)
    (initial_heap_size max_heap_size : Z) (g : RegionSizes) : res RegionSizes :=
  let region_size := G1HeapRegionSize g in
  let region_size :=
    if flag_is_default then
      let average_heap_size := size_t (initial_heap_size + max_heap_size) / 2 in
      Z.max (average_heap_size / target_number) min_size
    else region_size in
  let region_size_log := log2_long region_size in
  let region_size := size_t (Z.shiftl 1 region_size_log) in
  let region_size := if region_size <? min_size then min_size else region_size in
  let region_size_log := log2_long region_size in
  guarantee (LogOfHRGrainBytes g =? 0) ;;
  let g := mkSizes region_size_log (LogOfHRGrainWords g) (GrainBytes g) (GrainWords g)
             (CardsPerRegion g) (G1HeapRegionSize g) in
  guarantee (LogOfHRGrainWords g =? 0) ;;
  let g := mkSizes (LogOfHRGrainBytes g) (LogOfHRGrainBytes g - LogHeapWordSize)
             (GrainBytes g) (GrainWords g) (CardsPerRegion g) (G1HeapRegionSize g) in
  guarantee (GrainBytes g =? 0) ;;
  let g := mkSizes (LogOfHRGrainBytes g) (LogOfHRGrainWords g) region_size (GrainWords g)
             (CardsPerRegion g) (G1HeapRegionSize g) in
  guarantee (GrainWords g =? 0) ;;
  let g := mkSizes (LogOfHRGrainBytes g) (LogOfHRGrainWords g) (GrainBytes g)
             (Z.shiftr (GrainBytes g) LogHeapWordSize)
             (CardsPerRegion g) (G1HeapRegionSize g) in
  guarantee (size_t (Z.shiftl 1 (LogOfHRGrainWords g)) =? GrainWords g) ;;
  guarantee (CardsPerRegion g =? 0) ;;
  let g := mkSizes (LogOfHRGrainBytes g) (LogOfHRGrainWords g) (GrainBytes g)
             (GrainWords g) (Z.shiftr (GrainBytes g) card_shift) (G1HeapRegionSize g) in
  if negb (G1HeapRegionSize g =? GrainBytes g) then
    Ret (mkSizes (LogOfHRGrainBytes g) (LogOfHRGrainWords g) (GrainBytes g)
           (GrainWords g) (CardsPerRegion g) (GrainBytes g))
  else Ret g.

End Setup.

End RegionMore.

(** ** Marking state of a region and liveness of its objects *)

Module Liveness.
Import Region Compact RegionMore.

(** [obj_allocated_since_prev_marking(obj)], declared in
    SemeruHeapRegion.hpp: the object lies at or above the previous
    top-at-mark-start. *)
Definition obj_allocated_since_prev_marking (r : HeapRegion) (obj : Z) : bool :=
  prev_top_at_mark_start r <=? obj.

Definition is_open_archive (r : HeapRegion) : bool :=
  match type r with OpenArchiveTag => true | _ => false end.

(** SemeruHeapRegion.inline.hpp:517 *)
Definition is_obj_dead (r : HeapRegion) (obj : Z) (prev_bitmap : bitmap) : res bool :=
  assert (is_in_reserved r obj) ;;
  Ret (negb (obj_allocated_since_prev_marking r obj)
       && negb (is_marked prev_bitmap obj)
       && negb (is_open_archive r)).

End Liveness.

(** ** The optional part of the collection set: g1CollectionSet.hpp *)

Module CollectionSet.

(** [_optional_regions] and [_optional_region_length]; a slot holds a
    region index or [NULL]; the array itself is [NULL] until
    [initialize_optional] has run. *)
Record G1CollectionSet := mkCSet {
  optional_regions : option (list (option Z));
  optional_region_length : Z
}.

(** g1CollectionSet.hpp:232 *)
Definition optional_region_at (i : Z) (cs : G1CollectionSet) : res (option Z) :=
  match optional_regions cs with
  | None => Fatal
  | Some arr =>
    assert (i <? optional_region_length cs) ;;
    match arr !! Z.to_nat i with
    | Some slot => Ret slot
    | None => Fatal
    end
  end.

(** g1CollectionSet.hpp:238 *)
Definition remove_last_optional_region (cs : G1CollectionSet)
    : res (option Z * G1CollectionSet) :=
  match optional_regions cs with
  | None => Fatal
  | Some arr =>
    assert (negb (optional_region_length cs =? 0)) ;;
    let len := optional_region_length cs - 1 in
    match arr !! Z.to_nat len with
    | Some removed =>
      Ret (removed, mkCSet (Some (<[Z.to_nat len := None]> arr)) len)
    | None => Fatal
    end
  end.

End CollectionSet.

(** ** The lookup with the checks of a debug build *)

Module BOTChecked.
Import BOT.

Section Table.
Context `{BOTConstants} `{HeapView}.

(** g1SemeruBlockOffsetTable.cpp:60, with its assert
    [p >= _reserved.start()]. *)
Definition is_card_boundary (p : Z) : res bool :=
  assert (reserved_start <=? p) ;;
  Ret (BOT.is_card_boundary p).

(** g1SemeruBlockOffsetTable.cpp:219, with the assert of lines 235-238
    that the first boundary lies within the reserved heap; the loops are
    those of [BOT.forward_to_block_containing_addr_slow]. *)
Definition forward_to_block_containing_addr_slow (fuel : nat) (sp : Space)
    (q n addr : Z) (T : table) : res (Z * table) :=
  let n_index := index_for n in
  b ← is_card_boundary n;
  let next_index := index_for n + (if (b : bool) then 0 else 1) in
  let next_boundary :=
    address_for_index n_index + (if n_index =? next_index then 0 else N_words) in
  assert (next_boundary <=? reserved_end) ;;
  if top sp <=? addr then Ret (top sp, T)
  else
    '(r, T') ← slow_outer_loop fuel sp q n next_boundary next_index addr T;
    match r with
    | inl q' => Ret (q', T')
    | inr (q', n') =>
      q'' ← forward_to_block_containing_addr_const fuel sp q' n' addr;
      Ret (q'', T')
    end.

(** Modelled from the spec: [forward_to_block_containing_addr] and
    [block_start] as in [BOT], over the slow path above. *)
Definition forward_to_block_containing_addr (fuel : nat) (sp : Space) (q addr : Z)
    (T : table) : res (Z * table) :=
  if negb (klass_or_null_acquire q) then Ret (q, T)
  else
    let n := q + block_size sp q in
    '(q', T') ← (if n <=? addr
                  then forward_to_block_containing_addr_slow fuel sp q n addr T
                  else Ret (q, T));
    assert (q' <=? addr) ;;
    Ret (q', T').

Definition block_start (fuel : nat) (sp : Space) (addr : Z) (P : Part) : res (Z * Part) :=
  if (bottom sp <=? addr) && (addr <? end_ sp) then
    q ← block_at_or_preceding fuel (bot P) addr true (next_offset_index P - 1);
    '(q', T') ← forward_to_block_containing_addr fuel sp q addr (bot P);
    Ret (q', mkPart T' (next_offset_threshold P) (next_offset_index P))
  else Ret (0, P).

End Table.
End BOTChecked.

(** * More vocabulary: configurations for the further properties *)

Module BOTMoreSpec.
Import BOT BOTSpec.

(** A humongous object of 804 words from 4096 on, followed by a filler
    object of 100 words up to [top] = 5000 of [example_space]. *)
Definition humongous_view : HeapView :=
  {| obj_size := fun a => if a =? 4096 then 804 else 100;
     klass_or_null_acquire := fun _ => true |}.

(** An offset array that holds zero everywhere. *)
Definition zero_table : table := fun _ => 0.

End BOTMoreSpec.

Module RegionMoreSpec.
Import BOT Region BOTSpec RegionSpec RegionMore.

(** The blocks [(start, end)] handed out by a run of requests, in order. *)
Definition granted (outs : list (option (Z * Z))) : list (Z * Z) :=
  flat_map (fun out => match out with
                       | Some (obj, actual_size) => [(obj, obj + actual_size)]
                       | None => []
                       end) outs.

(** What a run of [allocate] calls keeps true of a region: the table
    describes the blocks handed out so far, which lie back to back from
    [bottom] up to [top]. *)
Definition in_step `{BOTConstants} (blocks : list (Z * Z)) (r : HeapRegion) : Prop :=
  space_ok (space_of r) /\
  part_inv (space_of r) blocks (bot_part r) /\
  contiguous (Region.bottom r) blocks /\
  last_end (Region.bottom r) blocks = Region.top r.

(** An empty region of 1024 words from 4096 on. *)
Definition empty_region : HeapRegion :=
  mkRegion 0 4096 4096 5120 4096 0 FreeTag None false false (-1) None (-1) 0
    [] 0 0 4096 4096 example_part [].

(** Three requests: 100 words, between 10 and 2000 words, and 50 words
    when the region is full. *)
Definition example_requests : list (Z * Z) := [(100, 100); (10, 2000); (50, 50)].

End RegionMoreSpec.

Module CollectionSetSpec.
Import CollectionSet.

(** [remove_last_optional_region] called [n] times, with the regions it
    answered, first answer first. *)
Fixpoint remove_all (n : nat) (cs : G1CollectionSet)
    : res (list (option Z) * G1CollectionSet) :=
  match n with
  | O => Ret ([], cs)
  | S n' =>
    '(removed, cs1) ← remove_last_optional_region cs;
    '(rest, cs2) ← remove_all n' cs1;
    Ret (removed :: rest, cs2)
  end.

End CollectionSetSpec.

Module CompactMoreSpec.
Import Region Compact BOTSpec RegionSpec CompactSpec.

(** The example heap after phase 1: the object at 4100 is to move to
    4096 and the object at 4110 to 4099. *)
Definition prepared_heap : mem := fun x =>
  if x =? 4100 then 4 * 4096 + 3 else if x =? 4110 then 4 * 4099 + 3 else example_heap x.

(** A closure that answers the sizes of the two example objects and
    keeps the addresses it was applied to, last first. *)
Definition recording_closure (a : Z) (s : list Z) : res (Z * list Z) :=
  Ret (if a =? 4100 then 3 else 4, a :: s).

(** A region that continues the humongous object of region 5. *)
Definition continues_region : HeapRegion :=
  set_type ContinuesHumongousTag (set_humongous_start_region (Some 5) example_region).

End CompactMoreSpec.

(** * Theorems *)

Module BOTFacts.
Import BOT BOTSpec.

Section Arithmetic.
Context `{BOTConstants}.
Hypothesis Hok : constants_ok.

Lemma N_words_pow : N_words = 2 ^ LogN_words.
Proof. unfold N_words. apply Z.shiftl_1_l. Qed.

Lemma N_words_pos : 1 <= N_words.
Proof.
  rewrite N_words_pow. destruct Hok as (H0 & _). clear Hok.
  pose proof (Z.pow_pos_nonneg 2 LogN_words ltac:(lia) H0). lia.
Qed.

Lemma N_words_small : N_words + N_powers <= 256.
Proof. apply Hok. Qed.

Lemma index_for_div p : index_for p = (p - reserved_start) / N_words.
Proof.
  unfold index_for, pointer_delta. rewrite N_words_pow.
  apply Z.shiftr_div_pow2. apply Hok.
Qed.

Lemma address_for_index_mul i : address_for_index i = reserved_start + i * N_words.
Proof.
  unfold address_for_index. rewrite N_words_pow.
  rewrite Z.shiftl_mul_pow2 by apply Hok. reflexivity.
Qed.

Lemma index_for_bounds p :
  address_for_index (index_for p) <= p < address_for_index (index_for p) + N_words.
Proof.
  rewrite address_for_index_mul, index_for_div.
  pose proof N_words_pos.
  assert (Hpos : 0 < N_words) by lia.
  pose proof (Z.mul_div_le (p - reserved_start) N_words Hpos).
  pose proof (Z.mul_succ_div_gt (p - reserved_start) N_words Hpos). lia.
Qed.

Lemma index_for_unique p i :
  address_for_index i <= p < address_for_index i + N_words -> index_for p = i.
Proof.
  rewrite address_for_index_mul, index_for_div. intros Hp.
  pose proof N_words_pos.
  symmetry. apply Z.div_unique with (p - reserved_start - i * N_words); lia.
Qed.

Lemma index_for_address i : index_for (address_for_index i) = i.
Proof. apply index_for_unique. pose proof N_words_pos. lia. Qed.

Lemma address_for_index_mono i j :
  i <= j -> address_for_index i <= address_for_index j.
Proof. rewrite !address_for_index_mul. pose proof N_words_pos. nia. Qed.

Lemma address_for_index_lt i j :
  i < j -> address_for_index i + N_words <= address_for_index j.
Proof. rewrite !address_for_index_mul. pose proof N_words_pos. nia. Qed.

Lemma address_for_index_succ i :
  address_for_index (i + 1) = address_for_index i + N_words.
Proof. rewrite !address_for_index_mul. lia. Qed.

Lemma index_for_mono p q : p <= q -> index_for p <= index_for q.
Proof.
  intros Hpq. rewrite !index_for_div. apply Z.div_le_mono; [pose proof N_words_pos|]; lia.
Qed.

Lemma index_for_lt_address p i : p < address_for_index i -> index_for p < i.
Proof.
  intros Hp. pose proof (index_for_bounds p).
  destruct (Z.lt_ge_cases (index_for p) i) as [|Hge]; [assumption|].
  pose proof (address_for_index_mono _ _ Hge). lia.
Qed.

Lemma index_for_ge_address p i : address_for_index i <= p -> i <= index_for p.
Proof.
  intros Hp. pose proof (index_for_bounds p).
  destruct (Z.le_gt_cases i (index_for p)) as [|Hlt]; [assumption|].
  pose proof (address_for_index_lt _ _ Hlt). lia.
Qed.

(** The skips. *)
Lemma power_to_cards_back_pow i : 0 <= i -> power_to_cards_back i = 2 ^ (LogBase * i).
Proof. intros. unfold power_to_cards_back. apply Z.shiftl_1_l. Qed.

Lemma power_to_cards_back_0 : power_to_cards_back 0 = 1.
Proof. unfold power_to_cards_back. rewrite Z.mul_0_r. reflexivity. Qed.

Lemma power_to_cards_back_pos i : 0 <= i -> 1 <= power_to_cards_back i.
Proof.
  intros Hi. rewrite power_to_cards_back_pow by assumption.
  destruct Hok as (_ & HB & _). clear Hok.
  assert (Hnn : 0 <= LogBase * i) by (apply Z.mul_nonneg_nonneg; lia).
  pose proof (Z.pow_pos_nonneg 2 (LogBase * i) ltac:(lia) Hnn). lia.
Qed.

Lemma power_to_cards_back_succ i :
  0 <= i -> 2 * power_to_cards_back i <= power_to_cards_back (i + 1).
Proof.
  intros Hi. rewrite !power_to_cards_back_pow by lia.
  destruct Hok as (_ & HB & _). clear Hok.
  assert (Hnn : 0 <= LogBase * i) by (apply Z.mul_nonneg_nonneg; lia).
  replace (LogBase * (i + 1)) with (LogBase * i + LogBase) by ring.
  rewrite Z.pow_add_r by (assumption || lia).
  pose proof (Z.pow_pos_nonneg 2 (LogBase * i) ltac:(lia) Hnn) as Hp.
  assert (Hb : 2 ^ 1 <= 2 ^ LogBase) by (apply Z.pow_le_mono_r; lia).
  change (2 ^ 1) with 2 in Hb.
  remember (2 ^ (LogBase * i)) as x. remember (2 ^ LogBase) as b.
  clear Heqx Heqb Hnn. nia.
Qed.

Lemma power_to_cards_back_mono i j :
  0 <= i -> i <= j -> power_to_cards_back i <= power_to_cards_back j.
Proof.
  intros Hi Hij. rewrite !power_to_cards_back_pow by lia.
  destruct Hok as (_ & HB & _). clear Hok. apply Z.pow_le_mono_r; [lia|].
  apply Z.mul_le_mono_nonneg_l; lia.
Qed.

Lemma power_to_cards_back_lt i j :
  0 <= i -> 0 <= j -> power_to_cards_back j < power_to_cards_back (i + 1) -> j <= i.
Proof.
  intros Hi Hj Hlt. destruct (Z.le_gt_cases j i) as [|Hgt]; [assumption|].
  pose proof (power_to_cards_back_mono (i + 1) j ltac:(lia) ltac:(lia)). lia.
Qed.

Lemma u_char_small x : 0 <= x < 256 -> u_char x = x.
Proof. intros. unfold u_char. apply Z.mod_small. assumption. Qed.

Lemma in_cards c from to : In c (cards from to) <-> from <= c <= to.
Proof.
  unfold cards. rewrite in_map_iff. split.
  - intros (k & <- & Hk). apply in_seq in Hk. lia.
  - intros Hc. exists (Z.to_nat (c - from)). split; [lia|]. apply in_seq. lia.
Qed.

(** *** Stamping *)

Lemma set_remainder_loop_spec (n : nat) :
  forall i start_card end_card scfr T,
    0 <= i -> Z.of_nat n + i = N_powers ->
    scfr = start_card - 1 + power_to_cards_back i ->
    scfr <= end_card ->
    end_card - (start_card - 1) < power_to_cards_back N_powers ->
    end_card < snd (set_remainder_loop n i start_card end_card scfr T) /\
    (forall c, scfr <= c <= end_card ->
       exists j, i <= j < N_powers /\
         fst (set_remainder_loop n i start_card end_card scfr T) c = N_words + j /\
         power_to_cards_back j <= c - (start_card - 1) < power_to_cards_back (j + 1)) /\
    (forall c, ~ (scfr <= c <= end_card) ->
       fst (set_remainder_loop n i start_card end_card scfr T) c = T c).
Proof.
  pose proof N_words_pos as HN. pose proof N_words_small as HS.
  induction n as [|n IH]; intros i start_card end_card scfr T Hi Hn Hscfr Hle Hbound.
  - assert (Hi' : i = N_powers) by lia. rewrite Hi' in *. lia.
  - cbn [set_remainder_loop].
    pose proof (power_to_cards_back_succ i Hi) as Hsucc.
    pose proof (power_to_cards_back_pos i Hi) as Hpos.
    assert (Hu : u_char (N_words + i) = N_words + i) by (apply u_char_small; lia).
    destruct (Z.leb_spec end_card (start_card - 1 + (power_to_cards_back (i + 1) - 1)))
      as [Hbrk|Hgo]; cbn [fst snd].
    + split; [lia|]. unfold set_offset_array_range. split.
      * intros c Hc. exists i. split; [lia|].
        destruct (Z.leb_spec scfr c); [|lia]. destruct (Z.leb_spec c end_card); [|lia].
        cbn. rewrite u_char_small by (rewrite Hu; lia). rewrite Hu. split; [reflexivity|lia].
      * intros c Hc.
        destruct (Z.leb_spec scfr c); [|reflexivity].
        destruct (Z.leb_spec c end_card); [lia|reflexivity].
    + set (reach := start_card - 1 + (power_to_cards_back (i + 1) - 1)) in *.
      set (T1 := set_offset_array_range scfr reach (u_char (N_words + i)) T).
      destruct (IH (i + 1) start_card end_card (reach + 1) T1) as (Hend & Hst & Hfr);
        try lia.
      split; [exact Hend|]. split.
      * intros c Hc. destruct (Z.le_gt_cases c reach) as [Hin|Hout].
        -- exists i. split; [lia|]. rewrite Hfr by lia.
           subst T1. unfold set_offset_array_range.
           destruct (Z.leb_spec scfr c); [|lia]. destruct (Z.leb_spec c reach); [|lia].
           cbn. rewrite u_char_small by (rewrite Hu; lia). rewrite Hu.
           split; [reflexivity|]. subst reach. lia.
        -- destruct (Hst c ltac:(lia)) as (j & Hj & Hv & Hb). exists j. split; [lia|].
           split; assumption.
      * intros c Hc. rewrite Hfr by lia. subst T1. unfold set_offset_array_range.
        destruct (Z.leb_spec scfr c); [|reflexivity].
        destruct (Z.leb_spec c reach); [lia|reflexivity].
Qed.

Lemma stamped_first T start_card end_card :
  stamped T start_card end_card -> start_card <= end_card -> T start_card = N_words.
Proof.
  intros Hst Hle. destruct (Hst start_card ltac:(lia)) as (i & Hi & Hv & Hb).
  destruct (Z.eq_dec i 0) as [->|Hne]; [lia|].
  pose proof (power_to_cards_back_mono 1 i ltac:(lia) ltac:(lia)) as H1.
  pose proof (power_to_cards_back_succ 0 ltac:(lia)) as H2.
  change (0 + 1) with 1 in H2. rewrite power_to_cards_back_0 in H2. lia.
Qed.

Lemma guarantee_true_seq {A} b (k : res A) : b = true -> (guarantee b ;; k) = k.
Proof. intros ->. reflexivity. Qed.

Lemma assert_true_seq {A} b (k : res A) : b = true -> (assert b ;; k) = k.
Proof. intros ->. reflexivity. Qed.

Lemma check_card_stamped T start_card end_card c :
  stamped T start_card end_card -> T (start_card - 1) <= N_words ->
  start_card < c <= end_card ->
  check_card T start_card c = Ret tt.
Proof.
  intros Hst Hoff Hc. unfold check_card, offset_array.
  destruct (Hst c ltac:(lia)) as (i & Hi & Hv & Hb).
  pose proof (power_to_cards_back_pos i ltac:(lia)) as Hpos.
  assert (Hback : entry_to_cards_back (T c) = power_to_cards_back i).
  { unfold entry_to_cards_back. rewrite Hv. f_equal. lia. }
  rewrite Hback.
  assert (H1 : (if power_to_cards_back 1 <? c - start_card
                then guarantee (N_words <? T c) else Ret tt) = Ret tt).
  { destruct (Z.ltb_spec (power_to_cards_back 1) (c - start_card)); [|reflexivity].
    destruct (Z.eq_dec i 0) as [->|Hne]; [change (0 + 1) with 1 in Hb; lia|].
    destruct (Z.ltb_spec N_words (T c)); [reflexivity|lia]. }
  rewrite H1. cbn [mbind res_bind].
  rewrite guarantee_true_seq by (apply Z.leb_le; lia).
  destruct (Z.leb_spec start_card (c - power_to_cards_back i)) as [Hin|Hout].
  - assert (Hland : start_card <= c - power_to_cards_back i <= end_card) by lia.
    destruct (Hst _ Hland) as (j & Hj & Hvj & Hbj).
    assert (j <= i) by (apply power_to_cards_back_lt; lia).
    unfold guarantee. destruct (Z.leb_spec (T (c - power_to_cards_back i)) (T c));
      [reflexivity|lia].
  - rewrite guarantee_true_seq by (apply Z.eqb_eq; lia).
    replace (c - power_to_cards_back i) with (start_card - 1) by lia.
    unfold guarantee. destruct (Z.leb_spec (T (start_card - 1)) N_words); [reflexivity|lia].
Qed.

Lemma check_cards_all T start_card cs :
  (forall c, In c cs -> check_card T start_card c = Ret tt) ->
  check_cards T start_card cs = Ret tt.
Proof.
  induction cs as [|c cs IH]; intros Hall; cbn; [reflexivity|].
  rewrite (Hall c) by (left; reflexivity). cbn. apply IH. intros; apply Hall; right; assumption.
Qed.

Lemma check_all_cards_stamped T start_card end_card :
  stamped T start_card end_card -> T (start_card - 1) <= N_words ->
  check_all_cards T start_card end_card = Ret tt.
Proof.
  intros Hst Hoff. unfold check_all_cards, offset_array.
  destruct (Z.ltb_spec end_card start_card); [reflexivity|].
  rewrite (stamped_first _ _ _ Hst) by lia. rewrite Z.eqb_refl. cbn.
  apply check_cards_all. intros c Hc. apply in_cards in Hc.
  eapply check_card_stamped; eauto. lia.
Qed.

Lemma set_remainder_incl_spec sp start_card end_card T :
  start_card <= end_card ->
  index_for (bottom sp) < start_card ->
  T (start_card - 1) <= N_words ->
  end_card - (start_card - 1) < power_to_cards_back N_powers ->
  exists T',
    set_remainder_to_point_to_start_incl sp start_card end_card T = Ret T' /\
    stamped T' start_card end_card /\
    (forall c, ~ (start_card <= c <= end_card) -> T' c = T c).
Proof.
  intros Hle Hbot Hoff Hbound. unfold set_remainder_to_point_to_start_incl, offset_array.
  destruct (Z.ltb_spec end_card start_card); [lia|].
  rewrite assert_true_seq by (apply Z.ltb_lt; lia).
  rewrite assert_true_seq by (apply Z.leb_le; lia).
  destruct Hok as (_ & _ & HP & _).
  destruct (set_remainder_loop_spec (Z.to_nat N_powers) 0 start_card end_card start_card T)
    as (Hend & Hst & Hfr); try lia.
  { rewrite power_to_cards_back_0. lia. }
  destruct (set_remainder_loop _ _ _ _ _ _) as [T' scfr]. cbn [fst snd] in *.
  rewrite assert_true_seq by (apply Z.ltb_lt; lia).
  assert (Hstamped : stamped T' start_card end_card).
  { intros c Hc. destruct (Hst c Hc) as (j & Hj & Hv & Hb). exists j. split; [lia|]. auto. }
  rewrite check_all_cards_stamped; [|exact Hstamped|rewrite Hfr by lia; exact Hoff].
  cbn. eauto.
Qed.

Lemma alloc_block_work_spec sp threshold index blk_start blk_end T :
  0 < blk_start -> blk_start < blk_end -> threshold < blk_end ->
  blk_start <= threshold -> threshold - blk_start <= N_words ->
  reserved_start <= blk_start -> blk_end <= reserved_end ->
  threshold = address_for_index index ->
  index_for (bottom sp) <= index ->
  index_for (blk_end - 1) - index < power_to_cards_back N_powers ->
  exists T',
    alloc_block_work sp threshold index blk_start blk_end T
      = Ret (address_for_index (index_for (blk_end - 1)) + N_words,
             index_for (blk_end - 1) + 1, T') /\
    T' index = threshold - blk_start /\
    stamped T' (index + 1) (index_for (blk_end - 1)) /\
    (forall c, ~ (index <= c <= index_for (blk_end - 1)) -> T' c = T c).
Proof.
  intros Hnz Hlt Hcross Hle Hdelta Hres1 Hres2 Hthr Hbot Hbound.
  pose proof N_words_pos as HN. pose proof N_words_small as HS.
  assert (HP : 1 <= N_powers) by apply Hok.
  set (end_index := index_for (blk_end - 1)) in *.
  assert (Hei : index <= end_index).
  { apply index_for_ge_address. lia. }
  pose proof (index_for_bounds (blk_end - 1)) as Hbe. fold end_index in Hbe.
  unfold alloc_block_work, is_in_semeru_reserved, pointer_delta.
  rewrite assert_true_seq
    by (apply andb_true_intro; split; [apply negb_true_iff, Z.eqb_neq|apply Z.ltb_lt]; lia).
  rewrite assert_true_seq by (apply Z.ltb_lt; lia).
  rewrite assert_true_seq by (apply Z.leb_le; lia).
  rewrite assert_true_seq by (apply Z.leb_le; lia).
  rewrite assert_true_seq
    by (apply andb_true_intro; split; [apply Z.leb_le|apply Z.ltb_lt]; lia).
  rewrite assert_true_seq
    by (apply andb_true_intro; split; [apply Z.leb_le|apply Z.ltb_lt]; lia).
  rewrite assert_true_seq by (apply Z.eqb_eq; rewrite Hthr; apply address_for_index_mul).
  fold end_index.
  set (T1 := set_offset_array index threshold blk_start T).
  assert (HT1 : T1 index = threshold - blk_start).
  { subst T1. unfold set_offset_array, set_offset_array_raw, pointer_delta.
    rewrite Z.eqb_refl. apply u_char_small. lia. }
  assert (HT1fr : forall c, c <> index -> T1 c = T c).
  { intros c Hc. subst T1. unfold set_offset_array, set_offset_array_raw.
    destruct (Z.eqb_spec c index); [contradiction|reflexivity]. }
  assert (Hrem : exists T2,
    (if index + 1 <=? end_index
     then set_remainder_to_point_to_start sp (address_for_index (index + 1))
            (address_for_index end_index + N_words) T1
     else Ret T1) = Ret T2 /\
    stamped T2 (index + 1) end_index /\
    (forall c, ~ (index + 1 <= c <= end_index) -> T2 c = T1 c)).
  { destruct (Z.leb_spec (index + 1) end_index) as [Hmore|Hnone].
    - unfold set_remainder_to_point_to_start.
      pose proof (address_for_index_mono (index + 1) end_index Hmore) as Hmono.
      destruct (Z.leb_spec (address_for_index end_index + N_words)
                  (address_for_index (index + 1))); [lia|].
      rewrite index_for_address.
      rewrite (index_for_unique (address_for_index end_index + N_words - 1) end_index) by lia.
      rewrite assert_true_seq by (apply Z.eqb_eq; reflexivity).
      rewrite assert_true_seq by (apply Z.eqb_eq; reflexivity).
      apply set_remainder_incl_spec; try lia.
      replace (index + 1 - 1) with index by lia. lia.
    - exists T1. split; [reflexivity|]. split; [|reflexivity].
      intros c Hc. lia. }
  destruct Hrem as (T2 & -> & Hst & Hfr2). cbn [mbind res_bind].
  assert (HT2 : T2 index = threshold - blk_start) by (rewrite Hfr2 by lia; exact HT1).
  rewrite assert_true_seq by (apply Z.leb_le; lia).
  unfold offset_array.
  rewrite assert_true_seq.
  2:{ rewrite HT2. destruct (Z.eq_dec (threshold - blk_start) 0) as [Hz|Hnz'].
      - apply orb_true_intro. left. apply andb_true_intro. split; apply Z.eqb_eq; [lia|].
        assert (blk_start = address_for_index index) as -> by lia.
        rewrite index_for_address. reflexivity.
      - apply orb_true_intro. right. apply andb_true_intro.
        split; [apply Z.ltb_lt|apply Z.leb_le]; lia. }
  rewrite assert_true_seq.
  2:{ apply forallb_forall. intros j Hj. apply in_cards in Hj.
      destruct (Hst j Hj) as (i & Hi & Hv & _). rewrite Hv.
      rewrite u_char_small by lia.
      apply andb_true_intro. split; [apply Z.ltb_lt|apply Z.leb_le]; lia. }
  exists T2. split; [reflexivity|]. split; [exact HT2|]. split; [exact Hst|].
  intros c Hc. rewrite Hfr2 by lia. apply HT1fr. lia.
Qed.

(** *** Blocks allocated back to back *)

Lemma last_end_app from b1 b2 :
  last_end from (b1 ++ b2) = last_end (last_end from b1) b2.
Proof. revert from. induction b1 as [|[s e] b1 IH]; intros from; cbn; auto. Qed.

Lemma contiguous_app from b1 b2 :
  contiguous from (b1 ++ b2) <-> contiguous from b1 /\ contiguous (last_end from b1) b2.
Proof.
  revert from. induction b1 as [|[s e] b1 IH]; intros from; cbn; [tauto|].
  rewrite IH. tauto.
Qed.

Lemma contiguous_le from blocks : contiguous from blocks -> from <= last_end from blocks.
Proof.
  revert from. induction blocks as [|[s e] rest IH]; intros from; cbn; [lia|].
  intros (-> & Hlt & Hrest). specialize (IH _ Hrest). lia.
Qed.

Lemma contiguous_in from blocks s e :
  contiguous from blocks -> In (s, e) blocks ->
  from <= s /\ s < e /\ e <= last_end from blocks.
Proof.
  revert from. induction blocks as [|[s0 e0] rest IH]; intros from Hc Hin; [destruct Hin|].
  cbn in Hc. destruct Hc as (-> & Hlt & Hrest). cbn [last_end].
  pose proof (contiguous_le _ _ Hrest).
  destruct Hin as [[= <- <-]|Hin]; [lia|].
  destruct (IH _ Hrest Hin). lia.
Qed.

Lemma contiguous_unique from blocks s e s' e' x :
  contiguous from blocks -> In (s, e) blocks -> In (s', e') blocks ->
  s <= x < e -> s' <= x < e' -> s = s' /\ e = e'.
Proof.
  revert from. induction blocks as [|[s0 e0] rest IH]; intros from Hc Hin Hin' Hx Hx';
    [destruct Hin|].
  cbn in Hc. destruct Hc as (-> & Hlt & Hrest).
  destruct Hin as [[= <- <-]|Hin], Hin' as [[= <- <-]|Hin'].
  - auto.
  - destruct (contiguous_in _ _ _ _ Hrest Hin'). lia.
  - destruct (contiguous_in _ _ _ _ Hrest Hin). lia.
  - eapply IH; eauto.
Qed.

Lemma contiguous_cover from blocks x :
  contiguous from blocks -> from <= x < last_end from blocks ->
  exists s e, In (s, e) blocks /\ s <= x < e.
Proof.
  revert from. induction blocks as [|[s0 e0] rest IH]; intros from Hc Hx; cbn in *; [lia|].
  destruct Hc as (-> & Hlt & Hrest).
  destruct (Z.lt_ge_cases x e0) as [Hin|Hout].
  - exists from, e0. split; [left; reflexivity|lia].
  - destruct (IH e0 Hrest ltac:(lia)) as (s & e & Hin & Hse).
    exists s, e. split; [right; exact Hin|exact Hse].
Qed.

Lemma contiguous_suffix from blocks q n :
  contiguous from blocks -> In (q, n) blocks ->
  exists rest, contiguous n rest /\ last_end n rest = last_end from blocks /\
    (forall s e, In (s, e) blocks -> n <= s -> In (s, e) rest) /\
    (forall b, In b rest -> In b blocks).
Proof.
  revert from. induction blocks as [|[s0 e0] rest IH]; intros from Hc Hin; [destruct Hin|].
  cbn in Hc. destruct Hc as (-> & Hlt & Hrest). cbn [last_end].
  destruct Hin as [[= <- <-]|Hin].
  - exists rest. split; [exact Hrest|]. split; [reflexivity|]. split.
    + intros s e [[= <- <-]|Hin'] Hn; [lia|exact Hin'].
    + intros b Hb. right. exact Hb.
  - destruct (IH _ Hrest Hin) as (rest' & Hc' & Hl' & Hsub & Hsup).
    exists rest'. split; [exact Hc'|]. split; [exact Hl'|]. split.
    + intros s e [[= <- <-]|Hin'] Hn; [|auto].
      destruct (contiguous_in _ _ _ _ Hrest Hin). lia.
    + intros b Hb. right. auto.
Qed.

(** *** The invariant of a part *)

Lemma entry_ok_more blocks blocks' T T' bc c :
  entry_ok blocks T bc c ->
  (forall b, In b blocks -> In b blocks') ->
  (forall c', c' <= c -> T' c' = T c') ->
  N_words <= T c -> 1 <= entry_to_cards_back (T c) ->
  entry_ok blocks' T' bc c.
Proof.
  intros (s & e & Hin & Hse & Hcase) Hsub Hfr _ _.
  exists s, e. split; [auto|]. split; [exact Hse|].
  rewrite (Hfr c) by lia.
  destruct Hcase as [Hd|(Hn & Hk & Hb & Hs & Hm)]; [left; exact Hd|right].
  rewrite (Hfr (c - entry_to_cards_back (T c))) by lia. auto.
Qed.

Lemma entry_ok_frame blocks blocks' T T' bc c :
  entry_ok blocks T bc c ->
  (forall b, In b blocks -> In b blocks') ->
  (forall c', c' <= c -> T' c' = T c') ->
  entry_ok blocks' T' bc c.
Proof.
  intros (s & e & Hin & Hse & Hcase) Hsub Hfr.
  exists s, e. split; [auto|]. split; [exact Hse|].
  rewrite (Hfr c) by lia.
  destruct Hcase as [Hd|(Hn & Hk & Hb & Hs & Hm)]; [left; exact Hd|right].
  rewrite (Hfr (c - entry_to_cards_back (T c))) by lia. auto.
Qed.

Lemma reset_bot_inv sp P0 :
  space_ok sp ->
  exists P1, reset_bot sp P0 = Ret P1 /\ part_inv sp [] P1.
Proof.
  intros (Hal & Hnz & Hr1 & Hr2 & Hte & Hlen).
  pose proof N_words_pos as HN.
  unfold reset_bot, zero_bottom_entry_raw. rewrite Hal, Z.eqb_refl. cbn.
  eexists; split; [reflexivity|].
  unfold part_inv, initialize_threshold; cbn.
  split; [reflexivity|]. split; [lia|]. split; [rewrite address_for_index_succ; lia|].
  split; [unfold set_offset_array_raw; rewrite Z.eqb_refl; reflexivity|].
  intros c Hc. lia.
Qed.

Lemma alloc_block_inv sp blocks P e' :
  space_ok sp -> part_inv sp blocks P -> contiguous (bottom sp) blocks ->
  last_end (bottom sp) blocks < e' -> e' <= end_ sp ->
  exists P',
    alloc_block sp (last_end (bottom sp) blocks) e' P = Ret P' /\
    part_inv sp (blocks ++ [(last_end (bottom sp) blocks, e')]) P'.
Proof.
  intros (Hal & Hnz & Hr1 & Hr2 & Hte & Hlen) (Hthr & Hbc & Hlast & Hzero & Hent) Hcont Hlt Hend.
  pose proof N_words_pos as HN.
  pose proof (contiguous_le _ _ Hcont) as Hble.
  set (e := last_end (bottom sp) blocks) in *.
  set (bc := index_for (bottom sp)) in *.
  assert (Hsub : forall b, In b blocks -> In b (blocks ++ [(e, e')])).
  { intros b Hb. apply in_or_app. left; exact Hb. }
  unfold alloc_block.
  destruct (Z.ltb_spec (next_offset_threshold P) e') as [Hcross|Hno].
  - (* the block crosses the threshold *)
    set (end_index := index_for (e' - 1)).
    pose proof (index_for_bounds (e' - 1)) as Hbe. fold end_index in Hbe.
    assert (Hafi : forall x, address_for_index x = bottom sp + (x - bc) * N_words).
    { intros x. rewrite <- Hal. fold bc. rewrite !address_for_index_mul. lia. }
    assert (Hbound : end_index - next_offset_index P < power_to_cards_back N_powers).
    { rewrite Hafi in Hbe.
      assert ((end_index - bc) * N_words < N_words * power_to_cards_back N_powers) by lia.
      assert (end_index - bc < power_to_cards_back N_powers) by nia. lia. }
    destruct (alloc_block_work_spec sp (next_offset_threshold P) (next_offset_index P)
                e e' (bot P)) as (T' & Hrun & Hidx & Hst & Hfr); try lia.
    rewrite Hrun. cbn [mbind res_bind]. eexists; split; [reflexivity|].
    fold end_index in Hst, Hfr.
    assert (Hei : next_offset_index P <= end_index).
    { apply index_for_ge_address. lia. }
    unfold part_inv; cbn [next_offset_threshold next_offset_index bot].
    rewrite last_end_app. cbn [last_end]. fold bc. fold end_index.
    split; [symmetry; apply address_for_index_succ|]. split; [lia|]. split; [lia|].
    split; [rewrite Hfr by lia; exact Hzero|].
    intros c Hc.
    destruct (Z.lt_ge_cases c (next_offset_index P)) as [Hold|Hnew].
    + apply (entry_ok_frame blocks _ (bot P));
        [apply Hent; lia|exact Hsub|intros c' Hc'; apply Hfr; lia].
    + exists e, e'. split; [apply in_or_app; right; left; reflexivity|].
      assert (Hcov : e <= address_for_index c < e').
      { pose proof (address_for_index_mono (next_offset_index P) c Hnew).
        pose proof (address_for_index_mono c end_index ltac:(lia)). lia. }
      split; [exact Hcov|].
      destruct (Z.eq_dec c (next_offset_index P)) as [->|Hlog].
      * (* the offset card *)
        rewrite Hidx, <- Hthr.
        destruct (Z.lt_ge_cases (next_offset_threshold P - e) N_words) as [Hd|Hfull];
          [left; split; lia|right].
        assert (Hdelta : next_offset_threshold P - e = N_words) by lia.
        assert (Hk : entry_to_cards_back (next_offset_threshold P - e) = 1).
        { unfold entry_to_cards_back. rewrite Hdelta, Z.sub_diag. apply power_to_cards_back_0. }
        rewrite Hk.
        assert (Hprev : address_for_index (next_offset_index P - 1) = e).
        { rewrite Hthr in Hdelta.
          replace (next_offset_index P) with (next_offset_index P - 1 + 1) in Hdelta at 1 by lia.
          rewrite address_for_index_succ in Hdelta. lia. }
        assert (Hfirst : next_offset_index P - 1 = bc).
        { destruct (Z.eq_dec (next_offset_index P - 1) bc) as [|Hne]; [assumption|].
          destruct (Hent (next_offset_index P - 1) ltac:(lia)) as (s0 & e0 & Hin0 & Hse0 & _).
          destruct (contiguous_in _ _ _ _ Hcont Hin0) as (Hc1 & Hc2 & Hc3).
          fold e in Hc3. lia. }
        split; [lia|]. split; [lia|]. split; [lia|]. split; [lia|].
        rewrite Hfirst, Hfr by lia. lia.
      * (* a card with a logarithmic code *)
        assert (Hc' : next_offset_index P + 1 <= c <= end_index) by lia.
        destruct (Hst c Hc') as (i & Hi & Hv & Hb).
        replace (next_offset_index P + 1 - 1) with (next_offset_index P) in Hb by lia.
        right. rewrite Hv.
        assert (Hk : entry_to_cards_back (N_words + i) = power_to_cards_back i).
        { unfold entry_to_cards_back. f_equal. lia. }
        rewrite Hk. pose proof (power_to_cards_back_pos i ltac:(lia)) as Hpos.
        split; [lia|]. split; [lia|]. split; [lia|]. split.
        -- assert (Hge : next_offset_index P <= c - power_to_cards_back i) by lia.
           pose proof (address_for_index_mono _ _ Hge). lia.
        -- destruct (Z.eq_dec (c - power_to_cards_back i) (next_offset_index P)) as [Heq|Hne].
           ++ rewrite Heq, Hidx. lia.
           ++ assert (Hl : next_offset_index P + 1 <= c - power_to_cards_back i <= end_index)
                by lia.
              destruct (Hst _ Hl) as (j & Hj & Hvj & Hbj).
              replace (next_offset_index P + 1 - 1) with (next_offset_index P) in Hbj by lia.
              assert (j <= i) by (apply power_to_cards_back_lt; lia).
              rewrite Hvj. lia.
  - (* the block ends before the threshold *)
    exists P. split; [reflexivity|].
    unfold part_inv. rewrite last_end_app. cbn [last_end]. fold bc.
    split; [exact Hthr|]. split; [exact Hbc|]. split; [lia|]. split; [exact Hzero|].
    intros c Hc. apply (entry_ok_frame blocks _ (bot P)); [apply Hent; lia|exact Hsub|auto].
Qed.

Lemma alloc_blocks_inv sp rest :
  forall blocks P,
    space_ok sp -> part_inv sp blocks P -> contiguous (bottom sp) blocks ->
    contiguous (last_end (bottom sp) blocks) rest ->
    last_end (last_end (bottom sp) blocks) rest <= end_ sp ->
    exists P', alloc_blocks sp rest P = Ret P' /\ part_inv sp (blocks ++ rest) P'.
Proof.
  induction rest as [|[s e] rest IH]; intros blocks P Hsp Hinv Hcont Hrest Hend.
  - exists P. rewrite app_nil_r. split; [reflexivity|exact Hinv].
  - cbn in Hrest. destruct Hrest as (-> & Hlt & Hrest'). cbn [last_end] in Hend.
    pose proof (contiguous_le _ _ Hrest') as Hle.
    destruct (alloc_block_inv sp blocks P e Hsp Hinv Hcont Hlt ltac:(lia)) as (P1 & Hrun & Hinv1).
    cbn [alloc_blocks]. rewrite Hrun. cbn [mbind res_bind].
    destruct (IH (blocks ++ [(last_end (bottom sp) blocks, e)]) P1) as (P' & Hrun' & Hinv');
      auto.
    + apply contiguous_app. split; [exact Hcont|]. cbn. auto.
    + rewrite last_end_app. cbn. exact Hrest'.
    + rewrite last_end_app. cbn. exact Hend.
    + exists P'. split; [exact Hrun'|]. rewrite <- app_assoc in Hinv'. exact Hinv'.
Qed.

(** *** Walking back *)

Lemma walk_back sp blocks P :
  space_ok sp -> part_inv sp blocks P -> contiguous (bottom sp) blocks ->
  forall (fuel : nat) c,
    index_for (bottom sp) <= c < next_offset_index P ->
    (Z.to_nat (c - index_for (bottom sp)) <= fuel)%nat ->
    exists q,
      block_at_or_preceding_loop fuel (bot P) (address_for_index c) c (bot P c) = Ret q /\
      ((c = index_for (bottom sp) /\ q = bottom sp) \/
       exists e, In (q, e) blocks /\ q <= address_for_index c < e).
Proof.
  intros (Hal & Hnz & _) (Hthr & Hbc & Hlast & Hzero & Hent) Hcont.
  pose proof N_words_pos as HN.
  set (bc := index_for (bottom sp)) in *.
  induction fuel as [|fuel IH]; intros c Hc Hfuel.
  - assert (c = bc) as -> by lia. cbn. rewrite Hzero.
    destruct (Z.ltb_spec 0 N_words); [|lia].
    exists (bottom sp). split; [f_equal; lia|]. left. auto.
  - destruct (Z.eq_dec c bc) as [->|Hne].
    + cbn. rewrite Hzero. destruct (Z.ltb_spec 0 N_words); [|lia].
      exists (bottom sp). split; [f_equal; lia|]. left. auto.
    + destruct (Hent c ltac:(lia)) as (s & e & Hin & Hse & Hcase).
      cbn [block_at_or_preceding_loop]. unfold offset_array.
      destruct Hcase as [[Hd Hs]|(Hn & Hk & Hb & Hs & Hm)].
      * destruct (Z.ltb_spec (bot P c) N_words); [|lia].
        exists s. split; [f_equal; lia|]. right. exists e. split; [exact Hin|]. lia.
      * destruct (Z.ltb_spec (bot P c) N_words); [lia|].
        set (k := entry_to_cards_back (bot P c)) in *.
        replace (address_for_index c - N_words * k) with (address_for_index (c - k))
          by (rewrite !address_for_index_mul; lia).
        destruct (IH (c - k)) as (q & Hq & Hwhere); [lia|lia|].
        exists q. split; [exact Hq|]. right.
        assert (Hlt : address_for_index (c - k) < address_for_index c).
        { assert (Hck : c - k < c) by lia.
          pose proof (address_for_index_lt _ _ Hck). lia. }
        destruct Hwhere as [[Hfirst ->]|(e' & Hin' & Hq')].
        -- destruct (contiguous_in _ _ _ _ Hcont Hin) as (Hs1 & _).
           rewrite Hfirst in Hs. fold bc in Hal. rewrite Hal in Hs.
           assert (s = bottom sp) as <- by lia.
           exists e. split; [exact Hin|lia].
        -- destruct (contiguous_unique _ _ _ _ _ _ (address_for_index (c - k))
                       Hcont Hin Hin') as [<- <-]; [lia|lia|].
           exists e. split; [exact Hin|lia].
Qed.

Lemma contiguous_ordered from blocks a b a' b' :
  contiguous from blocks -> In (a, b) blocks -> In (a', b') blocks ->
  (a, b) = (a', b') \/ b <= a' \/ b' <= a.
Proof.
  revert from. induction blocks as [|[s0 e0] rest IH]; intros from Hc Hin Hin'; [destruct Hin|].
  cbn in Hc. destruct Hc as (-> & Hlt & Hrest).
  destruct Hin as [[= <- <-]|Hin], Hin' as [[= <- <-]|Hin'].
  - left; reflexivity.
  - right; left. destruct (contiguous_in _ _ _ _ Hrest Hin'). lia.
  - right; right. destruct (contiguous_in _ _ _ _ Hrest Hin). lia.
  - eapply IH; eauto.
Qed.

Lemma contiguous_length from blocks :
  contiguous from blocks -> Z.of_nat (length blocks) <= last_end from blocks - from.
Proof.
  revert from. induction blocks as [|[s e] rest IH]; intros from; cbn [length last_end contiguous].
  - lia.
  - intros (-> & Hlt & Hrest). specialize (IH _ Hrest). lia.
Qed.

Lemma contiguous_first from blocks :
  contiguous from blocks -> blocks <> [] -> exists e, In (from, e) blocks.
Proof.
  destruct blocks as [|[s e] rest]; [congruence|].
  intros (-> & _) _. exists e. left; reflexivity.
Qed.

Lemma is_card_boundary_address n :
  is_card_boundary n = true -> address_for_index (index_for n) = n.
Proof.
  unfold is_card_boundary, pointer_delta. intros Hb. apply Z.eqb_eq in Hb.
  assert (H0 : 0 <= LogN_words) by apply Hok.
  rewrite Z.land_ones in Hb by assumption. rewrite <- N_words_pow in Hb.
  rewrite address_for_index_mul, index_for_div.
  pose proof N_words_pos as HN.
  assert (Hnz : N_words <> 0) by (clear - HN; lia).
  pose proof (Z.div_mod (n - reserved_start) N_words Hnz) as Hdm.
  rewrite Hb in Hdm. clear - Hdm. lia.
Qed.

(** *** Looking up *)

Section Lookup.
Context `{HeapView}.

Lemma forward_const_loop_stop fuel sp q n addr :
  addr < n -> forward_const_loop fuel sp q n addr = Ret q.
Proof.
  intros Hlt. destruct fuel; cbn; destruct (Z.leb_spec n addr); try lia; reflexivity.
Qed.

Lemma forward_const_loop_spec sp addr s e rest :
  forall q n (fuel : nat),
    contiguous n rest -> heap_agrees rest -> last_end n rest <= top sp ->
    In (s, e) rest -> s <= addr < e -> (length rest <= fuel)%nat ->
    forward_const_loop fuel sp q n addr = Ret s.
Proof.
  induction rest as [|[s0 e0] rest IH]; intros q n fuel Hc Hag Hle Hin Hse Hfuel;
    [destruct Hin|].
  pose proof (contiguous_in _ _ _ _ Hc Hin) as (Hns & _).
  cbn in Hc. destruct Hc as (-> & Hlt & Hrest). cbn [last_end] in Hle.
  pose proof (contiguous_le _ _ Hrest) as Hle'.
  destruct fuel as [|fuel]; [cbn in Hfuel; lia|]. cbn [forward_const_loop].
  destruct (Z.leb_spec n addr); [|lia].
  destruct (Hag n e0) as [Hsz Hk]; [left; reflexivity|]. rewrite Hk. cbn [negb].
  unfold block_size. destruct (Z.eqb_spec n (top sp)); [lia|]. rewrite Hsz.
  replace (n + (e0 - n)) with e0 by lia.
  destruct Hin as [[= <- <-]|Hin].
  - apply forward_const_loop_stop. lia.
  - apply IH; auto.
    + intros s' e' Hin'. apply Hag. right; exact Hin'.
    + cbn in Hfuel. lia.
Qed.

Lemma block_start_spec sp blocks P s e addr (fuel : nat) :
  space_ok sp -> part_inv sp blocks P -> contiguous (bottom sp) blocks ->
  last_end (bottom sp) blocks = top sp -> heap_agrees blocks ->
  In (s, e) blocks -> s <= addr < e ->
  (Z.to_nat (end_ sp - bottom sp) <= fuel)%nat ->
  block_start fuel sp addr P = Ret (s, P).
Proof.
  intros Hsp Hinv Hcont Htop Hag Hin Hse Hfuel.
  pose proof Hsp as (Hal & Hnz & Hr1 & Hr2 & Hte & Hlen).
  pose proof Hinv as (Hthr & Hbc & Hlast & Hzero & Hent).
  pose proof N_words_pos as HN.
  destruct (contiguous_in _ _ _ _ Hcont Hin) as (Hbs & Hlt & Hetop). rewrite Htop in *.
  set (bc := index_for (bottom sp)) in *.
  assert (Hafi : forall x, address_for_index x = bottom sp + (x - bc) * N_words).
  { intros x. rewrite <- Hal. rewrite !address_for_index_mul. lia. }
  unfold block_start.
  destruct (Z.leb_spec (bottom sp) addr); [|lia].
  destruct (Z.ltb_spec addr (end_ sp)); [|lia]. cbn [andb].
  unfold block_at_or_preceding.
  set (c := Z.min (index_for addr) (next_offset_index P - 1)).
  assert (Hcb : bc <= c < next_offset_index P).
  { assert (bc <= index_for addr) by (apply index_for_mono; lia). lia. }
  assert (Hcards : next_offset_index P - 1 - bc <= end_ sp - bottom sp).
  { rewrite Hthr, Hafi in Hlast.
    assert ((next_offset_index P - 1 - bc) * N_words <= end_ sp - bottom sp) by lia. nia. }
  destruct (walk_back sp blocks P Hsp Hinv Hcont fuel c Hcb) as (q & Hq & Hwhere); [lia|].
  unfold offset_array. rewrite Hq. cbn [mbind res_bind].
  assert (Hblock : exists eq, In (q, eq) blocks /\ q <= address_for_index c < eq).
  { destruct Hwhere as [[Hfirst ->]|Hb]; [|exact Hb].
    destruct (contiguous_first _ _ Hcont) as (e0 & Hin0); [intros ->; destruct Hin|].
    destruct (contiguous_in _ _ _ _ Hcont Hin0).
    exists e0. split; [exact Hin0|]. rewrite Hfirst. fold bc. rewrite Hal. lia. }
  destruct Hblock as (eq & Hinq & Hqc).
  assert (Hcaddr : address_for_index c <= addr).
  { pose proof (index_for_bounds addr).
    assert (Hci : c <= index_for addr) by lia.
    pose proof (address_for_index_mono _ _ Hci). lia. }
  destruct (contiguous_in _ _ _ _ Hcont Hinq) as (Hbq & Hqlt & Heqtop). rewrite Htop in Heqtop.
  destruct (Hag q eq Hinq) as [Hqsz Hqk].
  assert (Hpart : mkPart (bot P) (next_offset_threshold P) (next_offset_index P) = P)
    by (destruct P; reflexivity).
  assert (Hfwd : forward_to_block_containing_addr fuel sp q addr (bot P) = Ret (s, bot P)).
  { unfold forward_to_block_containing_addr. rewrite Hqk. cbn [negb].
    unfold block_size. destruct (Z.eqb_spec q (top sp)); [lia|]. rewrite Hqsz.
    replace (q + (eq - q)) with eq by lia.
    destruct (Z.leb_spec eq addr) as [Hslow|Hfast].
    - (* the block found ends before the address: walk forward *)
      unfold forward_to_block_containing_addr_slow.
      destruct (Z.leb_spec (top sp) addr); [lia|].
      set (next_index := index_for eq + (if is_card_boundary eq then 0 else 1)).
      set (next_boundary := address_for_index (index_for eq)
                            + (if index_for eq =? next_index then 0 else N_words)).
      assert (Hnb : next_boundary = address_for_index next_index /\ eq <= next_boundary).
      { subst next_boundary next_index. pose proof (index_for_bounds eq).
        destruct (is_card_boundary eq) eqn:Hb.
        - rewrite Z.add_0_r, Z.eqb_refl, Z.add_0_r.
          rewrite (is_card_boundary_address _ Hb). split; [reflexivity|lia].
        - destruct (Z.eqb_spec (index_for eq) (index_for eq + 1)); [lia|].
          rewrite address_for_index_succ. split; [reflexivity|lia]. }
      destruct Hnb as (Hnb1 & Hnb2).
      assert (Hstop : addr <= next_boundary).
      { destruct (Z.le_gt_cases addr next_boundary) as [|Hgt]; [assumption|exfalso].
        assert (c < next_index).
        { destruct (Z.lt_ge_cases c next_index) as [|Hge]; [assumption|].
          pose proof (address_for_index_mono _ _ Hge). lia. }
        assert (next_index <= index_for addr) by (apply index_for_ge_address; lia).
        assert (next_index < next_offset_index P).
        { destruct (Z.lt_ge_cases next_index (next_offset_index P)) as [|Hge]; [assumption|].
          pose proof (address_for_index_mono _ _ Hge). lia. }
        lia. }
      assert (Houter : slow_outer_loop fuel sp q eq next_boundary next_index addr (bot P)
                       = Ret (inr (q, eq), bot P)).
      { destruct fuel; cbn; destruct (Z.ltb_spec next_boundary addr); try lia; reflexivity. }
      rewrite Houter. cbn [mbind res_bind].
      unfold forward_to_block_containing_addr_const.
      destruct (Z.leb_spec (top sp) addr); [lia|].
      destruct (contiguous_suffix _ _ _ _ Hcont Hinq) as (rest & Hcr & Hlr & Hsub & Hsup).
      assert (Hinr : In (s, e) rest).
      { apply Hsub; [exact Hin|].
        destruct (contiguous_ordered _ _ _ _ _ _ Hcont Hinq Hin) as [[= -> ->]|[Ho|Ho]]; lia. }
      rewrite (forward_const_loop_spec sp addr s e rest); auto.
      + cbn. destruct (Z.leb_spec s addr); [reflexivity|lia].
      + intros s' e' Hin'. apply Hag. auto.
      + rewrite Hlr, Htop. lia.
      + pose proof (contiguous_length _ _ Hcr) as Hlen'. rewrite Hlr, Htop in Hlen'. lia.
    - (* the block found holds the address *)
      destruct (contiguous_unique _ _ _ _ _ _ addr Hcont Hinq Hin) as [<- <-]; [lia|lia|].
      cbn. destruct (Z.leb_spec q addr); [reflexivity|lia]. }
  rewrite Hfwd. cbn. rewrite Hpart. reflexivity.
Qed.

Lemma verify_walk_stop fuel sp obj_end card_address :
  card_address <= obj_end -> verify_walk fuel sp obj_end card_address = Ret tt.
Proof.
  intros Hle. destruct fuel; cbn; destruct (Z.ltb_spec obj_end card_address); try lia;
    reflexivity.
Qed.

Lemma verify_cards_all fuel sp T start_card cs :
  (forall c, In c cs -> verify_card fuel sp T start_card c = Ret tt) ->
  verify_cards fuel sp T start_card cs = Ret tt.
Proof.
  induction cs as [|c cs IH]; intros Hall; cbn; [reflexivity|].
  rewrite (Hall c) by (left; reflexivity). cbn. apply IH. intros; apply Hall; right; assumption.
Qed.

(** [verify()] passes on a part that keeps the invariant. *)
Lemma verify_passes sp blocks P (fuel : nat) :
  space_ok sp -> part_inv sp blocks P -> contiguous (bottom sp) blocks ->
  last_end (bottom sp) blocks = top sp -> heap_agrees blocks ->
  bottom sp < top sp -> (1 <= fuel)%nat ->
  verify fuel sp P = Ret tt.
Proof.
  intros Hsp Hinv Hcont Htop Hag Hne Hfuel.
  pose proof Hsp as (Hal & Hnz & Hr1 & Hr2 & Hte & Hlen).
  pose proof Hinv as (Hthr & Hbc & Hlast & Hzero & Hent).
  pose proof N_words_pos as HN.
  unfold verify. rewrite assert_true_seq by (apply Z.ltb_lt; lia).
  apply verify_cards_all. intros c Hc. apply in_cards in Hc.
  assert (Hcn : c < next_offset_index P).
  { assert (index_for (top sp - 1) < next_offset_index P)
      by (apply index_for_lt_address; rewrite <- Hthr; lia). lia. }
  unfold verify_card, offset_array.
  destruct (Z.eq_dec c (index_for (bottom sp))) as [->|Hnb].
  - rewrite Hzero. destruct (Z.ltb_spec 0 N_words); [|lia].
    apply verify_walk_stop. lia.
  - destruct (Hent c ltac:(lia)) as (s & e & Hin & Hse & Hcase).
    destruct (contiguous_in _ _ _ _ Hcont Hin) as (Hbs & Hlt & Hetop). rewrite Htop in Hetop.
    destruct Hcase as [[Hd Hs]|(Hn & Hk & Hb & Hs & Hm)].
    + destruct (Z.ltb_spec (bot P c) N_words); [|lia]. rewrite Hs.
      destruct fuel as [|fuel]; [lia|]. cbn [verify_walk].
      destruct (Z.ltb_spec s (address_for_index c)); [|reflexivity].
      destruct (Hag s e Hin) as [Hsz _].
      unfold block_size. destruct (Z.eqb_spec s (top sp)); [lia|]. rewrite Hsz.
      replace (s + (e - s)) with e by lia.
      rewrite guarantee_true_seq
        by (apply andb_true_intro; split; [apply Z.ltb_lt|apply Z.leb_le]; lia).
      apply verify_walk_stop. lia.
    + destruct (Z.ltb_spec (bot P c) N_words); [lia|].
      rewrite guarantee_true_seq by (apply Z.leb_le; lia).
      rewrite guarantee_true_seq by (apply Z.leb_le; lia).
      unfold guarantee.
      pose proof (address_for_index_mono _ _ Hb) as Hmono. rewrite Hal in Hmono.
      destruct (Z.leb_spec (bottom sp)
                  (address_for_index (c - entry_to_cards_back (bot P c))));
        [reflexivity|lia].
Qed.

(** C1, as the code has it.  For blocks allocated back to back from
    [bottom] up to [top], and a heap that holds one object with its klass
    set in each of them, the calls of [alloc_block] on a freshly reset
    part all return, and [block_start] afterwards answers, for every
    address inside a block, that block's start, and leaves the part as it
    is. *)
Theorem block_start_finds_block (sp : Space) (blocks : list (Z * Z)) (P0 : Part) :
  space_ok sp ->
  contiguous (bottom sp) blocks ->
  last_end (bottom sp) blocks = top sp ->
  heap_agrees blocks ->
  exists P1 P,
    reset_bot sp P0 = Ret P1 /\
    alloc_blocks sp blocks P1 = Ret P /\
    forall s e addr (fuel : nat),
      In (s, e) blocks -> s <= addr < e ->
      (Z.to_nat (end_ sp - bottom sp) <= fuel)%nat ->
      block_start fuel sp addr P = Ret (s, P).
Proof.
  intros Hsp Hcont Htop Hag.
  destruct (reset_bot_inv sp P0 Hsp) as (P1 & Hreset & Hinv1).
  destruct (alloc_blocks_inv sp blocks [] P1 Hsp Hinv1 I) as (P & Hrun & Hinv).
  { exact Hcont. }
  { cbn [last_end]. rewrite Htop. apply Hsp. }
  exists P1, P. split; [exact Hreset|]. split; [exact Hrun|].
  intros s e addr fuel Hin Hse Hfuel.
  eapply block_start_spec; eauto.
Qed.

(** C4.  After [alloc_block] calls for blocks allocated back to back
    from [bottom] inside the region, take any card between the region's
    first card and the card of the last allocated word whose entry is a
    logarithmic code, that is [N_words] or more.  The skip it decodes to
    is at least one card, does not go back past the region's first card,
    and lands on a card whose entry is no larger; and following the
    entries back from the card ends at the start of the block that
    covers the card's first word. *)
Theorem backward_skips_reach_block_start (sp : Space) (blocks : list (Z * Z)) (P0 : Part) :
  space_ok sp ->
  contiguous (bottom sp) blocks ->
  last_end (bottom sp) blocks <= end_ sp ->
  exists P1 P,
    reset_bot sp P0 = Ret P1 /\
    alloc_blocks sp blocks P1 = Ret P /\
    forall c,
      index_for (bottom sp) <= c <= index_for (last_end (bottom sp) blocks - 1) ->
      N_words <= bot P c ->
      1 <= entry_to_cards_back (bot P c) /\
      index_for (bottom sp) <= c - entry_to_cards_back (bot P c) /\
      bot P (c - entry_to_cards_back (bot P c)) <= bot P c /\
      exists s e,
        In (s, e) blocks /\ s <= address_for_index c < e /\
        forall fuel : nat,
          (Z.to_nat (c - index_for (bottom sp)) <= fuel)%nat ->
          block_at_or_preceding_loop fuel (bot P) (address_for_index c) c (bot P c) = Ret s.
Proof.
  intros Hsp Hcont Hend.
  destruct (reset_bot_inv sp P0 Hsp) as (P1 & Hreset & Hinv1).
  destruct (alloc_blocks_inv sp blocks [] P1 Hsp Hinv1 I Hcont Hend) as (P & Hrun & Hinv).
  exists P1, P. split; [exact Hreset|]. split; [exact Hrun|].
  cbn [app] in Hinv. pose proof Hinv as (Hthr & Hbc & Hlast & Hzero & Hent).
  pose proof N_words_pos as HN.
  intros c Hc Hlog.
  assert (Hcn : c < next_offset_index P).
  { assert (index_for (last_end (bottom sp) blocks - 1) < next_offset_index P)
      by (apply index_for_lt_address; rewrite <- Hthr; lia). lia. }
  assert (Hcb : index_for (bottom sp) < c).
  { destruct (Z.eq_dec c (index_for (bottom sp))) as [->|]; [rewrite Hzero in Hlog|]; lia. }
  destruct (Hent c ltac:(lia)) as (s & e & Hin & Hse & Hcase).
  destruct Hcase as [[Hd _]|(Hn & Hk & Hb & Hs & Hm)]; [lia|].
  split; [exact Hk|]. split; [exact Hb|]. split; [exact Hm|].
  exists s, e. split; [exact Hin|]. split; [exact Hse|].
  intros fuel Hfuel.
  destruct (walk_back sp blocks P Hsp Hinv Hcont fuel c ltac:(lia) Hfuel) as (q & Hq & Hwhere).
  rewrite Hq. f_equal.
  destruct Hwhere as [[Hfirst _]|(e' & Hin' & Hq')]; [lia|].
  destruct (contiguous_unique _ _ _ _ _ _ (address_for_index c) Hcont Hin Hin') as [<- _];
    [lia|lia|reflexivity].
Qed.

End Lookup.

End Arithmetic.

(** *** A region to run the definitions on *)

Lemma example_constants_ok : @constants_ok example_constants.
Proof. vm_compute. repeat split; (reflexivity || discriminate). Qed.

Lemma example_space_ok : @space_ok example_constants example_space.
Proof. vm_compute. repeat split; (reflexivity || discriminate). Qed.

Lemma example_blocks_contiguous : contiguous 4096 example_blocks.
Proof. cbn. lia. Qed.

Lemma example_heap_agrees : @heap_agrees example_view example_blocks.
Proof.
  intros s e [[= <- <-]|[[= <- <-]|[[= <- <-]|[]]]]; split; reflexivity.
Qed.

Lemma block_start_finds_block_witness :
  exists P1 P,
    @reset_bot example_constants example_space example_part = Ret P1 /\
    @alloc_blocks example_constants example_space example_blocks P1 = Ret P /\
    forall s e addr (fuel : nat),
      In (s, e) example_blocks -> s <= addr < e ->
      (Z.to_nat (end_ example_space - bottom example_space) <= fuel)%nat ->
      @block_start example_constants example_view fuel example_space addr P = Ret (s, P).
Proof.
  apply (@block_start_finds_block example_constants example_constants_ok example_view
           example_space example_blocks example_part).
  - exact example_space_ok.
  - exact example_blocks_contiguous.
  - reflexivity.
  - exact example_heap_agrees.
Defined.

Lemma backward_skips_reach_block_start_witness :
  exists P1 P,
    @reset_bot example_constants example_space example_part = Ret P1 /\
    @alloc_blocks example_constants example_space example_blocks P1 = Ret P /\
    forall c,
      @index_for example_constants (bottom example_space) <= c
        <= @index_for example_constants (last_end (bottom example_space) example_blocks - 1) ->
      @N_words example_constants <= bot P c ->
      1 <= @entry_to_cards_back example_constants (bot P c) /\
      @index_for example_constants (bottom example_space)
        <= c - @entry_to_cards_back example_constants (bot P c) /\
      bot P (c - @entry_to_cards_back example_constants (bot P c)) <= bot P c /\
      exists s e,
        In (s, e) example_blocks /\
        s <= @address_for_index example_constants c < e /\
        forall fuel : nat,
          (Z.to_nat (c - @index_for example_constants (bottom example_space)) <= fuel)%nat ->
          @block_at_or_preceding_loop example_constants fuel (bot P)
            (@address_for_index example_constants c) c (bot P c) = Ret s.
Proof.
  apply (@backward_skips_reach_block_start example_constants example_constants_ok
           example_space example_blocks example_part).
  - exact example_space_ok.
  - exact example_blocks_contiguous.
  - cbn. lia.
Defined.

(** The claim fails for blocks with a gap between them: the second
    block starts beyond the threshold the first one left, and
    [alloc_block_work] stops on its assertion that a block starts at or
    before the threshold; no lookup can follow. *)
Lemma gap_blocks_counterexample :
  separated (bottom example_space) gap_blocks /\
  last_end (bottom example_space) gap_blocks <= top example_space /\
  exists P1,
    @reset_bot example_constants example_space example_part = Ret P1 /\
    @alloc_blocks example_constants example_space gap_blocks P1 = Fatal.
Proof.
  split; [cbn; lia|]. split; [cbn; lia|].
  eexists. split; [reflexivity|]. vm_compute. reflexivity.
Qed.

End BOTFacts.

(** * Facts about the region *)

Module RegionFacts.
Import BOT Region BOTSpec RegionSpec.

Lemma set_top_same r : set_top (top r) r = r.
Proof. destruct r; reflexivity. Qed.

Lemma allocate_impl_post min_word_size desired_word_size r :
  min_word_size <= desired_word_size ->
  alloc_post (top r) min_word_size desired_word_size r
    (fst (allocate_impl min_word_size desired_word_size r))
    (snd (allocate_impl min_word_size desired_word_size r)).
Proof.
  intros Hle. unfold allocate_impl, alloc_post, pointer_delta.
  destruct (Z.leb_spec min_word_size (Z.min (end_ r - top r) desired_word_size)) as [Hfit|Hno];
    cbn [fst snd].
  - right. split; [lia|]. eexists; split; [reflexivity|]. repeat split; lia.
  - left. rewrite set_top_same. repeat split; lia.
Qed.

Lemma interfere_frame e r :
  exists t, interfere e r = set_top t r /\ (e = None -> t = top r).
Proof.
  destruct e as [t|]; cbn.
  - exists t; split; [reflexivity|discriminate].
  - exists (top r). split; [symmetry; apply set_top_same|reflexivity].
Qed.

Lemma par_allocate_round_post e_read e_cas min_word_size desired_word_size r :
  min_word_size <= desired_word_size ->
  match par_allocate_round e_read e_cas min_word_size desired_word_size r with
  | inl (out, r') =>
    exists observed,
      (e_read = None -> observed = top r) /\
      alloc_post observed min_word_size desired_word_size r out r'
  | inr r' => (exists t, r' = set_top t r) /\ e_cas <> None
  end.
Proof.
  intros Hle. unfold par_allocate_round.
  destruct (interfere_frame e_read r) as (t & -> & Ht).
  cbn [top end_ set_top]. unfold pointer_delta.
  destruct (Z.leb_spec min_word_size (Z.min (end_ r - t) desired_word_size)) as [Hfit|Hno].
  - assert (Hgood : exists observed : Z,
      (e_read = None -> observed = top r) /\
      alloc_post observed min_word_size desired_word_size r
        (Some (t, Z.min (end_ r - t) desired_word_size))
        (set_top (t + Z.min (end_ r - t) desired_word_size) r)).
    { exists t. split; [exact Ht|]. right.
      split; [lia|]. eexists; split; [reflexivity|]. repeat split; lia. }
    destruct e_cas as [t'|]; cbn [interfere]; unfold cmpxchg_top; cbn [top set_top].
    + destruct (Z.eqb_spec t' t) as [->|Hne].
      * rewrite Z.eqb_refl. exact Hgood.
      * destruct (Z.eqb_spec t' t); [contradiction|].
        split; [exists t'; reflexivity|discriminate].
    + rewrite Z.eqb_refl. cbn [top set_top]. rewrite Z.eqb_refl. exact Hgood.
  - exists t. split; [exact Ht|]. left. repeat split; lia.
Qed.

Lemma alloc_post_set_top t u min_word_size desired_word_size r out r' :
  alloc_post t min_word_size desired_word_size (set_top u r) out r' ->
  alloc_post t min_word_size desired_word_size r out r'.
Proof. unfold alloc_post; destruct r; cbn; tauto. Qed.

Lemma par_allocate_impl_post sched min_word_size desired_word_size r :
  min_word_size <= desired_word_size ->
  exists observed out r',
    par_allocate_impl sched min_word_size desired_word_size r = Ret (out, r') /\
    (quiet sched -> observed = top r) /\
    alloc_post observed min_word_size desired_word_size r out r'.
Proof.
  intros Hle. revert r. induction sched as [|[e_read e_cas] sched IH]; intros r; cbn.
  - pose proof (par_allocate_round_post None None min_word_size desired_word_size r Hle) as Hr.
    destruct (par_allocate_round None None min_word_size desired_word_size r) as [[out r']|r'].
    + destruct Hr as (observed & Hobs & Hpost).
      exists observed, out, r'. repeat split; auto.
    + destruct Hr as [_ Hne]. contradiction.
  - pose proof (par_allocate_round_post e_read e_cas min_word_size desired_word_size r Hle) as Hr.
    destruct (par_allocate_round e_read e_cas min_word_size desired_word_size r) as [[out r']|r'].
    + destruct Hr as (observed & Hobs & Hpost).
      exists observed, out, r'. repeat split; auto.
      intros Hq. inversion Hq as [|? ? Hhd _]; subst. inversion Hhd; subst. auto.
    + destruct Hr as [[t ->] Hne].
      destruct (IH (set_top t r)) as (observed & out & r'' & Hrun & Hobs & Hpost).
      exists observed, out, r''. split; [exact Hrun|]. split.
      * intros Hq. inversion Hq as [|? ? Hhd _]; subst. inversion Hhd; subst. contradiction.
      * eapply alloc_post_set_top; eauto.
Qed.

(** C3.  For a region with [bottom <= top <= end] and a request with
    [min_word_size <= desired_word_size], [allocate_impl] and
    [par_allocate_impl] answer [NULL] and leave the region as it is
    exactly when [end - top] is below [min_word_size]; otherwise they
    answer the old [top], move [top] on by [min(end - top,
    desired_word_size)] and report that amount, which lies between the
    two sizes.  For the concurrent variant [top] is the value the last
    round of the retry loop read, which is the region's own [top] when no
    other thread interferes; the loop always comes to an end. *)
Theorem allocate_exhaustion_is_local (r : HeapRegion)
    (min_word_size desired_word_size : Z) (sched : list (interference * interference)) :
  bottom r <= top r <= end_ r ->
  min_word_size <= desired_word_size ->
  alloc_post (top r) min_word_size desired_word_size r
    (fst (allocate_impl min_word_size desired_word_size r))
    (snd (allocate_impl min_word_size desired_word_size r)) /\
  exists observed out r',
    par_allocate_impl sched min_word_size desired_word_size r = Ret (out, r') /\
    (quiet sched -> observed = top r) /\
    alloc_post observed min_word_size desired_word_size r out r'.
Proof.
  intros _ Hle. split.
  - apply allocate_impl_post; assumption.
  - apply par_allocate_impl_post; assumption.
Qed.

Lemma allocate_exhaustion_is_local_witness :
  alloc_post (top example_region) 10 20 example_region
    (fst (allocate_impl 10 20 example_region))
    (snd (allocate_impl 10 20 example_region)) /\
  exists observed out r',
    par_allocate_impl [(None, Some 4200); (Some 5115, None)] 10 20 example_region
      = Ret (out, r') /\
    (quiet [(None, Some 4200); (Some 5115, None)] -> observed = top example_region) /\
    alloc_post observed 10 20 example_region out r'.
Proof.
  apply (allocate_exhaustion_is_local example_region 10 20
           [(None, Some 4200); (Some 5115, None)]); cbn; lia.
Defined.

(** *** Clearing *)

Section Clearing.
Context `{BOTConstants}.

Lemma hr_clear_in_cset keep_remset clear_space locked r :
  in_collection_set r = true ->
  hr_clear keep_remset clear_space locked r = Fatal.
Proof.
  unfold hr_clear, in_collection_set. intros ->.
  destruct (humongous_start_region r); reflexivity.
Qed.

Lemma clear_ret mangle r :
  card_aligned (bottom r) ->
  exists r', clear mangle r = Ret r' /\
    bottom r' = bottom r /\ top r' = bottom r /\
    prev_marked_bytes r' = prev_marked_bytes r /\
    next_marked_bytes r' = next_marked_bytes r /\
    prev_top_at_mark_start r' = prev_top_at_mark_start r /\
    next_top_at_mark_start r' = next_top_at_mark_start r /\
    rem_set r' = rem_set r /\ type r' = type r.
Proof.
  intros Hal. unfold clear, reset_bot, zero_bottom_entry_raw.
  cbn [space_of set_top CompactibleSpace_clear bottom top end_ BOT.bottom bot_part].
  red in Hal. rewrite Hal, Z.eqb_refl. cbn.
  eexists; split; [reflexivity|]. cbn. repeat split.
Qed.

(** C6, as the code has it.  On a region that is not in the collection
    set and has no humongous start region, [hr_clear] zeroes both
    marked-byte counters, puts both TAMS at [bottom], makes the region
    free, clears the remembered set exactly when [keep_remset] is false,
    and puts [top] back to [bottom] exactly when [clear_space] is set
    (the bottom being on a card boundary, as resetting the offset table
    asks); without [clear_space], [top] stays.  On any region in the
    collection set the call aborts. *)
Theorem hr_clear_resets (r : HeapRegion) (keep_remset clear_space locked : bool) :
  in_collection_set r = false ->
  humongous_start_region r = None ->
  (clear_space = true -> card_aligned (bottom r)) ->
  (exists r', hr_clear keep_remset clear_space locked r = Ret r' /\
              cleared keep_remset clear_space r r') /\
  (forall r0, in_collection_set r0 = true ->
              hr_clear keep_remset clear_space locked r0 = Fatal).
Proof.
  intros Hcs Hhum Hal. split; [|intros r0; apply hr_clear_in_cset].
  unfold hr_clear, in_collection_set in *. rewrite Hhum, Hcs. cbn [assert negb mbind res_bind].
  destruct clear_space.
  - match goal with |- exists r', clear true ?x = _ /\ _ =>
      destruct (clear_ret true x) as (r' & Hr & Hb & Ht & Hp & Hn & Hpt & Hnt & Hrs & Hty) end.
    { destruct keep_remset, locked; cbn; auto. }
    exists r'. split; [exact Hr|]. unfold cleared.
    rewrite Hb, Ht, Hp, Hn, Hpt, Hnt, Hrs, Hty.
    destruct keep_remset, locked; cbn; repeat split.
  - eexists; split; [reflexivity|]. unfold cleared.
    destruct keep_remset, locked; cbn; repeat split.
Qed.

End Clearing.

Lemma hr_clear_resets_witness :
  (exists r', @hr_clear example_constants false true false example_region = Ret r' /\
              cleared false true example_region r') /\
  (forall r0, in_collection_set r0 = true ->
              @hr_clear example_constants false true false r0 = Fatal).
Proof.
  apply (@hr_clear_resets example_constants example_region false true false);
    try reflexivity.
Defined.

(** The claim without the condition on [clear_space] fails: a call with
    [clear_space = false] on a region with 100 words in use returns and
    leaves [top] 100 words above [bottom]. *)
Lemma hr_clear_keeps_top_counterexample :
  in_collection_set example_region = false /\
  exists r', @hr_clear example_constants false false false example_region = Ret r' /\
             top r' = 4196 /\ bottom r' = 4096 /\ top r' <> bottom r'.
Proof.
  split; [reflexivity|]. eexists; split; [reflexivity|]. cbn. repeat split; lia.
Qed.

(** *** Type transitions *)

Lemma report_then_set to t' r :
  traced_then_set to t' r (set_type t' (report_region_type_change to r)).
Proof. split; reflexivity. Qed.

(** The table's stamping side has no loop on fuel: it returns or
    aborts. *)
Section NoTimeout.
Context `{BOTConstants}.

Lemma assert_seq_no_timeout {A} b (k : res A) :
  k <> Timeout -> (assert b ;; k) <> Timeout.
Proof. destruct b; cbn; [auto|discriminate]. Qed.

Lemma guarantee_seq_no_timeout {A} b (k : res A) :
  k <> Timeout -> (guarantee b ;; k) <> Timeout.
Proof. destruct b; cbn; [auto|discriminate]. Qed.

Lemma guarantee_no_timeout b : guarantee b <> Timeout.
Proof. destruct b; discriminate. Qed.

Lemma check_card_no_timeout T start_card c : check_card T start_card c <> Timeout.
Proof.
  unfold check_card.
  destruct (power_to_cards_back 1 <? c - start_card);
    [apply guarantee_seq_no_timeout|cbn];
    apply guarantee_seq_no_timeout;
    (destruct (start_card <=? c - entry_to_cards_back (offset_array T c));
     [apply guarantee_no_timeout
     |apply guarantee_seq_no_timeout, guarantee_no_timeout]).
Qed.

Lemma check_cards_no_timeout T start_card cs : check_cards T start_card cs <> Timeout.
Proof.
  induction cs as [|c cs IH]; cbn; [discriminate|].
  pose proof (check_card_no_timeout T start_card c).
  destruct (check_card T start_card c); cbn; congruence.
Qed.

Lemma check_all_cards_no_timeout T start_card end_card :
  check_all_cards T start_card end_card <> Timeout.
Proof.
  unfold check_all_cards. destruct (end_card <? start_card); [discriminate|].
  apply guarantee_seq_no_timeout, check_cards_no_timeout.
Qed.

Lemma set_remainder_incl_no_timeout sp start_card end_card T :
  set_remainder_to_point_to_start_incl sp start_card end_card T <> Timeout.
Proof.
  unfold set_remainder_to_point_to_start_incl.
  destruct (end_card <? start_card); [discriminate|].
  do 2 apply assert_seq_no_timeout.
  destruct (set_remainder_loop _ _ _ _ _ _) as [T' scfr].
  apply assert_seq_no_timeout.
  pose proof (check_all_cards_no_timeout T' start_card end_card).
  destruct (check_all_cards T' start_card end_card); cbn; congruence.
Qed.

Lemma set_remainder_no_timeout sp start end' T :
  set_remainder_to_point_to_start sp start end' T <> Timeout.
Proof.
  unfold set_remainder_to_point_to_start.
  destruct (end' <=? start); [discriminate|].
  do 2 apply assert_seq_no_timeout. apply set_remainder_incl_no_timeout.
Qed.

Lemma alloc_block_work_no_timeout sp threshold index blk_start blk_end T :
  alloc_block_work sp threshold index blk_start blk_end T <> Timeout.
Proof.
  unfold alloc_block_work. do 7 apply assert_seq_no_timeout.
  match goal with |- (?c ≫= _) <> _ => assert (Hc : c <> Timeout) end.
  { destruct (index + 1 <=? index_for (blk_end - 1));
      [apply set_remainder_no_timeout|discriminate]. }
  match goal with |- (?c ≫= _) <> _ => destruct c as [T2| |] end;
    cbn; try congruence.
  do 3 (apply assert_seq_no_timeout). discriminate.
Qed.

Lemma alloc_block_no_timeout sp blk_start blk_end P :
  alloc_block sp blk_start blk_end P <> Timeout.
Proof.
  unfold alloc_block. destruct (next_offset_threshold P <? blk_end); [|discriminate].
  pose proof (alloc_block_work_no_timeout sp (next_offset_threshold P)
                (next_offset_index P) blk_start blk_end (bot P)) as Hw.
  destruct (alloc_block_work _ _ _ _ _ _) as [[[t i] T]| |]; cbn; congruence.
Qed.

Lemma reset_bot_no_timeout sp P : reset_bot sp P <> Timeout.
Proof.
  unfold reset_bot, zero_bottom_entry_raw.
  destruct (address_for_index (index_for (BOT.bottom sp)) =? BOT.bottom sp); cbn; discriminate.
Qed.

Lemma set_for_starts_humongous_no_timeout sp obj_top fill_size P :
  set_for_starts_humongous sp obj_top fill_size P <> Timeout.
Proof.
  unfold set_for_starts_humongous.
  pose proof (reset_bot_no_timeout sp P) as H1.
  destruct (reset_bot sp P) as [P1| |]; cbn; try congruence.
  pose proof (alloc_block_no_timeout sp (BOT.bottom sp) obj_top P1) as H2.
  destruct (alloc_block sp (BOT.bottom sp) obj_top P1) as [P2| |]; cbn; try congruence.
  destruct (0 <? fill_size); [apply alloc_block_no_timeout|discriminate].
Qed.

End NoTimeout.

Lemma set_starts_humongous_traced `{BOTConstants} obj_top fill_size r :
  returns_with (traced_then_set TStartsHumongous StartsHumongousTag r)
    (set_starts_humongous obj_top fill_size r).
Proof.
  unfold set_starts_humongous.
  destruct (negb (is_humongous r)); cbn; [|exact I].
  destruct (top r =? bottom r); cbn; [|exact I].
  match goal with |- context [set_for_starts_humongous ?a ?b ?c ?d] =>
    pose proof (set_for_starts_humongous_no_timeout a b c d) as Hnt;
    destruct (set_for_starts_humongous a b c d) as [P| |] end;
    cbn; [|exact I|congruence].
  split; reflexivity.
Qed.

Lemma set_starts_humongous_pre `{BOTConstants} obj_top fill_size r :
  is_humongous r = true \/ top r <> bottom r ->
  set_starts_humongous obj_top fill_size r = Fatal.
Proof.
  unfold set_starts_humongous. intros [->|Hne]; [reflexivity|].
  destruct (negb (is_humongous r)); cbn; [|reflexivity].
  destruct (Z.eqb_spec (top r) (bottom r)); [contradiction|reflexivity].
Qed.

Lemma set_continues_humongous_traced `{BOTConstants} first_hr r :
  is_humongous r = false -> top r = bottom r -> type first_hr = StartsHumongousTag ->
  exists r', set_continues_humongous first_hr r = Ret r' /\
             traced_then_set TContinuesHumongous ContinuesHumongousTag r r'.
Proof.
  intros Hh Ht Hf. unfold set_continues_humongous.
  rewrite Hh, Ht, Z.eqb_refl, Hf. cbn.
  eexists; split; [reflexivity|]. split; reflexivity.
Qed.

Lemma set_continues_humongous_returns `{BOTConstants} first_hr r :
  returns_with (traced_then_set TContinuesHumongous ContinuesHumongousTag r)
    (set_continues_humongous first_hr r).
Proof.
  unfold set_continues_humongous.
  destruct (negb (is_humongous r)); cbn; [|exact I].
  destruct (top r =? bottom r); cbn; [|exact I].
  destruct (type first_hr); cbn; try exact I.
  split; reflexivity.
Qed.

Lemma move_to_old_with_spec relabel r :
  relabelled_then_traced relabel r (move_to_old_with relabel r).
Proof.
  unfold relabelled_then_traced, move_to_old_with.
  destruct (relabel (type r)) as [[|] t]; cbn; split; try reflexivity.
  symmetry; apply app_nil_r.
Qed.

(** C7, as the code has it.  Each of [set_free], [set_eden],
    [set_eden_pre_gc], [set_survivor], [set_old], [set_open_archive],
    [set_closed_archive] sends exactly one event to the tracer, built
    from the region before its type changes, and then sets the type; so
    do [set_starts_humongous] and [set_continues_humongous] whenever
    they return, and they return or abort.  [move_to_old] works the other
    way round: it relabels first and sends one event afterwards, only if
    the relabel reports a change. *)
Theorem type_transitions_traced `{BOTConstants} (r first_hr : HeapRegion)
    (obj_top fill_size : Z) (relabel : HeapRegionType -> bool * HeapRegionType) :
  traced_then_set TFree FreeTag r (set_free r) /\
  traced_then_set TEden EdenTag r (set_eden r) /\
  traced_then_set TEden EdenTag r (set_eden_pre_gc r) /\
  traced_then_set TSurvivor SurvTag r (set_survivor r) /\
  traced_then_set TOld OldTag r (set_old r) /\
  traced_then_set TOpenArchive OpenArchiveTag r (set_open_archive r) /\
  traced_then_set TClosedArchive ClosedArchiveTag r (set_closed_archive r) /\
  returns_with (traced_then_set TStartsHumongous StartsHumongousTag r)
    (set_starts_humongous obj_top fill_size r) /\
  returns_with (traced_then_set TContinuesHumongous ContinuesHumongousTag r)
    (set_continues_humongous first_hr r) /\
  relabelled_then_traced relabel r (move_to_old_with relabel r).
Proof.
  repeat split; try reflexivity.
  - pose proof (set_starts_humongous_traced obj_top fill_size r) as Hs.
    destruct (set_starts_humongous obj_top fill_size r); cbn in *; tauto.
  - pose proof (set_continues_humongous_returns first_hr r) as Hs.
    destruct (set_continues_humongous first_hr r); cbn in *; tauto.
  - apply move_to_old_with_spec.
  - apply move_to_old_with_spec.
Qed.

(** The claim fails for [move_to_old]: on a region that is old already
    no event is sent at all, and on a survivor region the one event is
    sent after the relabel, so it reports a change from old to old. *)
Lemma move_to_old_counterexample :
  tracer (move_to_old old_region) = tracer old_region /\
  ~ traced_then_set TOld OldTag old_region (move_to_old old_region) /\
  tracer (move_to_old survivor_region) =
    tracer survivor_region ++ [mkEvent 0 TOld TOld 4096 800] /\
  get_trace_type survivor_region = TSurvivor /\
  ~ traced_then_set TOld OldTag survivor_region (move_to_old survivor_region).
Proof.
  split; [reflexivity|]. split.
  { intros [Htr _]. cbn in Htr. discriminate. }
  split; [reflexivity|]. split; [reflexivity|].
  intros [Htr _]. cbn in Htr. discriminate.
Qed.

(** *** Transfer *)



End RegionFacts.

Module CompactFacts.
Import Region Compact BOTSpec RegionSpec CompactSpec.

Section Walk.
Context `{ObjectModel}.

Lemma next_marked_from_none n bm addr limit :
  (forall x, addr <= x < limit -> bm x = false) ->
  Z.of_nat n = limit - addr ->
  next_marked_from n bm addr limit = limit.
Proof.
  revert addr. induction n as [|n IH]; intros addr Hno Hn; cbn; [reflexivity|].
  rewrite Hno by lia. apply IH; [intros; apply Hno|]; lia.
Qed.

Lemma next_marked_from_first n bm addr limit a :
  addr <= a < limit -> bm a = true ->
  (forall x, addr <= x < a -> bm x = false) ->
  Z.of_nat n = limit - addr ->
  next_marked_from n bm addr limit = a.
Proof.
  revert addr. induction n as [|n IH]; intros addr Ha Hm Hno Hn; cbn; [lia|].
  destruct (Z.eq_dec addr a) as [->|Hne]; [rewrite Hm; reflexivity|].
  rewrite Hno by lia. apply IH; auto; try lia. intros; apply Hno; lia.
Qed.

Lemma get_next_marked_addr_none bm addr limit :
  addr <= limit ->
  (forall x, addr <= x < limit -> bm x = false) ->
  get_next_marked_addr bm addr limit = limit.
Proof.
  intros Hle Hno. unfold get_next_marked_addr.
  apply next_marked_from_none; [exact Hno|lia].
Qed.

Lemma get_next_marked_addr_first bm addr limit a :
  addr <= a < limit -> bm a = true ->
  (forall x, addr <= x < a -> bm x = false) ->
  get_next_marked_addr bm addr limit = a.
Proof.
  intros Ha Hm Hno. unfold get_next_marked_addr.
  apply next_marked_from_first; auto; lia.
Qed.


(** The walk over the marked objects, for a closure that keeps an
    invariant [I] indexed by the objects still to come: the walk returns,
    with fuel for two rounds per object and one more, and the invariant
    holds at the end. *)
Lemma apply_to_marked_loop_inv {S : Type} (I : list (Z * Z) -> S -> Prop)
    (closure : Z -> S -> res (Z * S)) (bm : bitmap) (limit : Z) :
  (forall a sz rest s, I ((a, sz) :: rest) s ->
     exists s', closure a s = Ret (sz, s') /\ I rest s') ->
  forall live next s fuel,
    live_layout bm limit next live -> I live s ->
    (2 * length live + 1 <= fuel)%nat ->
    exists s', apply_to_marked_loop fuel bm closure limit next s = Ret s' /\ I [] s'.
Proof.
  intros Hcl live. induction live as [|[a sz] rest IH]; intros next s fuel Hlay HI Hfuel.
  - inversion Hlay as [? Hle Hno|]; subst.
    destruct fuel as [|fuel]; [cbn in Hfuel; lia|]. cbn [apply_to_marked_loop].
    destruct (Z.ltb_spec next limit) as [Hlt|Hge].
    + unfold is_marked. rewrite Hno by lia.
      rewrite get_next_marked_addr_none by (auto; lia).
      destruct fuel; cbn [apply_to_marked_loop]; rewrite Z.ltb_irrefl, Z.eqb_refl;
        cbn; eauto.
    + assert (next = limit) as -> by lia. rewrite Z.eqb_refl. cbn. eauto.
  - inversion Hlay as [|? ? ? ? Hna Hsz Hend Hm Hno Hrest]; subst.
    destruct (Hcl _ _ _ _ HI) as (s1 & Hs1 & HI1).
    assert (Happly : forall f, (2 * length rest + 1 <= f)%nat ->
              exists s', apply_to_marked_loop (Datatypes.S f) bm closure limit a s = Ret s'
                         /\ I [] s').
    { intros f Hf. cbn [apply_to_marked_loop].
      destruct (Z.ltb_spec a limit) as [_|]; [|lia].
      unfold is_marked. rewrite Hm, Hs1. cbn.
      apply (IH (a + sz) s1 f Hrest HI1 Hf). }
    destruct fuel as [|fuel]; [cbn in Hfuel; lia|].
    destruct (Z.eq_dec next a) as [->|Hne].
    + apply Happly. cbn [length] in Hfuel. lia.
    + cbn [apply_to_marked_loop].
      destruct (Z.ltb_spec next limit) as [_|]; [|lia].
      unfold is_marked. rewrite Hno by lia.
      rewrite (get_next_marked_addr_first bm next limit a) by (auto; lia).
      destruct fuel as [|fuel]; [cbn [length] in Hfuel; lia|].
      apply Happly. cbn [length] in Hfuel. lia.
Qed.

Lemma walk_runs {S : Type} (closure : Z -> S -> res (Z * S)) bm limit next live s s' fuel :
  live_layout bm limit next live -> runs closure live s s' ->
  (2 * length live + 1 <= fuel)%nat ->
  apply_to_marked_loop fuel bm closure limit next s = Ret s'.
Proof.
  intros Hlay Hruns Hfuel.
  destruct (apply_to_marked_loop_inv (fun rest s0 => runs closure rest s0 s')
              closure bm limit) with (live := live) (next := next) (s := s) (fuel := fuel)
    as (s2 & Hs2 & Hfin); auto.
  - intros a sz rest s0 Hr. inversion Hr; subst. eauto.
  - inversion Hfin; subst. exact Hs2.
Qed.

Lemma ascending_weaken next next' live :
  next' <= next -> ascending next live -> ascending next' live.
Proof. destruct live as [|[a sz] rest]; cbn; [auto|]. intros; intuition lia. Qed.

Lemma ascending_ge next live a sz :
  ascending next live -> In (a, sz) live -> next <= a /\ 2 <= sz.
Proof.
  revert next. induction live as [|[a0 sz0] rest IH]; intros next Hasc Hin; [destruct Hin|].
  cbn in Hasc. destruct Hasc as (Hle & Hsz & Hrest). destruct Hin as [[= <- <-]|Hin]; [lia|].
  destruct (IH _ Hrest Hin). lia.
Qed.

Lemma sum_sizes_nonneg next live : ascending next live -> 0 <= sum_sizes live.
Proof.
  revert next. induction live as [|[a sz] rest IH]; intros next; cbn; [lia|].
  intros (_ & Hsz & Hrest). specialize (IH _ Hrest). lia.
Qed.

Lemma live_layout_ascending bm limit next live :
  live_layout bm limit next live ->
  Forall (fun o => 2 <= snd o) live ->
  ascending next live.
Proof.
  induction 1 as [|next a sz rest Hna Hsz Hend Hm Hno Hrest IH]; intros Hall; cbn; [exact I|].
  inversion Hall; subst. cbn in *. auto.
Qed.

Lemma live_layout_fits bm limit next live cursor :
  live_layout bm limit next live -> cursor <= next ->
  cursor + sum_sizes live <= limit.
Proof.
  intros Hlay. revert cursor.
  induction Hlay as [|next a sz rest Hna Hsz Hend Hm Hno Hrest IH]; intros cursor Hc; cbn.
  - lia.
  - specialize (IH (cursor + sz)). lia.
Qed.

Lemma relocate_below bm limit next live cursor :
  live_layout bm limit next live -> cursor <= next ->
  Forall (fun o => cursor <= fst o /\ fst o < limit) (relocate cursor live).
Proof.
  intros Hlay. revert cursor.
  induction Hlay as [|next a sz rest Hna Hsz Hend Hm Hno Hrest IH]; intros cursor Hc; cbn.
  - constructor.
  - constructor; [cbn; lia|].
    eapply Forall_impl; [apply (IH (cursor + sz)); lia|]. cbn. intros; lia.
Qed.

Lemma ascending_apart next live a sz a' sz' :
  ascending next live -> In (a, sz) live -> In (a', sz') live ->
  (a, sz) = (a', sz') \/ a + sz <= a' \/ a' + sz' <= a.
Proof.
  revert next. induction live as [|[a0 sz0] rest IH]; intros next Hasc Hin Hin'; [destruct Hin|].
  cbn in Hasc. destruct Hasc as (Hle & Hsz & Hrest).
  destruct Hin as [[= <- <-]|Hin], Hin' as [[= <- <-]|Hin'].
  - left; reflexivity.
  - right; left. destruct (ascending_ge _ _ _ _ Hrest Hin'). lia.
  - right; right. destruct (ascending_ge _ _ _ _ Hrest Hin). lia.
  - eapply IH; eauto.
Qed.

(** *** Phase 1 *)

Lemma forwarded_ext cursor live h h' :
  (forall a sz, In (a, sz) live -> h' a = h a) ->
  forwarded cursor live h -> forwarded cursor live h'.
Proof.
  revert cursor. induction live as [|[a sz] rest IH]; intros cursor Hext; cbn; [auto|].
  intros [Hf Hrest]. split.
  - unfold forwardee, mark_raw in *. rewrite (Hext a sz) by (left; reflexivity). exact Hf.
  - apply IH; [|exact Hrest]. intros; eapply Hext; right; eauto.
Qed.

Lemma forward_heap obj sz h cursor :
  object_model_ok ->
  let h1 := fst (forward obj sz (h, cursor)) in
  snd (forward obj sz (h, cursor)) = cursor + sz /\
  (forall x, x <> obj -> h1 x = h x) /\
  forwardee h1 obj = (if obj =? cursor then 0 else cursor).
Proof.
  intros [Hdec Hproto]. cbn. unfold forward_to, init_mark_raw, forwardee, mark_raw, store.
  split; [reflexivity|].
  destruct (Z.eqb_spec obj cursor) as [->|Hne]; cbn.
  - destruct (Z.eqb_spec (decode_pointer (h cursor)) 0) as [Hz|Hnz]; cbn.
    + split; [reflexivity|exact Hz].
    + split; [intros x Hx; destruct (Z.eqb_spec x cursor); [contradiction|reflexivity]|].
      rewrite Z.eqb_refl. exact Hproto.
  - split; [intros x Hx; destruct (Z.eqb_spec x obj); [contradiction|reflexivity]|].
    rewrite Z.eqb_refl. apply Hdec.
Qed.

Lemma phase1_runs live :
  object_model_ok ->
  forall next cursor h,
    ascending next live ->
    Forall (fun o => size h (fst o) = snd o) live ->
    exists h',
      runs G1SemeruPrepareCompactLiveClosure_apply live (h, cursor)
           (h', cursor + sum_sizes live) /\
      (forall x, x < next -> h' x = h x) /\
      (forall a sz k, In (a, sz) live -> 1 <= k < sz -> h' (a + k) = h (a + k)) /\
      forwarded cursor live h'.
Proof.
  intros Hom. induction live as [|[a sz] rest IH]; intros next cursor h Hasc Hsizes.
  - exists h. cbn. rewrite Z.add_0_r. repeat split; auto. constructor.
  - cbn in Hasc. destruct Hasc as (Hna & Hsz & Hrest).
    inversion Hsizes as [|? ? Hsa Hsrest]; subst. cbn in Hsa.
    destruct (forward_heap a sz h cursor Hom) as (Hc & Hfr & Hfw).
    set (h1 := fst (forward a sz (h, cursor))) in *.
    destruct (IH (a + sz) (cursor + sz) h1 Hrest) as (h' & Hruns & Hframe & Hbody & Hfwd).
    { rewrite Forall_forall in Hsrest |- *. intros [a' sz'] Hin. cbn.
      assert (Hin' : In (a', sz') rest) by (apply list_elem_of_In; exact Hin).
      destruct (ascending_ge _ _ _ _ Hrest Hin').
      unfold size, klass. rewrite Hfr by lia. apply (Hsrest (a', sz') Hin). }
    exists h'. split; [|split; [|split]].
    + econstructor.
      * unfold G1SemeruPrepareCompactLiveClosure_apply. cbn [fst]. rewrite Hsa. reflexivity.
      * replace (forward a sz (h, cursor)) with (h1, cursor + sz)
          by (rewrite <- Hc; subst h1; destruct (forward a sz (h, cursor)); reflexivity).
        cbn [sum_sizes]. rewrite Z.add_assoc. exact Hruns.
    + intros x Hx. rewrite Hframe by lia. apply Hfr. lia.
    + intros a' sz' k [[= <- <-]|Hin] Hk.
      * rewrite Hframe by lia. apply Hfr. lia.
      * rewrite (Hbody _ _ _ Hin Hk). apply Hfr.
        destruct (ascending_ge _ _ _ _ Hrest Hin). lia.
    + cbn. split; [|exact Hfwd].
      unfold forwardee, mark_raw. rewrite Hframe by lia. exact Hfw.
Qed.

(** *** Phase 2 *)

Lemma adjust_pointer_frame hr p s x :
  x <> p -> fst (adjust_intra_region_pointer hr p s) x = fst s x.
Proof.
  intros Hx. unfold adjust_intra_region_pointer. destruct s as [h q]. cbn.
  destruct (h p =? 0); [reflexivity|].
  destruct (is_in_reserved hr (h p)); [|reflexivity].
  destruct (forwardee h (h p) =? 0); [reflexivity|]. cbn. unfold store.
  destruct (Z.eqb_spec x p); [contradiction|reflexivity].
Qed.

Lemma adjust_fold_frame hr fields s x :
  ~ In x fields ->
  fst (fold_left (fun s p => adjust_intra_region_pointer hr p s) fields s) x = fst s x.
Proof.
  revert s. induction fields as [|p fields IH]; intros s Hx; cbn; [reflexivity|].
  rewrite IH by (intros Hin; apply Hx; right; exact Hin).
  apply adjust_pointer_frame. intros ->. apply Hx. left; reflexivity.
Qed.

Lemma oop_iterate_size_frame hr h q a sz :
  fields_inside h (a, sz) ->
  fst (oop_iterate_size hr a (h, q)) = sz /\
  forall x, ~ (a + 2 <= x < a + sz) ->
    fst (snd (oop_iterate_size hr a (h, q))) x = h x.
Proof.
  intros [Hsz Hoff]. cbn in Hsz, Hoff. unfold oop_iterate_size. cbn [fst snd].
  split; [exact Hsz|]. intros x Hx.
  rewrite adjust_fold_frame; [reflexivity|].
  unfold oop_fields. intros Hin. apply in_map_iff in Hin as (off & <- & Hoffin).
  rewrite Forall_forall in Hoff.
  assert (2 <= off < sz) by (apply Hoff, list_elem_of_In; exact Hoffin). lia.
Qed.

Lemma fields_inside_ext h h' o :
  h' (fst o + 1) = h (fst o + 1) -> fields_inside h o -> fields_inside h' o.
Proof. unfold fields_inside, size, klass. intros ->. auto. Qed.

Lemma phase2_runs hr live :
  forall next h q,
    ascending next live ->
    Forall (fields_inside h) live ->
    exists h' q',
      runs (G1SemeruAdjustLiveClosure_apply hr) live (h, q) (h', q') /\
      (forall x, ~ in_body live x -> h' x = h x).
Proof.
  induction live as [|[a sz] rest IH]; intros next h q Hasc Hfields.
  - exists h, q. split; [constructor|auto].
  - cbn in Hasc. destruct Hasc as (Hna & Hsz & Hrest).
    inversion Hfields as [|? ? Hfa Hfrest]; subst.
    destruct (oop_iterate_size_frame hr h q a sz Hfa) as (Hsize & Hfr).
    destruct (oop_iterate_size hr a (h, q)) as [sz0 [h1 q1]] eqn:Hit. cbn in Hsize, Hfr. subst sz0.
    destruct (IH (a + sz) h1 q1 Hrest) as (h' & q' & Hruns & Hframe).
    { rewrite Forall_forall in Hfrest |- *. intros [a' sz'] Hin.
      assert (Hin' : In (a', sz') rest) by (apply list_elem_of_In; exact Hin).
      destruct (ascending_ge _ _ _ _ Hrest Hin').
      apply (fields_inside_ext h); [cbn; apply Hfr; lia|apply (Hfrest _ Hin)]. }
    exists h', q'. split.
    + econstructor; [|exact Hruns].
      unfold G1SemeruAdjustLiveClosure_apply. rewrite Hit. reflexivity.
    + intros x Hx. rewrite Hframe.
      * apply Hfr. intros Hin. apply Hx. exists a, sz. split; [left; reflexivity|exact Hin].
      * intros (a' & sz' & Hin & Hb). apply Hx. exists a', sz'. split; [right; exact Hin|exact Hb].
Qed.

Lemma header_not_in_body next live a sz k :
  ascending next live -> In (a, sz) live -> 0 <= k < 2 -> ~ in_body live (a + k).
Proof.
  intros Hasc Hin Hk (a' & sz' & Hin' & Hb).
  destruct (ascending_apart _ _ _ _ _ _ Hasc Hin Hin') as [[= <- <-]|[Hd|Hd]]; try lia.
  destruct (ascending_ge _ _ _ _ Hasc Hin). lia.
Qed.

(** *** Phase 3 *)

Lemma intact_ext cursor next live h h' :
  ascending next live ->
  (forall x, next <= x -> h' x = h x) ->
  intact cursor live h -> intact cursor live h'.
Proof.
  revert cursor next. induction live as [|[a sz] rest IH]; intros cursor next Hasc Hext; cbn;
    [auto|].
  cbn in Hasc. destruct Hasc as (Hna & Hsz & Hrest).
  intros (Hf & Hs & Hk & Hi).
  unfold forwardee, mark_raw, size, klass in *.
  rewrite !Hext by lia. repeat split; auto.
  apply (IH _ (a + sz)); auto. intros; apply Hext; lia.
Qed.

Lemma moved_ext cursor next live h h1 h' :
  ascending next live ->
  (forall x, next <= x -> h1 x = h x) ->
  moved cursor live h1 h' -> moved cursor live h h'.
Proof.
  revert cursor next. induction live as [|[a sz] rest IH]; intros cursor next Hasc Hext; cbn;
    [auto|].
  cbn in Hasc. destruct Hasc as (Hna & Hsz & Hrest).
  intros (Hm & Hrestm). split.
  - intros k Hk. rewrite Hm by lia. apply Hext. lia.
  - apply (IH _ (a + sz)); auto. intros; apply Hext; lia.
Qed.

Lemma compact_apply_step a sz cursor h :
  0 < cursor -> cursor <= a -> 2 <= sz ->
  forwardee h a = (if a =? cursor then 0 else cursor) ->
  size h a = sz -> klass h a <> 0 ->
  exists h1,
    G1CompactRegionClosure_apply a h = Ret (sz, h1) /\
    (forall x, ~ (cursor <= x < cursor + sz) -> h1 x = h x) /\
    (forall k, 1 <= k < sz -> h1 (cursor + k) = h (a + k)).
Proof.
  intros Hc Hca Hsz Hf Hs Hk. unfold G1CompactRegionClosure_apply. rewrite Hf, Hs.
  destruct (Z.eqb_spec a cursor) as [->|Hne].
  - cbn. exists h. repeat split; auto.
  - destruct (Z.eqb_spec cursor 0); [lia|].
    destruct (Z.eqb_spec a cursor); [contradiction|]. cbn [negb assert mbind res_bind].
    assert (Hk1 : klass (init_mark_raw cursor (aligned_conjoint_words a cursor sz h)) cursor
                  = klass h a).
    { unfold klass, init_mark_raw, store, aligned_conjoint_words.
      destruct (Z.eqb_spec (cursor + 1) cursor); [lia|].
      destruct (Z.leb_spec cursor (cursor + 1)); [|lia].
      destruct (Z.ltb_spec (cursor + 1) (cursor + sz)); [|lia]. cbn. f_equal. lia. }
    rewrite Hk1. destruct (Z.eqb_spec (klass h a) 0); [contradiction|]. cbn.
    eexists; split; [reflexivity|]. split.
    + intros x Hx. unfold init_mark_raw, store, aligned_conjoint_words.
      destruct (Z.eqb_spec x cursor); [lia|].
      destruct (Z.leb_spec cursor x); cbn; [|reflexivity].
      destruct (Z.ltb_spec x (cursor + sz)); [lia|reflexivity].
    + intros k Hk'. unfold init_mark_raw, store, aligned_conjoint_words.
      destruct (Z.eqb_spec (cursor + k) cursor); [lia|].
      destruct (Z.leb_spec cursor (cursor + k)); [|lia].
      destruct (Z.ltb_spec (cursor + k) (cursor + sz)); [|lia]. cbn. f_equal. lia.
Qed.

Lemma phase3_runs live :
  forall next cursor h,
    ascending next live -> 0 < cursor -> cursor <= next ->
    intact cursor live h ->
    exists h',
      runs G1CompactRegionClosure_apply live h h' /\
      (forall x, x < cursor \/ cursor + sum_sizes live <= x -> h' x = h x) /\
      moved cursor live h h'.
Proof.
  induction live as [|[a sz] rest IH]; intros next cursor h Hasc Hpos Hcn Hint.
  - exists h. repeat split; auto. constructor.
  - cbn in Hasc. destruct Hasc as (Hna & Hsz & Hrest).
    cbn in Hint. destruct Hint as (Hf & Hs & Hk & Hirest).
    destruct (compact_apply_step a sz cursor h) as (h1 & Happ & Hfr1 & Hcopy); auto; try lia.
    destruct (IH (a + sz) (cursor + sz) h1) as (h' & Hruns & Hframe & Hmoved); auto; try lia.
    { apply (intact_ext _ (a + sz) _ h); auto. intros; apply Hfr1; lia. }
    pose proof (sum_sizes_nonneg _ _ Hrest) as Hnn.
    exists h'. split; [econstructor; eauto|]. split; [|split].
    + cbn [sum_sizes]. intros x Hx. rewrite Hframe by lia. apply Hfr1. lia.
    + intros k Hk'. rewrite Hframe by lia. apply Hcopy; lia.
    + apply (moved_ext _ (a + sz) _ h h1); auto. intros; apply Hfr1; lia.
Qed.

(** The walk over the objects of the compacted region finds them where
    [relocate] puts them. *)
Lemma objects_from_relocate live :
  forall cursor next h (fuel : nat),
    ascending next live ->
    Forall (fun o => size h (fst o) = snd o) (relocate cursor live) ->
    (length live <= fuel)%nat ->
    objects_from fuel h cursor (cursor + sum_sizes live) = Ret (relocate cursor live).
Proof.
  induction live as [|[a sz] rest IH]; intros cursor next h fuel Hasc Hsizes Hfuel.
  - cbn. rewrite Z.add_0_r. destruct fuel; cbn; rewrite Z.ltb_irrefl; reflexivity.
  - cbn in Hasc. destruct Hasc as (Hna & Hsz & Hrest).
    pose proof (sum_sizes_nonneg _ _ Hrest) as Hnn.
    cbn [relocate] in Hsizes. inversion Hsizes as [|? ? Hs Hsrest]; subst. cbn in Hs.
    destruct fuel as [|fuel]; [cbn in Hfuel; lia|].
    cbn [objects_from sum_sizes relocate].
    destruct (Z.ltb_spec cursor (cursor + (sz + sum_sizes rest))); [|lia].
    rewrite Hs. replace (cursor + (sz + sum_sizes rest)) with (cursor + sz + sum_sizes rest) by lia.
    rewrite (IH (cursor + sz) (a + sz) h fuel); auto; try reflexivity. cbn in Hfuel; lia.
Qed.

Lemma moved_sizes live :
  forall cursor next h h' h0,
    ascending next live ->
    moved cursor live h h' ->
    (forall a sz, In (a, sz) live -> h (a + 1) = h0 (a + 1)) ->
    Forall (fun o => size h0 (fst o) = snd o) live ->
    Forall (fun o => size h' (fst o) = snd o) (relocate cursor live).
Proof.
  induction live as [|[a sz] rest IH]; intros cursor next h h' h0 Hasc Hm Hk Hs; cbn;
    [constructor|].
  cbn in Hasc. destruct Hasc as (Hna & Hsz & Hrest).
  cbn in Hm. destruct Hm as (Hma & Hmrest).
  inversion Hs as [|? ? Hsa Hsrest]; subst. cbn in Hsa.
  constructor.
  - cbn. unfold size, klass in *. rewrite Hma by lia.
    rewrite (Hk a sz) by (left; reflexivity). exact Hsa.
  - apply (IH _ (a + sz) h h' h0); auto. intros; eapply Hk; right; eauto.
Qed.

Lemma moved_ext_target cursor next live h h' h'' :
  ascending next live ->
  (forall x, x < cursor + sum_sizes live -> h'' x = h' x) ->
  moved cursor live h h' -> moved cursor live h h''.
Proof.
  revert cursor next. induction live as [|[a sz] rest IH]; intros cursor next Hasc Hext; cbn;
    [auto|].
  cbn in Hasc. destruct Hasc as (Hna & Hsz & Hrest).
  pose proof (sum_sizes_nonneg _ _ Hrest) as Hnn. cbn [sum_sizes] in Hext.
  intros (Hm & Hrestm). split.
  - intros k Hk. rewrite Hext by lia. apply Hm; lia.
  - apply (IH _ (a + sz)); auto. intros; apply Hext; lia.
Qed.

Lemma intact_of cursor next live h0 h1 h2 :
  ascending next live ->
  forwarded cursor live h1 ->
  (forall a sz, In (a, sz) live -> h2 a = h1 a /\ h2 (a + 1) = h0 (a + 1)) ->
  Forall (fun o => size h0 (fst o) = snd o /\ klass h0 (fst o) <> 0) live ->
  intact cursor live h2.
Proof.
  revert cursor next. induction live as [|[a sz] rest IH]; intros cursor next Hasc Hfw Hhd Hwf;
    cbn; [exact I|].
  cbn in Hasc, Hfw. destruct Hasc as (Hna & Hsz & Hrest). destruct Hfw as (Hfa & Hfrest).
  inversion Hwf as [|? ? [Hsa Hka] Hwfrest]; subst. cbn in Hsa, Hka.
  destruct (Hhd a sz) as [Hm Hk]; [left; reflexivity|].
  unfold forwardee, mark_raw, size, klass in *. rewrite Hm, Hk. repeat split; auto.
  apply (IH _ (a + sz)); auto. intros a' sz' Hin'; apply (Hhd a' sz'); right; assumption.
Qed.

End Walk.

Section Pipeline.
Context `{ObjectModel} `{BOT.BOTConstants}.
Variable ZapUnusedHeapArea : bool.
Variable badHeapWordVal : Z.

Lemma reset_bot_ret sp P :
  BOT.address_for_index (BOT.index_for (BOT.bottom sp)) = BOT.bottom sp ->
  exists P', BOT.reset_bot sp P = Ret P'.
Proof.
  intros Hal. unfold BOT.reset_bot, BOT.zero_bottom_entry_raw.
  rewrite Hal, Z.eqb_refl. cbn. eauto.
Qed.

Lemma complete_compaction_ret r h :
  BOT.address_for_index (BOT.index_for (bottom r)) = bottom r ->
  exists r',
    complete_compaction ZapUnusedHeapArea badHeapWordVal r h
      = Ret (r', if ZapUnusedHeapArea then mangle_unused_area badHeapWordVal r' h else h) /\
    top r' = compaction_top r /\ bottom r' = bottom r /\ end_ r' = end_ r /\
    next_top_at_mark_start r' = bottom r /\ next_marked_bytes r' = 0 /\
    prev_top_at_mark_start r' = bottom r /\ prev_marked_bytes r' = 0.
Proof.
  intros Hal. unfold complete_compaction, reset_after_compaction.
  cbn [top set_top bottom].
  destruct (compaction_top r <=? bottom r).
  - destruct (reset_bot_ret (space_of (set_top (compaction_top r) r))
                (bot_part (set_top (compaction_top r) r))) as [P' HP']; [exact Hal|].
    rewrite HP'. cbn. eexists; split; [reflexivity|]. cbn. repeat split.
  - cbn. eexists; split; [reflexivity|]. cbn. repeat split.
Qed.

(** C2.  On a region that is neither humongous nor open archive, with
    the live objects the bitmap shows lying in order below [top], phases
    1 to 3 return; afterwards [top] is [bottom] plus the sum of the live
    sizes, so the live bytes of the region are the sum of the live sizes
    before compaction, and the objects found by walking the region are
    the live objects slid down to [bottom], each starting below the old
    [top]. *)
Theorem compaction_keeps_live_size (fuel : nat) (region_bottom : Z -> Z)
    (r : HeapRegion) (bm : bitmap) (h : mem) (live : list (Z * Z)) :
  object_model_ok ->
  is_humongous r = false -> type r <> OpenArchiveTag ->
  0 < bottom r ->
  BOT.address_for_index (BOT.index_for (bottom r)) = bottom r ->
  live_layout bm (top r) (bottom r) live ->
  Forall (well_formed h) live ->
  (2 * length live + 1 <= fuel)%nat ->
  exists r' bm' h' queue,
    compact_phases ZapUnusedHeapArea badHeapWordVal fuel region_bottom r bm h
      = Ret (r', bm', h', queue) /\
    bottom r' = bottom r /\
    top r' = bottom r + sum_sizes live /\
    live_bytes r' = sum_sizes live * HeapWordSize /\
    object_iterate fuel r' h' = Ret (relocate (bottom r) live) /\
    Forall (fun o => bottom r <= fst o /\ fst o < top r) (relocate (bottom r) live).
Proof.
  intros Hom Hhum Hoa Hpos Hal Hlay Hwf Hfuel.
  assert (Hasc : ascending (bottom r) live).
  { eapply live_layout_ascending; [exact Hlay|].
    eapply Forall_impl; [exact Hwf|]. intros o (_ & _ & Hsz); exact Hsz. }
  assert (Hsizes : Forall (fun o => size h (fst o) = snd o) live).
  { eapply Forall_impl; [exact Hwf|]. intros o ([Hs _] & _); exact Hs. }
  (* phase 1 *)
  destruct (phase1_runs live Hom (bottom r) (bottom r) h Hasc Hsizes)
    as (h1 & Hruns1 & Hfr1 & Hbody1 & Hfwd1).
  unfold compact_phases, phase1_prepare_for_compact, apply_to_marked_objects, scan_limit.
  rewrite (walk_runs _ _ _ _ _ _ _ _ Hlay Hruns1 Hfuel). cbn [mbind res_bind].
  set (r1 := set_compaction_top (bottom r + sum_sizes live) r).
  (* phase 2 *)
  assert (Hfields1 : Forall (fields_inside h1) live).
  { rewrite Forall_forall in Hwf |- *. intros [a sz] Hin.
    destruct (Hwf _ Hin) as (Hfi & _ & Hsz). cbn in Hsz.
    apply (fields_inside_ext h); [|exact Hfi]. cbn.
    apply (Hbody1 a sz 1); [apply list_elem_of_In; exact Hin|lia]. }
  destruct (phase2_runs r1 live (bottom r) h1 [] Hasc Hfields1) as (h2 & q & Hruns2 & Hfr2).
  unfold phase2_adjust_intra_region_pointer, do_heap_region, apply_to_marked_objects,
    scan_limit.
  replace (is_humongous r1) with false by (symmetry; exact Hhum).
  replace (match type r1 with OpenArchiveTag => true | _ => false end) with false
    by (subst r1; cbn; destruct (type r); congruence).
  change (top r1) with (top r). change (bottom r1) with (bottom r).
  rewrite (walk_runs _ _ _ _ _ _ _ _ Hlay Hruns2 Hfuel). cbn [mbind res_bind].
  (* phase 3 *)
  assert (Hint : intact (bottom r) live h2).
  { apply (intact_of _ (bottom r) _ h h1); auto.
    - intros a sz Hin. split.
      + apply Hfr2. replace a with (a + 0) by lia.
        eapply header_not_in_body; eauto; lia.
      + rewrite Hfr2 by (eapply header_not_in_body; eauto; lia).
        destruct (ascending_ge _ _ _ _ Hasc Hin). apply (Hbody1 a sz 1); auto; lia.
    - eapply Forall_impl; [exact Hwf|]. intros o ([Hs _] & Hk & _); auto. }
  destruct (phase3_runs live (bottom r) (bottom r) h2 Hasc Hpos (Z.le_refl _) Hint)
    as (h3 & Hruns3 & Hfr3 & Hmoved3).
  unfold phase3_compact_region, compact_region, apply_to_marked_objects, scan_limit.
  replace (is_humongous r1) with false by (symmetry; exact Hhum).
  change (top r1) with (top r). change (bottom r1) with (bottom r).
  cbn [negb assert mbind res_bind].
  rewrite (walk_runs _ _ _ _ _ _ _ _ Hlay Hruns3 Hfuel). cbn [mbind res_bind].
  destruct (complete_compaction_ret r1 h3 Hal)
    as (r' & Hcc & Htop & Hbot & Hend & Hnt & Hnm & _ & _).
  rewrite Hcc. cbn [mbind res_bind].
  change (compaction_top r1) with (bottom r + sum_sizes live) in Htop.
  change (bottom r1) with (bottom r) in Hbot, Hnt.
  do 4 eexists. split; [reflexivity|].
  split; [exact Hbot|]. split; [exact Htop|]. split; [|split].
  - unfold live_bytes. rewrite Htop, Hnt, Hnm. lia.
  - unfold object_iterate. rewrite Hbot, Htop.
    apply (objects_from_relocate live (bottom r) (bottom r)); auto; [|lia].
    apply (moved_sizes live (bottom r) (bottom r) h2 _ h); auto.
    + apply (moved_ext_target _ (bottom r) _ _ h3); auto.
      intros x Hx. destruct ZapUnusedHeapArea; [|reflexivity].
      unfold mangle_unused_area. rewrite Htop.
      destruct (Z.leb_spec (bottom r + sum_sizes live) x); [lia|reflexivity].
    + intros a sz Hin.
      rewrite Hfr2 by (eapply header_not_in_body; eauto; lia).
      destruct (ascending_ge _ _ _ _ Hasc Hin). apply (Hbody1 a sz 1); auto; lia.
  - eapply relocate_below; [exact Hlay|lia].
Qed.

End Pipeline.

Section Walk2.
Context `{ObjectModel}.

(** *** The compact closure *)

Lemma compact_apply_size obj h sz h' :
  G1CompactRegionClosure_apply obj h = Ret (sz, h') -> sz = size h obj.
Proof.
  unfold G1CompactRegionClosure_apply.
  destruct (forwardee h obj =? 0); [intros [= <- _]; reflexivity|].
  destruct (negb (obj =? forwardee h obj)); cbn; [|discriminate].
  destruct (negb (klass _ _ =? 0)); cbn; [|discriminate].
  intros [= <- _]; reflexivity.
Qed.

Lemma compact_apply_moves obj h sz h' :
  G1CompactRegionClosure_apply obj h = Ret (sz, h') ->
  forwardee h obj <> 0 ->
  forwardee h obj <> obj /\
  h' = init_mark_raw (forwardee h obj)
         (aligned_conjoint_words obj (forwardee h obj) (size h obj) h).
Proof.
  unfold G1CompactRegionClosure_apply. intros Happ Hfw.
  destruct (Z.eqb_spec (forwardee h obj) 0); [contradiction|].
  destruct (Z.eqb_spec obj (forwardee h obj)) as [Heq|Hne]; cbn in Happ; [discriminate|].
  destruct (negb (klass _ _ =? 0)); cbn in Happ; [|discriminate].
  injection Happ as _ <-. split; [congruence|reflexivity].
Qed.

(** C10.  Applied to an object whose header holds no forwarding value,
    the compact closure answers the object's size and returns the heap it
    was given: nothing is copied, no header is reinitialised, no word is
    written.  Whenever the closure returns a heap that differs from the
    one it was given, the object had a forwarding value other than null
    and other than its own address, and the new heap is the old one with
    the object's words copied to that address and the header there
    reinitialised. *)
Theorem compact_closure_skips_unforwarded (h : mem) (obj : Z) :
  forwardee h obj = 0 ->
  G1CompactRegionClosure_apply obj h = Ret (size h obj, h) /\
  (forall obj' sz h',
     G1CompactRegionClosure_apply obj' h = Ret (sz, h') ->
     sz = size h obj' /\
     ((exists x, h' x <> h x) ->
      forwardee h obj' <> 0 /\ forwardee h obj' <> obj' /\
      h' = init_mark_raw (forwardee h obj')
             (aligned_conjoint_words obj' (forwardee h obj') (size h obj') h))).
Proof.
  intros Hnull. split.
  - unfold G1CompactRegionClosure_apply. rewrite Hnull. reflexivity.
  - intros obj' sz h' Happ. split; [eapply compact_apply_size; eauto|].
    intros [x Hx].
    destruct (Z.eq_dec (forwardee h obj') 0) as [Hz|Hnz].
    + unfold G1CompactRegionClosure_apply in Happ. rewrite Hz in Happ.
      injection Happ as _ <-. contradiction.
    + split; [exact Hnz|]. eapply compact_apply_moves; eauto.
Qed.

(** *** Archive regions in the adjust phase *)



End Walk2.

(** *** A heap to run the definitions on *)

Lemma example_model_ok : @object_model_ok example_model.
Proof.
  split; cbn.
  - intros p. replace ((4 * p + 3) mod 4) with 3 by (apply Z.mod_unique with p; lia).
    cbn. symmetry; apply Z.div_unique with 3; lia.
  - reflexivity.
Qed.

Lemma example_unmarked x :
  x <> 4100 -> x <> 4110 -> example_bitmap x = false.
Proof.
  intros H1 H2. unfold example_bitmap.
  destruct (Z.eqb_spec x 4100), (Z.eqb_spec x 4110); try contradiction; reflexivity.
Qed.

Lemma example_layout :
  live_layout example_bitmap 4196 4096 example_live.
Proof.
  unfold example_live.
  apply layout_cons; [lia|lia|lia|reflexivity|intros; apply example_unmarked; lia|].
  apply layout_cons; [lia|lia|lia|reflexivity|intros; apply example_unmarked; lia|].
  apply layout_nil; [lia|intros; apply example_unmarked; lia].
Qed.

Lemma example_well_formed :
  Forall (@well_formed example_model example_heap) example_live.
Proof.
  repeat constructor; cbn; try lia; try discriminate.
Qed.

Lemma compaction_keeps_live_size_witness :
  exists r' bm' h' queue,
    @compact_phases example_model false 0 example_constants 5 (fun _ => 0)
      example_region example_bitmap example_heap = Ret (r', bm', h', queue) /\
    bottom r' = 4096 /\
    top r' = 4096 + sum_sizes example_live /\
    live_bytes r' = sum_sizes example_live * HeapWordSize /\
    @object_iterate example_model 5 r' h' = Ret (relocate 4096 example_live) /\
    Forall (fun o => 4096 <= fst o /\ fst o < 4196) (relocate 4096 example_live).
Proof.
  apply (@compaction_keeps_live_size example_model example_constants false 0
           5%nat (fun _ => 0) example_region example_bitmap example_heap
           example_live).
  - exact example_model_ok.
  - reflexivity.
  - discriminate.
  - cbn; lia.
  - reflexivity.
  - exact example_layout.
  - exact example_well_formed.
  - cbn; lia.
Defined.

Lemma compact_closure_skips_unforwarded_witness :
  @G1CompactRegionClosure_apply example_model 4100 example_heap
    = Ret (@size example_model example_heap 4100, example_heap) /\
  (forall obj' sz h',
     @G1CompactRegionClosure_apply example_model obj' example_heap = Ret (sz, h') ->
     sz = @size example_model example_heap obj' /\
     ((exists x, h' x <> example_heap x) ->
      @forwardee example_model example_heap obj' <> 0 /\
      @forwardee example_model example_heap obj' <> obj' /\
      h' = @init_mark_raw example_model (@forwardee example_model example_heap obj')
             (aligned_conjoint_words obj' (@forwardee example_model example_heap obj')
                (@size example_model example_heap obj') example_heap))).
Proof.
  apply (@compact_closure_skips_unforwarded example_model example_heap 4100).
  reflexivity.
Defined.




End CompactFacts.

Module STSFacts.
Import STS STSSpec.

Lemma count_nonneg x l : 0 <= count x l.
Proof. induction l as [|y l IH]; cbn; [lia|]. destruct (same_state y x); lia. Qed.

Lemma count_insert (l : list thread_state) (t : nat) (x y z : thread_state) :
  l !! t = Some y ->
  count z (<[t := x]> l) = count z l - indicator y z + indicator x z.
Proof.
  revert t. induction l as [|w l IH]; intros t Hl; [discriminate|].
  destruct t as [|t]; cbn in *.
  - injection Hl as ->. unfold indicator. lia.
  - etransitivity; [apply f_equal, (IH t Hl)|lia].
Qed.

Lemma count_lookup (l : list thread_state) (t : nat) (y : thread_state) :
  l !! t = Some y -> 1 <= count y l.
Proof.
  revert t. induction l as [|w l IH]; intros t Hl; [discriminate|].
  destruct t as [|t]; cbn in *.
  - injection Hl as ->. pose proof (count_nonneg y l). destruct y; cbn; lia.
  - specialize (IH t Hl). destruct (same_state w y); lia.
Qed.

Lemma count_replicate_outside n x :
  x <> Outside -> count x (replicate n Outside) = 0.
Proof. intros Hx. induction n as [|n IH]; cbn; [reflexivity|]. destruct x; try contradiction; cbn; lia. Qed.

Lemma invariant_init n : invariant (init n).
Proof.
  unfold invariant, init, joined, parked; cbn.
  rewrite !count_replicate_outside by discriminate. repeat split; lia.
Qed.

Ltac count_step Hl :=
  unfold joined, parked in *; cbn [threads set_thread nthreads nthreads_stopped
    suspend_all synchronize_wakeup vm signals semaphore_signal set_vm] in *;
  rewrite ?(count_insert _ _ _ _ _ Hl); unfold indicator; cbn [same_state].

Lemma invariant_step s s' : invariant s -> step s s' -> invariant s'.
Proof.
  intros (Hn & Hs & Hsig & Hvm) Hstep. destruct Hstep as [c s s' Hrun].
  pose proof (count_nonneg Running (threads s)) as HcR.
  pose proof (count_nonneg Parked (threads s)) as HcP.
  destruct c as [t|t|t|t| | |]; cbn [run] in Hrun.
  - (* join *)
    unfold join in Hrun. destruct (threads s !! t) as [[| |]|] eqn:Hl; try discriminate.
    destruct (suspend_all s) eqn:Hsus; [discriminate|]. injection Hrun as <-.
    unfold invariant. count_step Hl.
    destruct (vm s); destruct Hvm as (Hf & Hrest); try congruence.
    rewrite ?Hsus. repeat split; try lia.
  - (* leave *)
    unfold leave in Hrun. destruct (threads s !! t) as [[| |]|] eqn:Hl; try discriminate.
    pose proof (count_lookup _ _ _ Hl) as Hone.
    destruct (0 <? nthreads s) eqn:Hpos; [|discriminate].
    cbn [suspend_all set_thread] in Hrun. unfold is_synchronized in Hrun.
    cbn [nthreads nthreads_stopped set_thread] in Hrun.
    unfold joined, parked in Hn, Hs.
    destruct (suspend_all s) eqn:Hsus.
    + destruct (vm s) eqn:Hv; destruct Hvm as (Hf & Hrest); try congruence.
      * destruct Hrest as (Hss & [[Hw He]|[Hw Hlt]]); [lia|].
        destruct (Z.leb_spec (nthreads_stopped s) (nthreads s - 1)); [|lia].
        destruct (Z.eqb_spec (nthreads_stopped s) (nthreads s - 1)) as [Heq|Hne];
          injection Hrun as <-; unfold invariant; count_step Hl; rewrite ?Hv, ?Hsus;
          repeat split; try lia; solve [left; lia | right; lia].
      * destruct Hrest as (Hw & He). lia.
    + injection Hrun as <-. unfold invariant. count_step Hl.
      destruct (vm s); destruct Hvm as (Hf & Hrest); try congruence.
      rewrite ?Hsus. repeat split; try lia.
  - (* yield *)
    unfold yield in Hrun. destruct (threads s !! t) as [[| |]|] eqn:Hl; try discriminate.
    pose proof (count_lookup _ _ _ Hl) as Hone.
    unfold joined, parked in Hn, Hs.
    destruct (suspend_all s) eqn:Hsus.
    + unfold is_synchronized in Hrun. cbn [nthreads nthreads_stopped] in Hrun.
      destruct (vm s) eqn:Hv; destruct Hvm as (Hf & Hrest); try congruence.
      * destruct Hrest as (Hss & [[Hw He]|[Hw Hlt]]); [lia|].
        destruct (Z.leb_spec (nthreads_stopped s + 1) (nthreads s)); [|lia].
        destruct (Z.eqb_spec (nthreads_stopped s + 1) (nthreads s)) as [Heq|Hne];
          injection Hrun as <-; unfold invariant; count_step Hl; rewrite ?Hv, ?Hsus;
          repeat split; try lia; solve [left; lia | right; lia].
      * destruct Hrest as (Hw & He). lia.
    + injection Hrun as <-. unfold invariant, joined, parked.
      rewrite Hsus. split; [exact Hn|split; [exact Hs|split; [exact Hsig|exact Hvm]]].
  - (* resume *)
    unfold yield_resume in Hrun.
    destruct (threads s !! t) as [[| |]|] eqn:Hl; try discriminate.
    pose proof (count_lookup _ _ _ Hl) as Hone.
    destruct (suspend_all s) eqn:Hsus; [discriminate|].
    destruct (0 <? nthreads_stopped s); [|discriminate]. injection Hrun as <-.
    unfold invariant. count_step Hl.
    destruct (vm s); destruct Hvm as (Hf & Hrest); try congruence.
    rewrite ?Hsus. repeat split; try lia.
  - (* synchronize *)
    unfold synchronize in Hrun. destruct (vm s) eqn:Hv; try discriminate.
    destruct Hvm as (Hf & Hw). rewrite Hf in Hrun.
    unfold is_synchronized in Hrun. cbn [nthreads nthreads_stopped] in Hrun.
    unfold joined, parked in Hn, Hs.
    destruct (Z.leb_spec (nthreads_stopped s) (nthreads s)); [|lia].
    destruct (Z.eqb_spec (nthreads_stopped s) (nthreads s)) as [Heq|Hne];
      injection Hrun as <-; unfold invariant; count_step Hv; repeat split; try lia;
      solve [left; lia | right; lia].
  - (* the semaphore wait *)
    unfold synchronize_wait in Hrun. destruct (vm s) eqn:Hv; try discriminate.
    destruct Hvm as (Hf & Hss & Hcases).
    destruct (Z.ltb_spec 0 (synchronize_wakeup s)); [|discriminate].
    cbn [suspend_all] in Hrun. rewrite Hf in Hrun.
    unfold is_synchronized in Hrun. cbn [nthreads nthreads_stopped] in Hrun.
    destruct Hcases as [[Hw He]|[Hw Hlt]]; [|lia].
    destruct (Z.leb_spec (nthreads_stopped s) (nthreads s)); [|lia].
    destruct (Z.eqb_spec (nthreads_stopped s) (nthreads s)); [|lia].
    injection Hrun as <-. unfold invariant. count_step Hv. repeat split; try lia.
  - (* desynchronize *)
    unfold desynchronize in Hrun. destruct (vm s) eqn:Hv; try discriminate.
    destruct Hvm as (Hf & Hw & He). rewrite Hf in Hrun.
    unfold is_synchronized in Hrun.
    destruct (Z.leb_spec (nthreads_stopped s) (nthreads s)); [|lia].
    destruct (Z.eqb_spec (nthreads_stopped s) (nthreads s)); [|lia].
    injection Hrun as <-. unfold invariant. count_step Hv. repeat split; try lia.
Qed.

Lemma reachable_invariant n s : reachable n s -> invariant s.
Proof.
  induction 1 as [|s s' _ IH Hstep]; [apply invariant_init|].
  eapply invariant_step; eauto.
Qed.

Lemma run_all_reachable n cs s s' :
  reachable n s -> run_all cs s = Some s' -> reachable n s'.
Proof.
  revert s. induction cs as [|c cs IH]; intros s Hr Hrun; cbn in Hrun.
  - injection Hrun as <-. exact Hr.
  - destruct (run c s) as [s1| |] eqn:Hc; try discriminate.
    apply (IH s1); [|exact Hrun]. eapply reach_step; [exact Hr|]. econstructor; exact Hc.
Qed.

Lemma signal_only_by_last n c s s' :
  reachable n s -> vm s = VMWaiting -> run c s = Done s' ->
  signals s' <> signals s ->
  (exists t, c = CYield t \/ c = CLeave t) /\
  signals s = 0 /\ signals s' = 1 /\ nthreads_stopped s' = nthreads s'.
Proof.
  intros Hr Hv Hrun Hne.
  assert (Hr' : reachable n s') by (eapply reach_step; [exact Hr|econstructor; exact Hrun]).
  destruct (reachable_invariant n s Hr) as (_ & _ & Hsig & _).
  destruct (reachable_invariant n s' Hr') as (_ & _ & Hsig' & _).
  destruct c as [t|t|t|t| | |]; cbn [run] in Hrun.
  - exfalso. unfold join in Hrun.
    destruct (threads s !! t) as [[| |]|]; try discriminate.
    destruct (suspend_all s); [discriminate|]. injection Hrun as <-. apply Hne; reflexivity.
  - unfold leave in Hrun.
    destruct (threads s !! t) as [[| |]|]; try discriminate.
    destruct (0 <? nthreads s); [|discriminate].
    cbn [suspend_all set_thread] in Hrun.
    destruct (suspend_all s).
    + unfold is_synchronized in Hrun.
      cbn [nthreads nthreads_stopped set_thread] in Hrun.
      destruct (nthreads_stopped s <=? nthreads s - 1); [|discriminate].
      destruct (Z.eqb_spec (nthreads_stopped s) (nthreads s - 1)) as [He|_].
      * injection Hrun as <-. cbn in *. split; [eauto|]. lia.
      * injection Hrun as <-. exfalso; apply Hne; reflexivity.
    + injection Hrun as <-. exfalso; apply Hne; reflexivity.
  - unfold yield in Hrun.
    destruct (threads s !! t) as [[| |]|]; try discriminate.
    destruct (suspend_all s).
    + unfold is_synchronized in Hrun.
      cbn [nthreads nthreads_stopped set_thread] in Hrun.
      destruct (nthreads_stopped s + 1 <=? nthreads s); [|discriminate].
      destruct (Z.eqb_spec (nthreads_stopped s + 1) (nthreads s)) as [He|_].
      * injection Hrun as <-. cbn in *. split; [eauto|]. lia.
      * injection Hrun as <-. exfalso; apply Hne; reflexivity.
    + injection Hrun as <-. exfalso; apply Hne; reflexivity.
  - exfalso. unfold yield_resume in Hrun.
    destruct (threads s !! t) as [[| |]|]; try discriminate.
    destruct (suspend_all s); [discriminate|].
    destruct (0 <? nthreads_stopped s); [|discriminate].
    injection Hrun as <-. apply Hne; reflexivity.
  - unfold synchronize in Hrun. rewrite Hv in Hrun. discriminate.
  - exfalso. unfold synchronize_wait in Hrun. rewrite Hv in Hrun.
    destruct (0 <? synchronize_wakeup s); [|discriminate].
    destruct (suspend_all s); [|discriminate].
    destruct (is_synchronized _) as [[|]|]; try discriminate.
    injection Hrun as <-. apply Hne; reflexivity.
  - unfold desynchronize in Hrun. rewrite Hv in Hrun. discriminate.
Qed.

(** C9, as the code has it.  In every state the threads can reach by
    their calls, each critical section being one step under the lock,
    the two counters count the joined and the parked threads.  A call of
    [synchronize] between requests goes through; it returns at once,
    with no signal given or pending, when every joined thread is stopped
    already, and waits on the semaphore otherwise.  While it waits, the
    semaphore is signalled once and no more, by a [yield] or a [leave]
    after which the stopped threads are all the joined threads; the wait
    returns exactly when they are, with that one signal given and
    consumed, and blocks exactly while they are not.  Once [synchronize]
    has returned the request is up, all joined threads are stopped and
    no signal is left on the semaphore. *)
Theorem synchronize_signalled_once_when_waiting (n : nat) (s : state) :
  reachable n s ->
  nthreads s = joined s /\ nthreads_stopped s = parked s /\
  nthreads_stopped s <= nthreads s /\
  0 <= signals s <= 1 /\
  (vm s = VMIdle ->
   exists s',
     synchronize s = Done s' /\ signals s' = 0 /\ synchronize_wakeup s' = 0 /\
     (nthreads_stopped s = nthreads s -> vm s' = VMSynchronized) /\
     (nthreads_stopped s < nthreads s -> vm s' = VMWaiting)) /\
  (vm s = VMWaiting ->
   synchronize_wakeup s = signals s /\
   (signals s = 1 <-> nthreads_stopped s = nthreads s) /\
   (synchronize_wait s = Blocked <-> nthreads_stopped s < nthreads s) /\
   ((exists s', synchronize_wait s = Done s') <-> nthreads_stopped s = nthreads s) /\
   (forall s', synchronize_wait s = Done s' ->
      vm s' = VMSynchronized /\ signals s' = 1 /\ synchronize_wakeup s' = 0) /\
   (forall c s', run c s = Done s' -> signals s' <> signals s ->
      (exists t, c = CYield t \/ c = CLeave t) /\
      signals s = 0 /\ signals s' = 1 /\ nthreads_stopped s' = nthreads s')) /\
  (vm s = VMSynchronized ->
   suspend_all s = true /\ nthreads_stopped s = nthreads s /\ synchronize_wakeup s = 0).
Proof.
  intros Hr. destruct (reachable_invariant n s Hr) as (Hn & Hs & Hsig & Hvm).
  pose proof (count_nonneg Running (threads s)) as HcR.
  assert (Hle : nthreads_stopped s <= nthreads s) by (unfold joined, parked in *; lia).
  split; [exact Hn|]. split; [exact Hs|]. split; [exact Hle|]. split; [exact Hsig|].
  split; [|split]; intros Hv; rewrite Hv in Hvm.
  - destruct Hvm as (Hf & Hw).
    unfold synchronize. rewrite Hv, Hf. unfold is_synchronized.
    cbn [nthreads nthreads_stopped].
    destruct (Z.leb_spec (nthreads_stopped s) (nthreads s)); [|lia].
    destruct (Z.eqb_spec (nthreads_stopped s) (nthreads s)) as [He|Hne];
      eexists; (split; [reflexivity|]); cbn; repeat split; auto; intros; lia.
  - destruct Hvm as (Hf & Hss & Hcases). split; [congruence|].
    split; [|split; [|split; [|split]]].
    + destruct Hcases as [[Hw He]|[Hw Hlt]]; split; intros; lia.
    + unfold synchronize_wait. rewrite Hv, Hf. unfold is_synchronized.
      cbn [nthreads nthreads_stopped].
      destruct Hcases as [[Hw He]|[Hw Hlt]].
      * rewrite Hw, He. cbn. rewrite Z.leb_refl, Z.eqb_refl.
        split; intros; [discriminate|lia].
      * rewrite Hw. cbn. split; intros; [lia|reflexivity].
    + unfold synchronize_wait. rewrite Hv, Hf. unfold is_synchronized.
      cbn [nthreads nthreads_stopped].
      destruct Hcases as [[Hw He]|[Hw Hlt]].
      * rewrite Hw, He. cbn. rewrite Z.leb_refl, Z.eqb_refl.
        split; intros; [reflexivity|eauto].
      * rewrite Hw. cbn. split; [intros [s' Hd]; discriminate|intros; lia].
    + intros s'. unfold synchronize_wait. rewrite Hv, Hf. unfold is_synchronized.
      cbn [nthreads nthreads_stopped].
      destruct Hcases as [[Hw He]|[Hw Hlt]].
      * rewrite Hw, He. cbn. rewrite Z.leb_refl, Z.eqb_refl.
        intros [= <-]. cbn. repeat split; lia.
      * rewrite Hw. cbn. discriminate.
    + intros c s'. apply (signal_only_by_last n); assumption.
  - tauto.
Qed.

Lemma example_state_reachable : reachable 2 example_state.
Proof.
  apply (run_all_reachable 2 example_calls (init 2)); [apply reach_init|reflexivity].
Qed.

Lemma synchronize_signalled_once_when_waiting_witness :
  nthreads example_state = joined example_state /\
  nthreads_stopped example_state = parked example_state /\
  nthreads_stopped example_state <= nthreads example_state /\
  0 <= signals example_state <= 1 /\
  (vm example_state = VMIdle ->
   exists s',
     synchronize example_state = Done s' /\ signals s' = 0 /\ synchronize_wakeup s' = 0 /\
     (nthreads_stopped example_state = nthreads example_state -> vm s' = VMSynchronized) /\
     (nthreads_stopped example_state < nthreads example_state -> vm s' = VMWaiting)) /\
  (vm example_state = VMWaiting ->
   synchronize_wakeup example_state = signals example_state /\
   (signals example_state = 1 <-> nthreads_stopped example_state = nthreads example_state) /\
   (synchronize_wait example_state = Blocked
    <-> nthreads_stopped example_state < nthreads example_state) /\
   ((exists s', synchronize_wait example_state = Done s')
    <-> nthreads_stopped example_state = nthreads example_state) /\
   (forall s', synchronize_wait example_state = Done s' ->
      vm s' = VMSynchronized /\ signals s' = 1 /\ synchronize_wakeup s' = 0) /\
   (forall c s', run c example_state = Done s' -> signals s' <> signals example_state ->
      (exists t, c = CYield t \/ c = CLeave t) /\
      signals example_state = 0 /\ signals s' = 1 /\ nthreads_stopped s' = nthreads s')) /\
  (vm example_state = VMSynchronized ->
   suspend_all example_state = true /\
   nthreads_stopped example_state = nthreads example_state /\
   synchronize_wakeup example_state = 0).
Proof.
  apply (synchronize_signalled_once_when_waiting 2 example_state).
  apply (run_all_reachable 2 example_calls (init 2)); [apply reach_init|reflexivity].
Defined.

(** C9 as stated fails when every joined thread is stopped already as
    [synchronize] is called: the call returns at once and the semaphore
    is not signalled at all.  So it is with no thread in the set, and so
    it is with one thread that is still parked from the request
    before. *)
Lemma synchronize_without_signal_counterexample :
  (exists s, run_all [CSynchronize] (init 0) = Some s /\
             nthreads s = 0 /\ vm s = VMSynchronized /\
             signals s = 0 /\ synchronize_wakeup s = 0) /\
  (exists s, run_all lingering_calls (init 1) = Some s /\
             nthreads s = 1 /\ nthreads_stopped s = 1 /\ vm s = VMSynchronized /\
             signals s = 0 /\ synchronize_wakeup s = 0).
Proof.
  split; eexists; (split; [reflexivity|]); cbn; repeat split.
Qed.

End STSFacts.

(** * Further properties of the code *)

Module BOTMore.
Import BOT BOTSpec BOTFacts BOTMoreSpec.

Ltac run_asserts :=
  repeat match goal with
         | |- context [assert ?b] =>
           let E := fresh "E" in destruct b eqn:E; cbn [assert mbind res_bind]; [|reflexivity]
         end.

Section Table.
Context `{BOTConstants}.
Hypothesis Hok : constants_ok.

(** X1.  [is_card_boundary(p)], for [p] at or above the start of the
    reserved heap: the test of the low [LogN_words] bits of the distance
    from the start says exactly that [p] is the first word of its card,
    that is, that the distance is a multiple of the card size. *)
Theorem card_boundary_is_alignment (p : Z) :
  reserved_start <= p ->
  (is_card_boundary p = true <-> address_for_index (index_for p) = p) /\
  (is_card_boundary p = true <-> (p - reserved_start) mod N_words = 0) /\
  (is_card_boundary p = false <-> address_for_index (index_for p) < p).
Proof.
  intros Hp. pose proof (N_words_pos Hok) as HN.
  assert (Hmod : Z.land (p - reserved_start) (Z.ones LogN_words)
                 = (p - reserved_start) mod N_words).
  { rewrite N_words_pow. apply Z.land_ones. apply Hok. }
  assert (Hnz : N_words <> 0) by lia.
  assert (Hnp : 0 < N_words) by lia.
  pose proof (Z.div_mod (p - reserved_start) N_words Hnz) as Hdm.
  pose proof (Z.mod_pos_bound (p - reserved_start) N_words Hnp) as Hb.
  assert (Haddr : address_for_index (index_for p)
                  = p - (p - reserved_start) mod N_words).
  { rewrite (address_for_index_mul Hok), (index_for_div Hok). lia. }
  unfold is_card_boundary, pointer_delta. rewrite Hmod, Haddr.
  destruct (Z.eqb_spec ((p - reserved_start) mod N_words) 0) as [He|Hne].
  - repeat split; intros; try lia; try discriminate; auto.
  - repeat split; intros; try lia; try discriminate; auto.
Qed.

(** X2.  [set_remainder_to_point_to_start(start, end)] on the cards
    [start_card .. end_card] behind an offset card: every card of the
    range receives the logarithmic code [N_words + i] of the power
    [Base^i] its distance from the offset card falls under, so that the
    skip it decodes to never passes the offset card, and no card outside
    the range is written.  An empty range is left alone; a [start] that
    is not the first word of a card, or a range that begins on the first
    card of the space, stops on an assertion. *)
Theorem set_remainder_stamps_codes (sp : Space) (start_card end_card : Z) (T : table) :
  start_card <= end_card ->
  index_for (bottom sp) < start_card ->
  T (start_card - 1) <= N_words ->
  end_card - (start_card - 1) < power_to_cards_back N_powers ->
  (exists T',
     set_remainder_to_point_to_start sp (address_for_index start_card)
       (address_for_index end_card + N_words) T = Ret T' /\
     (forall c, start_card <= c <= end_card ->
        exists i, 0 <= i < N_powers /\ T' c = N_words + i /\
          power_to_cards_back i <= c - (start_card - 1) < power_to_cards_back (i + 1) /\
          start_card - 1 <= c - entry_to_cards_back (T' c) < c) /\
     (forall c, ~ (start_card <= c <= end_card) -> T' c = T c)) /\
  (forall start end', end' <= start ->
     set_remainder_to_point_to_start sp start end' T = Ret T) /\
  (forall start end', start < end' -> address_for_index (index_for start) <> start ->
     set_remainder_to_point_to_start sp start end' T = Fatal) /\
  (forall end_card', index_for (bottom sp) <= end_card' ->
     set_remainder_to_point_to_start_incl sp (index_for (bottom sp)) end_card' T = Fatal).
Proof.
  intros Hle Hfirst Hoff Hreach. pose proof (N_words_pos Hok) as HN.
  split; [|split; [|split]].
  - destruct (set_remainder_incl_spec Hok sp start_card end_card T Hle Hfirst Hoff Hreach)
      as (T' & Hrun & Hst & Hfr).
    exists T'. split; [|split; [|exact Hfr]].
    + unfold set_remainder_to_point_to_start.
      assert (Hlt : address_for_index start_card < address_for_index end_card + N_words).
      { rewrite !(address_for_index_mul Hok). nia. }
      destruct (Z.leb_spec (address_for_index end_card + N_words)
                  (address_for_index start_card)); [lia|].
      rewrite (index_for_address Hok).
      replace (index_for (address_for_index end_card + N_words - 1)) with end_card
        by (symmetry; apply (index_for_unique Hok); lia).
      rewrite !Z.eqb_refl. cbn. exact Hrun.
    + intros c Hc. destruct (Hst c Hc) as (i & Hi & HT & Hpow).
      exists i. split; [exact Hi|]. split; [exact HT|]. split; [exact Hpow|].
      unfold entry_to_cards_back. rewrite HT.
      replace (N_words + i - N_words) with i by lia.
      pose proof (power_to_cards_back_pos Hok i ltac:(lia)). lia.
  - intros start end' Hempty. unfold set_remainder_to_point_to_start.
    destruct (Z.leb_spec end' start); [reflexivity|lia].
  - intros start end' Hlt Hna. unfold set_remainder_to_point_to_start.
    destruct (Z.leb_spec end' start); [lia|].
    destruct (Z.eqb_spec start (address_for_index (index_for start))); [congruence|].
    reflexivity.
  - intros end_card' Hec. unfold set_remainder_to_point_to_start_incl.
    destruct (Z.ltb_spec end_card' (index_for (bottom sp))); [lia|].
    rewrite Z.ltb_irrefl. reflexivity.
Qed.

(** X3.  [alloc_block_work] for a block that starts at most one card
    before the threshold and ends beyond it: the call returns, the card
    of the threshold holds the distance in words back to the block's
    start, the later cards of the block hold logarithmic codes, no other
    card is written, and the new threshold is the first card boundary at
    or after the block's end, with the new index its card.  A block that
    is empty or starts at [NULL], that does not reach beyond the
    threshold, that starts after the threshold or more than a card
    before it, or a threshold that is not the address of the index, is
    rejected by an assertion. *)
Theorem alloc_block_work_records_block (sp : Space)
    (threshold index blk_start blk_end : Z) (T : table) :
  0 < blk_start -> blk_start < blk_end -> threshold < blk_end ->
  blk_start <= threshold -> threshold - blk_start <= N_words ->
  reserved_start <= blk_start -> blk_end <= reserved_end ->
  threshold = address_for_index index ->
  index_for (bottom sp) <= index ->
  index_for (blk_end - 1) - index < power_to_cards_back N_powers ->
  (exists threshold' index' T',
     alloc_block_work sp threshold index blk_start blk_end T
       = Ret (threshold', index', T') /\
     threshold' = address_for_index index' /\
     blk_end <= threshold' < blk_end + N_words /\
     index' = index_for (blk_end - 1) + 1 /\
     T' index = threshold - blk_start /\
     stamped T' (index + 1) (index_for (blk_end - 1)) /\
     (forall c, ~ (index <= c <= index_for (blk_end - 1)) -> T' c = T c)) /\
  (forall threshold0 index0 blk_start0 blk_end0 T0,
     blk_start0 = 0 \/ blk_end0 <= blk_start0 \/ blk_end0 <= threshold0 \/
     threshold0 < blk_start0 \/ N_words < threshold0 - blk_start0 \/
     threshold0 <> reserved_start + index0 * N_words ->
     alloc_block_work sp threshold0 index0 blk_start0 blk_end0 T0 = Fatal).
Proof.
  intros Hpos Hlt Hthr Hst Hdelta Hrs Hre Haddr Hidx Hreach.
  pose proof (N_words_pos Hok) as HN. split.
  - destruct (alloc_block_work_spec Hok sp threshold index blk_start blk_end T
                Hpos Hlt Hthr Hst Hdelta Hrs Hre Haddr Hidx Hreach)
      as (T' & Hrun & Hoff & Hstamp & Hfr).
    exists (address_for_index (index_for (blk_end - 1)) + N_words),
      (index_for (blk_end - 1) + 1), T'.
    pose proof (index_for_bounds Hok (blk_end - 1)) as Hb.
    repeat split; auto; try lia.
    rewrite (address_for_index_succ Hok). reflexivity.
  - intros threshold0 index0 blk_start0 blk_end0 T0 Hbad.
    unfold alloc_block_work, pointer_delta. run_asserts. exfalso.
    repeat match goal with
           | E : (_ && _) = true |- _ => apply andb_prop in E; destruct E
           | E : negb _ = true |- _ => apply negb_true_iff in E
           end.
    repeat match goal with
           | E : (_ =? _) = true |- _ => apply Z.eqb_eq in E
           | E : (_ =? _) = false |- _ => apply Z.eqb_neq in E
           | E : (_ <? _) = true |- _ => apply Z.ltb_lt in E
           | E : (_ <=? _) = true |- _ => apply Z.leb_le in E
           end.
    lia.
Qed.

Section Lookup.
Context `{HeapView}.

Lemma not_card_boundary_lt (p : Z) :
  is_card_boundary p = false -> address_for_index (index_for p) < p.
Proof.
  intros Hb. pose proof (N_words_pos Hok) as HN.
  assert (Hnz : N_words <> 0) by lia. assert (Hnp : 0 < N_words) by lia.
  pose proof (Z.div_mod (p - reserved_start) N_words Hnz) as Hdm.
  pose proof (Z.mod_pos_bound (p - reserved_start) N_words Hnp) as Hbd.
  unfold is_card_boundary, pointer_delta in Hb.
  rewrite Z.land_ones in Hb by apply Hok. rewrite <- N_words_pow in Hb.
  apply Z.eqb_neq in Hb.
  rewrite (address_for_index_mul Hok), (index_for_div Hok). lia.
Qed.

Lemma first_boundary (n : Z) :
  address_for_index (index_for n)
    + (if index_for n =? index_for n + (if is_card_boundary n then 0 else 1)
       then 0 else N_words)
  = address_for_index (index_for (n - 1) + 1) /\
  index_for n + (if is_card_boundary n then 0 else 1) = index_for (n - 1) + 1 /\
  n <= address_for_index (index_for (n - 1) + 1) < n + N_words.
Proof.
  pose proof (N_words_pos Hok) as HN.
  pose proof (index_for_bounds Hok n) as Hb.
  destruct (is_card_boundary n) eqn:Hcb.
  - pose proof (is_card_boundary_address Hok n Hcb) as Hal.
    assert (Hprev : index_for (n - 1) = index_for n - 1).
    { apply (index_for_unique Hok).
      pose proof (address_for_index_succ Hok (index_for n - 1)) as Hs.
      replace (index_for n - 1 + 1) with (index_for n) in Hs by lia. lia. }
    rewrite Hprev. replace (index_for n - 1 + 1) with (index_for n) by lia.
    rewrite !Z.add_0_r, Z.eqb_refl, Z.add_0_r. split; [reflexivity|]. split; [reflexivity|lia].
  - pose proof (not_card_boundary_lt n Hcb) as Hlt.
    assert (Hprev : index_for (n - 1) = index_for n) by (apply (index_for_unique Hok); lia).
    rewrite Hprev. destruct (Z.eqb_spec (index_for n) (index_for n + 1)); [lia|].
    rewrite (address_for_index_succ Hok). split; [reflexivity|]. split; [reflexivity|lia].
Qed.

Lemma slow_inner_spec (sp : Space) (rest : list (Z * Z)) :
  forall q n next_boundary (fuel : nat),
    contiguous n rest -> heap_agrees rest -> last_end n rest <= top sp ->
    n <= next_boundary < last_end n rest -> (length rest <= fuel)%nat ->
    exists s e,
      In (s, e) rest /\ s <= next_boundary < e /\
      slow_inner_loop fuel sp q n next_boundary = Ret (inr (s, e)).
Proof.
  induction rest as [|[s0 e0] rest IH]; intros q n nb fuel Hcont Hag Htop Hnb Hfuel.
  - cbn in Hnb. lia.
  - destruct Hcont as (-> & Hlt & Hcont'). cbn [last_end] in Htop, Hnb.
    destruct fuel as [|fuel]; [cbn in Hfuel; lia|]. cbn [slow_inner_loop].
    destruct (Z.leb_spec n nb); [|lia].
    destruct (Hag n e0 (or_introl eq_refl)) as [Hsz Hk]. rewrite Hk. cbn [negb].
    pose proof (contiguous_le _ _ Hcont') as Hle.
    unfold block_size. destruct (Z.eqb_spec n (top sp)); [lia|]. rewrite Hsz.
    replace (n + (e0 - n)) with e0 by lia.
    destruct (Z_le_gt_dec e0 nb) as [Hmore|Hstop].
    + destruct (IH n e0 nb fuel Hcont') as (s & e & Hin & Hse & Hrun).
      { intros s e Hin. apply Hag. right; exact Hin. }
      { exact Htop. }
      { lia. }
      { cbn in Hfuel. lia. }
      exists s, e. split; [right; exact Hin|]. split; [exact Hse|exact Hrun].
    + exists n, e0. split; [left; reflexivity|]. split; [lia|].
      destruct fuel; cbn [slow_inner_loop]; (destruct (Z.leb_spec e0 nb); [lia|reflexivity]).
Qed.

Lemma stamped_entries_ok (objs : list (Z * Z)) (T1 : table) (first index s e : Z) :
  In (s, e) objs -> s <= address_for_index index < e ->
  first <= index ->
  T1 index = address_for_index index - s -> address_for_index index - s < N_words ->
  stamped T1 (index + 1) (index_for (e - 1)) ->
  forall c, index <= c <= index_for (e - 1) -> entry_ok objs T1 first c.
Proof.
  intros Hin Hcov Hfirst Hoff Hsmall Hst c Hc.
  pose proof (index_for_bounds Hok (e - 1)) as Hbe.
  exists s, e. split; [exact Hin|].
  assert (Hcc : s <= address_for_index c < e).
  { assert (H1 : index <= c) by lia. assert (H2 : c <= index_for (e - 1)) by lia.
    pose proof (address_for_index_mono Hok _ _ H1).
    pose proof (address_for_index_mono Hok _ _ H2). lia. }
  split; [exact Hcc|].
  destruct (Z.eq_dec c index) as [->|Hne].
  - left. rewrite Hoff. split; lia.
  - right. assert (Hc' : index + 1 <= c <= index_for (e - 1)) by lia.
    destruct (Hst c Hc') as (i & Hi & Hv & Hb).
    replace (index + 1 - 1) with index in Hb by lia.
    rewrite Hv.
    assert (Hk : entry_to_cards_back (N_words + i) = power_to_cards_back i).
    { unfold entry_to_cards_back. f_equal. lia. }
    rewrite Hk.
    assert (Hi0 : 0 <= i) by lia.
    pose proof (power_to_cards_back_pos Hok i Hi0) as Hpos.
    split; [lia|]. split; [lia|]. split; [lia|]. split.
    + assert (Hge : index <= c - power_to_cards_back i) by lia.
      pose proof (address_for_index_mono Hok _ _ Hge). lia.
    + destruct (Z.eq_dec (c - power_to_cards_back i) index) as [Heq|Hneq].
      * rewrite Heq, Hoff. lia.
      * assert (Hl : index + 1 <= c - power_to_cards_back i <= index_for (e - 1)) by lia.
        destruct (Hst _ Hl) as (j & Hj & Hvj & Hbj).
        replace (index + 1 - 1) with index in Hbj by lia.
        assert (Hj0 : 0 <= j) by lia.
        assert (Hji : j <= i) by (apply (power_to_cards_back_lt Hok); lia).
        rewrite Hvj. lia.
Qed.

Section Outer.
Variable sp : Space.
Variable objs : list (Z * Z).
Variable addr first e_addr : Z.
Hypothesis Hsp : space_ok sp.
Hypothesis Hcont : contiguous (bottom sp) objs.
Hypothesis Htop : last_end (bottom sp) objs = top sp.
Hypothesis Hag : heap_agrees objs.
Hypothesis Haddr : addr < top sp.
Hypothesis Hcover : exists s_addr, In (s_addr, e_addr) objs /\ s_addr <= addr < e_addr.

Lemma slow_outer_spec (fuel : nat) :
  forall q n next_boundary next_index (T0 T : table),
    In (q, n) objs -> q <= addr ->
    next_boundary = address_for_index next_index ->
    n <= next_boundary < n + N_words ->
    first <= next_index ->
    (forall c, first <= c < next_index -> entry_ok objs T first c) ->
    (forall c, c < first \/ index_for (e_addr - 1) < c -> T c = T0 c) ->
    (Z.to_nat (top sp - n) < fuel)%nat ->
    exists q' n' T',
      slow_outer_loop fuel sp q n next_boundary next_index addr T = Ret (inr (q', n'), T') /\
      In (q', n') objs /\ q' <= addr /\
      (forall c, first <= c -> address_for_index c < addr -> entry_ok objs T' first c) /\
      (forall c, c < first \/ index_for (e_addr - 1) < c -> T' c = T0 c).
Proof.
  pose proof (N_words_pos Hok) as HN.
  pose proof Hsp as (Hal & Hnz & Hr1 & Hr2 & Hte & Hlen).
  induction fuel as [|fuel IH];
    intros q n nb ni T0 T Hin Hq Hnb Hrange Hfirst Hent Hframe Hfuel; [lia|].
  destruct (contiguous_in _ _ _ _ Hcont Hin) as (Hbq & Hqn & Hntop). rewrite Htop in Hntop.
  cbn [slow_outer_loop]. destruct (Z.ltb_spec nb addr) as [Hgo|Hstop].
  - (* one more boundary to cross *)
    destruct (contiguous_suffix _ _ _ _ Hcont Hin) as (rest & Hrc & Hrl & Hrin & Hrsub).
    rewrite Htop in Hrl.
    assert (Hrag : heap_agrees rest) by (intros s e Hse; apply Hag, Hrsub, Hse).
    pose proof (contiguous_length _ _ Hrc) as Hlenr. rewrite Hrl in Hlenr.
    destruct (slow_inner_spec sp rest q n nb fuel Hrc Hrag) as (s & e & Hse & Hcross & Hrun);
      [lia|lia|lia|].
    rewrite Hrun. cbn [mbind res_bind].
    pose proof (Hrsub _ Hse) as Hse'.
    destruct (contiguous_in _ _ _ _ Hrc Hse) as (Hns & Hlt & Hetop). rewrite Hrl in Hetop.
    pose proof (index_for_bounds Hok (e - 1)) as Hbe.
    assert (Hni : index_for (bottom sp) <= ni).
    { assert (Hm : index_for (bottom sp) <= index_for nb)
        by (apply (index_for_mono Hok); lia).
      rewrite Hnb, (index_for_address Hok) in Hm. exact Hm. }
    assert (Hbound : index_for (e - 1) - ni < power_to_cards_back N_powers).
    { assert (Hafi : forall x, address_for_index x
                               = bottom sp + (x - index_for (bottom sp)) * N_words).
      { intros x. rewrite <- Hal at 1. rewrite !(address_for_index_mul Hok). lia. }
      rewrite Hafi in Hbe.
      assert ((index_for (e - 1) - index_for (bottom sp)) * N_words
              < N_words * power_to_cards_back N_powers) by lia.
      assert (index_for (e - 1) - index_for (bottom sp) < power_to_cards_back N_powers) by nia.
      lia. }
    destruct (alloc_block_work_spec Hok sp nb ni s e T) as (T1 & Hwork & Hoff & Hst & Hfr);
      try lia.
    rewrite Hwork. cbn [mbind res_bind].
    assert (Headdr : e <= e_addr).
    { destruct Hcover as (sa & Hina & Hsa).
      destruct (contiguous_ordered _ _ _ _ _ _ Hcont Hse' Hina) as [[= -> ->]|[Hord|Hord]]; lia. }
    assert (Hidx : index_for (e - 1) <= index_for (e_addr - 1))
      by (apply (index_for_mono Hok); lia).
    assert (Hnie : ni <= index_for (e - 1)).
    { apply (index_for_ge_address Hok). lia. }
    assert (Hgoal : exists q' n' T',
               slow_outer_loop fuel sp s e (address_for_index (index_for (e - 1)) + N_words)
                 (index_for (e - 1) + 1) addr T1 = Ret (inr (q', n'), T') /\
               In (q', n') objs /\ q' <= addr /\
               (forall c, first <= c -> address_for_index c < addr ->
                  entry_ok objs T' first c) /\
               (forall c, c < first \/ index_for (e_addr - 1) < c -> T' c = T0 c)).
    { apply IH.
      - exact Hse'.
      - lia.
      - symmetry. apply (address_for_index_succ Hok).
      - lia.
      - lia.
      - intros c Hc. destruct (Z.lt_ge_cases c ni) as [Hold|Hnew].
        + apply (entry_ok_frame objs objs T); [apply Hent; lia|auto|].
          intros c' Hc'. apply Hfr. lia.
        + apply (stamped_entries_ok objs T1 first ni s e); auto; lia.
      - intros c Hc. rewrite Hfr by lia. apply Hframe. exact Hc.
      - lia. }
    exact Hgoal.
  - exists q, n, T. split; [reflexivity|]. split; [exact Hin|]. split; [exact Hq|].
    split; [|exact Hframe].
    intros c Hc Hlt. apply Hent. split; [exact Hc|].
    destruct (Z.lt_ge_cases c ni) as [|Hge]; [assumption|].
    pose proof (address_for_index_mono Hok _ _ Hge). lia.
Qed.

End Outer.

Lemma first_boundary_in_reserved (n : Z) :
  is_card_boundary reserved_end = true -> n <= reserved_end ->
  address_for_index (index_for (n - 1) + 1) <= reserved_end.
Proof.
  intros Hal Hn. pose proof (is_card_boundary_address Hok _ Hal) as Hre.
  assert (Hlt : n - 1 < address_for_index (index_for reserved_end)) by lia.
  apply (index_for_lt_address Hok) in Hlt.
  assert (Hle : index_for (n - 1) + 1 <= index_for reserved_end) by lia.
  pose proof (address_for_index_mono Hok _ _ Hle). lia.
Qed.

Lemma checked_slow_eq (fuel : nat) (sp : Space) (q n addr : Z) (T : table) :
  is_card_boundary reserved_end = true -> reserved_start <= n <= reserved_end ->
  BOTChecked.forward_to_block_containing_addr_slow fuel sp q n addr T
  = forward_to_block_containing_addr_slow fuel sp q n addr T.
Proof.
  intros Hal Hn.
  unfold BOTChecked.forward_to_block_containing_addr_slow, BOTChecked.is_card_boundary,
    forward_to_block_containing_addr_slow.
  destruct (Z.leb_spec reserved_start n); [|lia]. cbn [assert mbind res_bind].
  destruct (first_boundary n) as (Hnb & _ & _). rewrite Hnb.
  pose proof (first_boundary_in_reserved n Hal ltac:(lia)) as Hin.
  destruct (Z.leb_spec (address_for_index (index_for (n - 1) + 1)) reserved_end); [|lia].
  reflexivity.
Qed.

Lemma checked_block_start_eq (sp : Space) (blocks : list (Z * Z)) (P : Part)
    (addr : Z) (fuel : nat) :
  space_ok sp -> part_inv sp blocks P -> contiguous (bottom sp) blocks ->
  last_end (bottom sp) blocks = top sp -> heap_agrees blocks ->
  is_card_boundary reserved_end = true ->
  (Z.to_nat (end_ sp - bottom sp) <= fuel)%nat ->
  BOTChecked.block_start fuel sp addr P = block_start fuel sp addr P.
Proof.
  intros Hsp Hinv Hcont Htop Hag Hal Hfuel.
  pose proof Hsp as (Hbal & Hnz & Hr1 & Hr2 & Hte & Hlen).
  pose proof Hinv as (Hthr & Hbc & Hlast & Hzero & Hent).
  pose proof (N_words_pos Hok) as HN.
  pose proof (contiguous_le _ _ Hcont) as Hbt. rewrite Htop in Hbt, Hlast.
  set (bc := index_for (bottom sp)) in *.
  assert (Hafi : forall x, address_for_index x = bottom sp + (x - bc) * N_words).
  { intros x. rewrite <- Hbal. rewrite !(address_for_index_mul Hok). lia. }
  unfold BOTChecked.block_start, block_start.
  destruct (Z.leb_spec (bottom sp) addr); [|reflexivity].
  destruct (Z.ltb_spec addr (end_ sp)); [|reflexivity]. cbn [andb].
  unfold block_at_or_preceding.
  set (c := Z.min (index_for addr) (next_offset_index P - 1)).
  assert (Hcb : bc <= c < next_offset_index P).
  { assert (bc <= index_for addr) by (apply (index_for_mono Hok); lia). lia. }
  assert (Hcards : next_offset_index P - 1 - bc <= end_ sp - bottom sp).
  { rewrite Hthr, Hafi in Hlast.
    assert ((next_offset_index P - 1 - bc) * N_words <= end_ sp - bottom sp) by lia. nia. }
  destruct (walk_back Hok sp blocks P Hsp Hinv Hcont fuel c Hcb) as (q & Hq & Hwhere);
    [lia|].
  unfold offset_array. rewrite Hq. cbn [mbind res_bind].
  assert (Hn : reserved_start <= q + block_size sp q).
  { unfold block_size, pointer_delta. destruct (Z.eqb_spec q (top sp)) as [->|Hne]; [lia|].
    destruct Hwhere as [[_ ->]|(e & Hin & _)].
    - destruct blocks as [|[s0 e0] rest]; [cbn in Htop; lia|].
      destruct Hcont as (Hs0 & Hlt & _). subst s0.
      destruct (Hag (bottom sp) e0 (or_introl eq_refl)) as [Hsz _]. lia.
    - destruct (contiguous_in _ _ _ _ Hcont Hin) as (Hbq & Hqlt & _).
      destruct (Hag q e Hin) as [Hsz _]. lia. }
  unfold BOTChecked.forward_to_block_containing_addr, forward_to_block_containing_addr.
  destruct (klass_or_null_acquire q); cbn [negb]; [|reflexivity].
  destruct (Z.leb_spec (q + block_size sp q) addr); [|reflexivity].
  rewrite checked_slow_eq by (auto; lia). reflexivity.
Qed.

(** X4.  [verify()] accepts the table that [alloc_block] builds: for
    blocks allocated back to back from [bottom] up to [top] on a freshly
    reset part, each holding one object, every guarantee of [verify()]
    holds.  On an empty space [verify()] stops on its first assertion,
    whatever the table holds. *)
Theorem verify_accepts_allocated_table (sp : Space) (blocks : list (Z * Z)) (P0 : Part) :
  space_ok sp ->
  contiguous (bottom sp) blocks ->
  last_end (bottom sp) blocks = top sp ->
  heap_agrees blocks ->
  (bottom sp < top sp ->
   exists P1 P,
     reset_bot sp P0 = Ret P1 /\
     alloc_blocks sp blocks P1 = Ret P /\
     forall fuel : nat, (1 <= fuel)%nat -> verify fuel sp P = Ret tt) /\
  (forall (sp' : Space) (P' : Part) (fuel : nat),
     top sp' <= bottom sp' -> verify fuel sp' P' = Fatal).
Proof.
  intros Hsp Hcont Htop Hag. split.
  - intros Hne.
    destruct (reset_bot_inv Hok sp P0 Hsp) as (P1 & Hreset & Hinv1).
    destruct (alloc_blocks_inv Hok sp blocks [] P1 Hsp Hinv1 I) as (P & Hrun & Hinv).
    { exact Hcont. }
    { cbn [last_end]. rewrite Htop. apply Hsp. }
    exists P1, P. split; [exact Hreset|]. split; [exact Hrun|].
    intros fuel Hfuel. eapply (verify_passes Hok); eauto.
  - intros sp' P' fuel Hempty. unfold verify.
    destruct (Z.ltb_spec (bottom sp') (top sp')); [lia|reflexivity].
Qed.

(** X5.  [set_for_starts_humongous(obj_top, fill_size)] on a space whose
    humongous object runs from [bottom] to [obj_top], followed by a
    filler of [fill_size] words up to [top], in a reserved heap that
    ends on a card boundary: the call returns, the bottom entry is zero,
    and afterwards [block_start], run with the checks of a debug build,
    answers [bottom] for every address of the humongous object and
    [obj_top] for every address of the filler, without changing the
    table. *)
Theorem starts_humongous_lookup (sp : Space) (obj_top fill_size : Z) (P0 : Part) :
  space_ok sp ->
  is_card_boundary reserved_end = true ->
  bottom sp < obj_top -> 0 <= fill_size -> obj_top + fill_size = top sp ->
  obj_size (bottom sp) = obj_top - bottom sp ->
  klass_or_null_acquire (bottom sp) = true ->
  (0 < fill_size -> obj_size obj_top = fill_size /\ klass_or_null_acquire obj_top = true) ->
  exists P,
    Region.set_for_starts_humongous sp obj_top fill_size P0 = Ret P /\
    bot P (index_for (bottom sp)) = 0 /\
    forall addr (fuel : nat),
      (Z.to_nat (end_ sp - bottom sp) <= fuel)%nat ->
      (bottom sp <= addr < obj_top ->
       BOTChecked.block_start fuel sp addr P = Ret (bottom sp, P)) /\
      (obj_top <= addr < top sp ->
       BOTChecked.block_start fuel sp addr P = Ret (obj_top, P)).
Proof.
  intros Hsp Hal Hobj Hfill Htop Hsz Hkl Hfiller.
  set (blocks := if 0 <? fill_size
                 then [(bottom sp, obj_top); (obj_top, obj_top + fill_size)]
                 else [(bottom sp, obj_top)]).
  assert (Hcont : contiguous (bottom sp) blocks).
  { unfold blocks. destruct (Z.ltb_spec 0 fill_size); cbn; repeat split; lia. }
  assert (Hlast : last_end (bottom sp) blocks = top sp).
  { unfold blocks. destruct (Z.ltb_spec 0 fill_size); cbn; lia. }
  assert (Hag : heap_agrees blocks).
  { unfold blocks. intros s e Hin.
    destruct (Z.ltb_spec 0 fill_size) as [Hf|Hf].
    - destruct Hin as [[= <- <-]|[[= <- <-]|[]]].
      + split; assumption.
      + destruct (Hfiller Hf). split; [lia|assumption].
    - destruct Hin as [[= <- <-]|[]]. split; assumption. }
  destruct (reset_bot_inv Hok sp P0 Hsp) as (P1 & Hreset & Hinv1).
  destruct (alloc_blocks_inv Hok sp blocks [] P1 Hsp Hinv1 I) as (P & Hrun & Hinv).
  { exact Hcont. }
  { cbn [last_end]. rewrite Hlast. apply Hsp. }
  cbn [app] in Hinv.
  exists P. split; [|split].
  - unfold Region.set_for_starts_humongous. rewrite Hreset. cbn [mbind res_bind].
    unfold blocks in Hrun. destruct (Z.ltb_spec 0 fill_size) as [Hf|Hf].
    + cbn [alloc_blocks] in Hrun.
      destruct (alloc_block sp (bottom sp) obj_top P1) as [P2| |]; cbn in *; try discriminate.
      destruct (alloc_block sp obj_top (obj_top + fill_size) P2) as [P3| |];
        cbn in *; congruence.
    + cbn [alloc_blocks] in Hrun.
      destruct (alloc_block sp (bottom sp) obj_top P1) as [P2| |]; cbn in *; congruence.
  - apply Hinv.
  - intros addr fuel Hfuel.
    rewrite (checked_block_start_eq sp blocks P addr fuel Hsp Hinv Hcont Hlast Hag Hal Hfuel).
    split; intros Haddr.
    + apply (block_start_spec Hok sp blocks P (bottom sp) obj_top addr fuel); auto.
      unfold blocks. destruct (0 <? fill_size); left; reflexivity.
    + assert (Hf : 0 < fill_size) by lia.
      apply (block_start_spec Hok sp blocks P obj_top (obj_top + fill_size) addr fuel);
        auto; [|lia].
      unfold blocks. destruct (Z.ltb_spec 0 fill_size); [|lia]. right; left; reflexivity.
Qed.

(** X18.  Lookups above [top], in a reserved heap that ends on a card
    boundary: after blocks allocated back to back from [bottom] up to
    [top] on a freshly reset part, each holding one object,
    [block_start], run with the checks of a debug build, answers [top]
    for every address from [top] up to [end], and leaves the table as it
    is; outside the space it answers [NULL]. *)
Theorem block_start_above_top_is_top (sp : Space) (blocks : list (Z * Z)) (P0 : Part) :
  space_ok sp ->
  is_card_boundary reserved_end = true ->
  contiguous (bottom sp) blocks ->
  last_end (bottom sp) blocks = top sp ->
  heap_agrees blocks ->
  exists P1 P,
    reset_bot sp P0 = Ret P1 /\
    alloc_blocks sp blocks P1 = Ret P /\
    (forall addr (fuel : nat),
       top sp <= addr < end_ sp ->
       (Z.to_nat (end_ sp - bottom sp) <= fuel)%nat ->
       BOTChecked.block_start fuel sp addr P = Ret (top sp, P)) /\
    (forall addr (fuel : nat),
       addr < bottom sp \/ end_ sp <= addr ->
       BOTChecked.block_start fuel sp addr P = Ret (0, P)).
Proof.
  intros Hsp Hal' Hcont Htop Hag.
  destruct (reset_bot_inv Hok sp P0 Hsp) as (P1 & Hreset & Hinv1).
  destruct (alloc_blocks_inv Hok sp blocks [] P1 Hsp Hinv1 I) as (P & Hrun & Hinv).
  { exact Hcont. }
  { cbn [last_end]. rewrite Htop. apply Hsp. }
  cbn [app] in Hinv.
  exists P1, P. split; [exact Hreset|]. split; [exact Hrun|]. split.
  - intros addr fuel Haddr Hfuel.
    rewrite (checked_block_start_eq sp blocks P addr fuel Hsp Hinv Hcont Htop Hag Hal' Hfuel).
    pose proof Hsp as (Hal & Hnz & Hr1 & Hr2 & Hte & Hlen).
    pose proof Hinv as (Hthr & Hbc & Hlast & Hzero & Hent).
    pose proof (N_words_pos Hok) as HN.
    pose proof (contiguous_le _ _ Hcont) as Hbt. rewrite Htop in Hbt, Hlast.
    set (bc := index_for (bottom sp)) in *.
    assert (Hafi : forall x, address_for_index x = bottom sp + (x - bc) * N_words).
    { intros x. rewrite <- Hal. rewrite !(address_for_index_mul Hok). lia. }
    unfold block_start.
    destruct (Z.leb_spec (bottom sp) addr); [|lia].
    destruct (Z.ltb_spec addr (end_ sp)); [|lia]. cbn [andb].
    unfold block_at_or_preceding.
    set (c := Z.min (index_for addr) (next_offset_index P - 1)).
    assert (Hcb : bc <= c < next_offset_index P).
    { assert (bc <= index_for addr) by (apply (index_for_mono Hok); lia). lia. }
    assert (Hcards : next_offset_index P - 1 - bc <= end_ sp - bottom sp).
    { rewrite Hthr, Hafi in Hlast.
      assert ((next_offset_index P - 1 - bc) * N_words <= end_ sp - bottom sp) by lia. nia. }
    destruct (walk_back Hok sp blocks P Hsp Hinv Hcont fuel c Hcb) as (q & Hq & Hwhere);
      [lia|].
    unfold offset_array. rewrite Hq. cbn [mbind res_bind].
    assert (Hpart : mkPart (bot P) (next_offset_threshold P) (next_offset_index P) = P)
      by (destruct P; reflexivity).
    assert (Hfwd : forward_to_block_containing_addr fuel sp q addr (bot P)
                   = Ret (top sp, bot P)).
    { destruct blocks as [|b0 blocks'] eqn:Hbl.
      - (* nothing allocated: the walk back ends on [bottom], which is [top] *)
        cbn in Htop.
        assert (q = top sp).
        { destruct Hwhere as [[_ ->]|(e & [] & _)]. exact Htop. }
        subst q. unfold forward_to_block_containing_addr.
        destruct (klass_or_null_acquire (top sp)); cbn [negb]; [|reflexivity].
        unfold block_size, pointer_delta. rewrite Z.eqb_refl.
        destruct (Z.leb_spec (top sp + (end_ sp - top sp)) addr); [lia|].
        cbn [mbind res_bind]. destruct (Z.leb_spec (top sp) addr); [reflexivity|lia].
      - rewrite <- Hbl in *.
        assert (Hblock : exists eq, In (q, eq) blocks).
        { destruct Hwhere as [[Hfirst ->]|(e & Hb & _)]; [|eauto].
          destruct (contiguous_first _ _ Hcont) as (e0 & Hin0); [rewrite Hbl; discriminate|].
          eauto. }
        destruct Hblock as (eq & Hinq).
        destruct (contiguous_in _ _ _ _ Hcont Hinq) as (Hbq & Hqlt & Heqtop).
        rewrite Htop in Heqtop.
        destruct (Hag q eq Hinq) as [Hqsz Hqk].
        unfold forward_to_block_containing_addr. rewrite Hqk. cbn [negb].
        unfold block_size. destruct (Z.eqb_spec q (top sp)); [lia|]. rewrite Hqsz.
        replace (q + (eq - q)) with eq by lia.
        destruct (Z.leb_spec eq addr); [|lia].
        unfold forward_to_block_containing_addr_slow.
        destruct (Z.leb_spec (top sp) addr); [|lia]. cbn [mbind res_bind].
        destruct (Z.leb_spec (top sp) addr); [reflexivity|lia]. }
    rewrite Hfwd. cbn [mbind res_bind]. rewrite Hpart. reflexivity.
  - intros addr fuel Hout. unfold BOTChecked.block_start.
    destruct (Z.leb_spec (bottom sp) addr); destruct (Z.ltb_spec addr (end_ sp));
      cbn [andb]; try reflexivity; lia.
Qed.

(** X19.  The slow path of a lookup, run with the checks of a debug
    build in a reserved heap that ends on a card boundary, started from
    an object [q, n) of a space whose objects lie back to back from
    [bottom] to [top].  For an address at or above [top] it answers
    [top] and leaves the table alone.  For an address from [n] up to
    [top] it returns the start of the object holding the address; no
    card before the first card boundary at or after [n] and no card
    behind the last card of that object is written; and every card from
    that boundary on whose first word lies below the address has been
    refined to describe the object on its first word, by the distance
    back to its start or by a skip back to an earlier card of the same
    object. *)
Theorem slow_path_finds_block_and_refines (sp : Space) (objs : list (Z * Z))
    (q n : Z) (T : table) :
  space_ok sp ->
  is_card_boundary reserved_end = true ->
  contiguous (bottom sp) objs ->
  last_end (bottom sp) objs = top sp ->
  heap_agrees objs ->
  In (q, n) objs ->
  (forall addr (fuel : nat),
     top sp <= addr ->
     BOTChecked.forward_to_block_containing_addr_slow fuel sp q n addr T
     = Ret (top sp, T)) /\
  (forall addr (fuel : nat),
     n <= addr < top sp ->
     (Z.to_nat (top sp - bottom sp) < fuel)%nat ->
     exists s e T',
       BOTChecked.forward_to_block_containing_addr_slow fuel sp q n addr T
       = Ret (s, T') /\
       In (s, e) objs /\ s <= addr < e /\
       (forall c, c < index_for (n - 1) + 1 \/ index_for (e - 1) < c -> T' c = T c) /\
       (forall c, index_for (n - 1) + 1 <= c -> address_for_index c < addr ->
          entry_ok objs T' (index_for (n - 1) + 1) c)).
Proof.
  intros Hsp Hal Hcont Htop Hag Hin.
  pose proof (N_words_pos Hok) as HN.
  pose proof Hsp as (_ & _ & Hr1 & Hr2 & Hte & _).
  destruct (contiguous_in _ _ _ _ Hcont Hin) as (Hbq & Hqn & Hntop). rewrite Htop in Hntop.
  assert (Hn : reserved_start <= n <= reserved_end) by lia.
  split.
  - intros addr fuel Haddr. rewrite (checked_slow_eq fuel sp q n addr T Hal Hn).
    unfold forward_to_block_containing_addr_slow.
    destruct (Z.leb_spec (top sp) addr); [reflexivity|lia].
  - intros addr fuel Haddr Hfuel. rewrite (checked_slow_eq fuel sp q n addr T Hal Hn).
    destruct (contiguous_cover _ _ addr Hcont) as (s & e & Hse & Hcov); [rewrite Htop; lia|].
    destruct (first_boundary n) as (Hnb & Hni & Hrange).
    unfold forward_to_block_containing_addr_slow.
    destruct (Z.leb_spec (top sp) addr); [lia|].
    rewrite Hnb, Hni.
    assert (Hlt : addr < top sp) by lia.
    destruct (slow_outer_spec sp objs addr (index_for (n - 1) + 1) e Hsp Hcont Htop Hag
                Hlt (ex_intro _ s (conj Hse Hcov)) fuel q n
                (address_for_index (index_for (n - 1) + 1)) (index_for (n - 1) + 1) T T)
      as (q' & n' & T' & Hloop & Hin' & Hq' & Hent & Hframe); auto; try lia.
    rewrite Hloop. cbn [mbind res_bind].
    exists s, e, T'.
    assert (Hfind : forward_to_block_containing_addr_const fuel sp q' n' addr = Ret s).
    { unfold forward_to_block_containing_addr_const.
      destruct (Z.leb_spec (top sp) addr); [lia|].
      destruct (contiguous_in _ _ _ _ Hcont Hin') as (Hbq' & Hqn' & Hntop').
      rewrite Htop in Hntop'.
      destruct (Z_le_gt_dec n' addr) as [Hwalk|Hhere].
      - destruct (contiguous_suffix _ _ _ _ Hcont Hin') as (rest & Hrc & Hrl & Hrin & Hrsub).
        rewrite Htop in Hrl.
        assert (Hrag : heap_agrees rest) by (intros a b Hab; apply Hag, Hrsub, Hab).
        pose proof (contiguous_length _ _ Hrc) as Hlenr. rewrite Hrl in Hlenr.
        apply (forward_const_loop_spec sp addr s e rest); auto; try lia.
        apply Hrin; [exact Hse|].
        destruct (contiguous_ordered _ _ _ _ _ _ Hcont Hin' Hse) as [[= -> ->]|[Hord|Hord]];
          lia.
      - rewrite (forward_const_loop_stop fuel sp q' n' addr) by lia. f_equal.
        destruct (contiguous_unique _ _ _ _ _ _ addr Hcont Hin' Hse) as [-> _];
          [lia|lia|reflexivity]. }
    rewrite Hfind. cbn [mbind res_bind].
    split; [reflexivity|]. split; [exact Hse|]. split; [exact Hcov|].
    split; [exact Hframe|exact Hent].
Qed.

End Lookup.
End Table.

Section Examples.
#[local] Existing Instance example_constants.

Lemma card_boundary_is_alignment_witness :
  (is_card_boundary 4160 = true <-> address_for_index (index_for 4160) = 4160) /\
  (is_card_boundary 4160 = true <-> (4160 - reserved_start) mod N_words = 0) /\
  (is_card_boundary 4160 = false <-> address_for_index (index_for 4160) < 4160).
Proof.
  apply (card_boundary_is_alignment example_constants_ok 4160). cbn. lia.
Defined.

Lemma set_remainder_stamps_codes_witness :
  (exists T',
     set_remainder_to_point_to_start example_space (address_for_index 1)
       (address_for_index 13 + N_words) zero_table = Ret T' /\
     (forall c, 1 <= c <= 13 ->
        exists i, 0 <= i < N_powers /\ T' c = N_words + i /\
          power_to_cards_back i <= c - (1 - 1) < power_to_cards_back (i + 1) /\
          1 - 1 <= c - entry_to_cards_back (T' c) < c) /\
     (forall c, ~ (1 <= c <= 13) -> T' c = zero_table c)) /\
  (forall start end', end' <= start ->
     set_remainder_to_point_to_start example_space start end' zero_table = Ret zero_table) /\
  (forall start end', start < end' -> address_for_index (index_for start) <> start ->
     set_remainder_to_point_to_start example_space start end' zero_table = Fatal) /\
  (forall end_card', index_for (bottom example_space) <= end_card' ->
     set_remainder_to_point_to_start_incl example_space
       (index_for (bottom example_space)) end_card' zero_table = Fatal).
Proof.
  apply (set_remainder_stamps_codes example_constants_ok example_space 1 13 zero_table).
  - lia.
  - vm_compute. reflexivity.
  - vm_compute. discriminate.
  - vm_compute. reflexivity.
Defined.

Lemma alloc_block_work_records_block_witness :
  (exists threshold' index' T',
     alloc_block_work example_space 4160 1 4100 4300 zero_table
       = Ret (threshold', index', T') /\
     threshold' = address_for_index index' /\
     4300 <= threshold' < 4300 + N_words /\
     index' = index_for (4300 - 1) + 1 /\
     T' 1 = 4160 - 4100 /\
     stamped T' (1 + 1) (index_for (4300 - 1)) /\
     (forall c, ~ (1 <= c <= index_for (4300 - 1)) -> T' c = zero_table c)) /\
  (forall threshold0 index0 blk_start0 blk_end0 T0,
     blk_start0 = 0 \/ blk_end0 <= blk_start0 \/ blk_end0 <= threshold0 \/
     threshold0 < blk_start0 \/ N_words < threshold0 - blk_start0 \/
     threshold0 <> reserved_start + index0 * N_words ->
     alloc_block_work example_space threshold0 index0 blk_start0 blk_end0 T0 = Fatal).
Proof.
  apply (alloc_block_work_records_block example_constants_ok example_space
           4160 1 4100 4300 zero_table); try lia;
    vm_compute; (reflexivity || discriminate).
Defined.

Lemma verify_accepts_allocated_table_witness :
  (bottom example_space < top example_space ->
   exists P1 P,
     reset_bot example_space example_part = Ret P1 /\
     alloc_blocks example_space example_blocks P1 = Ret P /\
     forall fuel : nat, (1 <= fuel)%nat ->
       @verify example_constants example_view fuel example_space P = Ret tt) /\
  (forall (sp' : Space) (P' : Part) (fuel : nat),
     top sp' <= bottom sp' ->
     @verify example_constants example_view fuel sp' P' = Fatal).
Proof.
  apply (@verify_accepts_allocated_table example_constants example_constants_ok
           example_view example_space example_blocks example_part).
  - exact example_space_ok.
  - exact example_blocks_contiguous.
  - reflexivity.
  - exact example_heap_agrees.
Defined.

Lemma starts_humongous_lookup_witness :
  exists P,
    Region.set_for_starts_humongous example_space 4900 100 example_part = Ret P /\
    bot P (index_for (bottom example_space)) = 0 /\
    forall addr (fuel : nat),
      (Z.to_nat (end_ example_space - bottom example_space) <= fuel)%nat ->
      (bottom example_space <= addr < 4900 ->
       @BOTChecked.block_start example_constants humongous_view fuel example_space addr P
         = Ret (bottom example_space, P)) /\
      (4900 <= addr < top example_space ->
       @BOTChecked.block_start example_constants humongous_view fuel example_space addr P
         = Ret (4900, P)).
Proof.
  apply (@starts_humongous_lookup example_constants example_constants_ok
           humongous_view example_space 4900 100 example_part).
  - exact example_space_ok.
  - reflexivity.
  - cbn. lia.
  - lia.
  - reflexivity.
  - reflexivity.
  - reflexivity.
  - intros _. split; reflexivity.
Defined.

Lemma block_start_above_top_is_top_witness :
  exists P1 P,
    reset_bot example_space example_part = Ret P1 /\
    alloc_blocks example_space example_blocks P1 = Ret P /\
    (forall addr (fuel : nat),
       top example_space <= addr < end_ example_space ->
       (Z.to_nat (end_ example_space - bottom example_space) <= fuel)%nat ->
       @BOTChecked.block_start example_constants example_view fuel example_space addr P
         = Ret (top example_space, P)) /\
    (forall addr (fuel : nat),
       addr < bottom example_space \/ end_ example_space <= addr ->
       @BOTChecked.block_start example_constants example_view fuel example_space addr P = Ret (0, P)).
Proof.
  apply (@block_start_above_top_is_top example_constants example_constants_ok
           example_view example_space example_blocks example_part).
  - exact example_space_ok.
  - reflexivity.
  - exact example_blocks_contiguous.
  - reflexivity.
  - exact example_heap_agrees.
Defined.

Lemma slow_path_finds_block_and_refines_witness :
  (forall addr (fuel : nat),
     top example_space <= addr ->
     @BOTChecked.forward_to_block_containing_addr_slow example_constants example_view
       fuel example_space 4096 4196 addr zero_table
     = Ret (top example_space, zero_table)) /\
  (forall addr (fuel : nat),
     4196 <= addr < top example_space ->
     (Z.to_nat (top example_space - bottom example_space) < fuel)%nat ->
     exists s e T',
       @BOTChecked.forward_to_block_containing_addr_slow example_constants example_view
         fuel example_space 4096 4196 addr zero_table
       = Ret (s, T') /\
       In (s, e) example_blocks /\ s <= addr < e /\
       (forall c, c < index_for (4196 - 1) + 1 \/ index_for (e - 1) < c ->
          T' c = zero_table c) /\
       (forall c, index_for (4196 - 1) + 1 <= c -> address_for_index c < addr ->
          @entry_ok example_constants example_blocks T' (index_for (4196 - 1) + 1) c)).
Proof.
  apply (@slow_path_finds_block_and_refines example_constants example_constants_ok
           example_view example_space example_blocks 4096 4196 zero_table).
  - exact example_space_ok.
  - reflexivity.
  - exact example_blocks_contiguous.
  - reflexivity.
  - exact example_heap_agrees.
  - left. reflexivity.
Defined.

End Examples.

End BOTMore.

Module RegionMoreFacts.
Import BOT Region BOTSpec RegionSpec BOTFacts RegionFacts RegionMore RegionMoreSpec.

Section WithBOT.
Context `{BOTConstants}.
Hypothesis Hok : constants_ok.

Lemma granted_app outs1 outs2 : granted (outs1 ++ outs2) = granted outs1 ++ granted outs2.
Proof. unfold granted. apply flat_map_app. Qed.

Lemma allocate_step blocks r min_word_size desired_word_size :
  in_step blocks r -> 0 < min_word_size <= desired_word_size ->
  exists out r',
    allocate min_word_size desired_word_size r = Ret (out, r') /\
    in_step (blocks ++ granted [out]) r' /\
    Region.bottom r' = Region.bottom r /\ Region.end_ r' = Region.end_ r /\
    Region.top r <= Region.top r'.
Proof.
  intros (Hsp & Hinv & Hcont & Hlast) Hreq.
  unfold allocate, allocate_impl, pointer_delta.
  destruct (Z.leb_spec min_word_size
              (Z.min (Region.end_ r - Region.top r) desired_word_size)) as [Hfit|Hno].
  - set (want := Z.min (Region.end_ r - Region.top r) desired_word_size) in *.
    set (r1 := set_top (Region.top r + want) r).
    assert (Hsp1 : space_ok (space_of r1)).
    { destruct Hsp as (Ha & Hb & Hc & Hd & He & Hf). repeat split; auto.
      cbn. unfold want. lia. }
    destruct (alloc_block_inv Hok (space_of r1) blocks (bot_part r)
                (Region.top r + want) Hsp1 Hinv Hcont) as (P' & Hrun & Hinv').
    { cbn. rewrite Hlast. lia. }
    { cbn. unfold want. lia. }
    assert (Hl : last_end (BOT.bottom (space_of r1)) blocks = Region.top r) by exact Hlast.
    rewrite Hl in Hrun, Hinv'.
    change (bot_part r1) with (bot_part r). fold r1. rewrite Hrun. cbn [mbind res_bind].
    eexists _, _. split; [reflexivity|].
    cbn [granted flat_map app]. rewrite ?app_nil_r.
    split; [|split; [reflexivity|split; [reflexivity|cbn; lia]]].
    split; [exact Hsp1|]. split.
    { exact Hinv'. }
    split.
    { apply contiguous_app. split; [exact Hcont|]. cbn. rewrite Hlast. repeat split; lia. }
    { rewrite last_end_app. reflexivity. }
  - eexists _, _. split; [reflexivity|]. cbn [granted flat_map app]. rewrite ?app_nil_r.
    split; [split; [exact Hsp|split; [exact Hinv|split; [exact Hcont|exact Hlast]]]|].
    repeat split; lia.
Qed.

Lemma allocates_steps reqs :
  forall blocks r,
    in_step blocks r -> Forall (fun q => 0 < fst q <= snd q) reqs ->
    exists outs r',
      allocates reqs r = Ret (outs, r') /\
      in_step (blocks ++ granted outs) r' /\
      Region.bottom r' = Region.bottom r /\ Region.end_ r' = Region.end_ r.
Proof.
  induction reqs as [|[mn ds] reqs IH]; intros blocks r Hin Hreqs.
  - exists [], r. cbn. rewrite app_nil_r. auto.
  - inversion Hreqs as [|? ? Hq Hrest]; subst. cbn in Hq.
    destruct (allocate_step blocks r mn ds Hin Hq) as (out & r1 & Hrun & Hin1 & Hb1 & He1 & _).
    destruct (IH _ r1 Hin1 Hrest) as (outs & r2 & Hruns & Hin2 & Hb2 & He2).
    exists (out :: outs), r2. cbn [allocates]. rewrite Hrun. cbn [mbind res_bind].
    rewrite Hruns. cbn [mbind res_bind]. split; [reflexivity|].
    split; [|split; congruence].
    change (out :: outs) with ([out] ++ outs). rewrite granted_app, app_assoc. exact Hin2.
Qed.

(** X6.  [allocate] keeps the offset table in step with the region.  On
    an empty region with a freshly reset table, in a reserved heap that
    ends on a card boundary, any run of requests with
    [0 < min_word_size <= desired_word_size] returns; the blocks handed
    out lie back to back from [bottom] up to the final [top]; and once
    each of them holds an object, [block_start], run with the checks of
    a debug build, finds, for every address inside one of them, the
    start of that block. *)
Theorem allocate_keeps_table_in_step (r0 : HeapRegion) (reqs : list (Z * Z)) :
  space_ok (space_of r0) -> Region.top r0 = Region.bottom r0 ->
  is_card_boundary reserved_end = true ->
  Forall (fun q => 0 < fst q <= snd q) reqs ->
  exists P1 outs r,
    reset_bot (space_of r0) (bot_part r0) = Ret P1 /\
    allocates reqs (set_bot_part P1 r0) = Ret (outs, r) /\
    contiguous (Region.bottom r0) (granted outs) /\
    last_end (Region.bottom r0) (granted outs) = Region.top r /\
    Region.top r <= Region.end_ r0 /\
    forall (view : HeapView), heap_agrees (granted outs) ->
      forall s e addr (fuel : nat),
        In (s, e) (granted outs) -> s <= addr < e ->
        (Z.to_nat (Region.end_ r0 - Region.bottom r0) <= fuel)%nat ->
        BOTChecked.block_start fuel (space_of r) addr (bot_part r)
        = Ret (s, bot_part r).
Proof.
  intros Hsp Hempty Hal Hreqs.
  destruct (reset_bot_inv Hok (space_of r0) (bot_part r0) Hsp) as (P1 & Hreset & Hinv1).
  assert (Hin : in_step [] (set_bot_part P1 r0)).
  { split; [exact Hsp|]. split; [exact Hinv1|]. split; [exact I|]. cbn. lia. }
  destruct (allocates_steps reqs [] _ Hin Hreqs) as (outs & r & Hrun & Hin' & Hb & He).
  cbn [app] in Hin'. destruct Hin' as (Hsp' & Hinv' & Hcont' & Hlast').
  cbn in Hb, He.
  exists P1, outs, r. split; [exact Hreset|]. split; [exact Hrun|].
  rewrite <- Hb. split; [exact Hcont'|]. split; [exact Hlast'|].
  split; [rewrite <- He; apply Hsp'|].
  intros view Hag s e addr fuel Hse Haddr Hfuel.
  assert (Hfuel' : (Z.to_nat (BOT.end_ (space_of r) - BOT.bottom (space_of r)) <= fuel)%nat)
    by (cbn; rewrite He; exact Hfuel).
  rewrite (@BOTMore.checked_block_start_eq _ Hok view (space_of r) (granted outs) (bot_part r)
             addr fuel Hsp' Hinv' Hcont' Hlast' Hag Hal Hfuel').
  apply (block_start_spec Hok (space_of r) (granted outs) (bot_part r) s e addr fuel);
    auto.
Qed.

(** X7.  [cross_threshold(start, end)] after blocks allocated back to
    back from [bottom]: recording the next block returns, and the answer
    is the threshold of the part, a card boundary at or after the
    block's end and less than a card beyond it unless the block stayed
    below the threshold it found. *)
Theorem cross_threshold_answers_boundary (r0 : HeapRegion) (blocks : list (Z * Z))
    (end' : Z) :
  space_ok (space_of r0) ->
  contiguous (Region.bottom r0) blocks ->
  last_end (Region.bottom r0) blocks < end' -> end' <= Region.end_ r0 ->
  exists P1 P threshold r,
    reset_bot (space_of r0) (bot_part r0) = Ret P1 /\
    alloc_blocks (space_of r0) blocks P1 = Ret P /\
    cross_threshold (last_end (Region.bottom r0) blocks) end' (set_bot_part P r0)
      = Ret (threshold, r) /\
    threshold = next_offset_threshold (bot_part r) /\
    address_for_index (index_for threshold) = threshold /\
    end' <= threshold /\
    (next_offset_threshold P < end' -> threshold < end' + N_words) /\
    (end' <= next_offset_threshold P -> r = set_bot_part P r0).
Proof.
  intros Hsp Hcont Hlt Hend.
  destruct (reset_bot_inv Hok (space_of r0) (bot_part r0) Hsp) as (P1 & Hreset & Hinv1).
  destruct (alloc_blocks_inv Hok (space_of r0) blocks [] P1 Hsp Hinv1 I) as (P & Hrun & Hinv).
  { exact Hcont. }
  { cbn [last_end]. cbn. lia. }
  cbn [app] in Hinv.
  destruct (alloc_block_inv Hok (space_of r0) blocks P end' Hsp Hinv Hcont Hlt Hend)
    as (P' & Hrun' & Hinv').
  exists P1, P, (next_offset_threshold P'), (set_bot_part P' r0).
  split; [exact Hreset|]. split; [exact Hrun|]. split.
  { unfold cross_threshold. change (space_of (set_bot_part P r0)) with (space_of r0).
    change (bot_part (set_bot_part P r0)) with P.
    change (Region.bottom r0) with (BOT.bottom (space_of r0)). rewrite Hrun'. reflexivity. }
  split; [reflexivity|].
  destruct Hinv' as (Hthr & _ & Hlast & _).
  rewrite last_end_app in Hlast. cbn [last_end] in Hlast.
  split; [rewrite Hthr, (index_for_address Hok); reflexivity|].
  split; [lia|]. split.
  - intros Hcross. pose proof (index_for_bounds Hok (end' - 1)) as Hb.
    revert Hrun'. unfold alloc_block.
    destruct (Z.ltb_spec (next_offset_threshold P) end'); [|lia].
    destruct (alloc_block_work _ _ _ _ _ _) as [[[t i] T]| |] eqn:Hw; cbn; try discriminate.
    intros [= <-]. cbn. clear Hlast Hthr.
    destruct Hinv as (Hthr0 & Hidx0 & Hlast0 & _).
    destruct (alloc_block_work_spec Hok (space_of r0) (next_offset_threshold P)
                (next_offset_index P) (last_end (BOT.bottom (space_of r0)) blocks) end' (bot P))
      as (T' & Hw' & _); try lia.
    + pose proof (contiguous_le _ _ Hcont). destruct Hsp as (_ & Hp & _). cbn in *. lia.
    + pose proof (contiguous_le _ _ Hcont). destruct Hsp as (_ & _ & Hp & _). cbn in *. lia.
    + destruct Hsp as (_ & _ & _ & Hp & _). cbn in *. lia.
    + destruct Hsp as (Hal & _ & _ & _ & _ & Hreach).
      assert (index_for (end' - 1) < index_for (BOT.bottom (space_of r0))
                                     + power_to_cards_back N_powers).
      { apply (index_for_lt_address Hok). rewrite (address_for_index_mul Hok).
        rewrite (address_for_index_mul Hok) in Hal. cbn in *. nia. }
      lia.
    + rewrite Hw' in Hw. injection Hw as <- _ _. lia.
  - intros Hbelow. revert Hrun'. unfold alloc_block.
    destruct (Z.ltb_spec (next_offset_threshold P) end'); [lia|].
    intros [= <-]. reflexivity.
Qed.

End WithBOT.

(** *** Humongous links *)

(** X8.  The link of a continues-humongous region to its start region.
    [set_continues_humongous] on an empty region that is not humongous,
    with a start region that starts a humongous object, returns with the
    link set.  While the link is set [hr_clear] stops on its first
    assertion.  [clear_humongous], on a region of full size, takes the
    link away and leaves the type and the tracer alone; after it
    [hr_clear] goes through and frees the region.  [clear_humongous]
    stops on an assertion on a region that is not humongous or not of
    full size. *)
Theorem humongous_link_lifecycle `{BOTConstants} (GrainBytes : Z)
    (first_hr r : HeapRegion) (keep_remset locked : bool) :
  is_humongous r = false -> Region.top r = Region.bottom r ->
  type first_hr = StartsHumongousTag ->
  capacity r = GrainBytes -> in_collection_set r = false ->
  (exists r1 r2 r3,
     set_continues_humongous first_hr r = Ret r1 /\
     humongous_start_region r1 = Some (hrm_index first_hr) /\
     type r1 = ContinuesHumongousTag /\
     (forall k c l, hr_clear k c l r1 = Fatal) /\
     clear_humongous GrainBytes r1 = Ret r2 /\
     humongous_start_region r2 = None /\ type r2 = ContinuesHumongousTag /\
     tracer r2 = tracer r1 /\
     hr_clear keep_remset false locked r2 = Ret r3 /\
     type r3 = FreeTag /\ humongous_start_region r3 = None) /\
  (forall r', is_humongous r' = false \/ capacity r' <> GrainBytes ->
     clear_humongous GrainBytes r' = Fatal).
Proof.
  intros Hh Ht Hf Hcap Hcs. split.
  - unfold set_continues_humongous. rewrite Hh, Ht, Z.eqb_refl, Hf. cbn [negb assert mbind res_bind].
    eexists _, _, _. split; [reflexivity|]. split; [reflexivity|]. split; [reflexivity|].
    split; [intros k c l; reflexivity|].
    unfold clear_humongous, capacity in *. cbn. rewrite Hcap, Z.eqb_refl. cbn.
    split; [reflexivity|]. split; [reflexivity|]. split; [reflexivity|]. split; [reflexivity|].
    unfold hr_clear, in_collection_set in *. cbn. rewrite Hcs. cbn.
    split; [reflexivity|]. destruct keep_remset, locked; split; reflexivity.
  - intros r' [Hn|Hc]; unfold clear_humongous.
    + rewrite Hn. reflexivity.
    + destruct (is_humongous r'); [|reflexivity]. cbn.
      destruct (Z.eqb_spec (capacity r') GrainBytes); [contradiction|reflexivity].
Qed.

(** *** The region size *)

Section Setup.
Variable min_size target_number LogHeapWordSize card_shift : Z.
Variable k : Z.
Hypothesis Hmin : min_size = 2 ^ k.
Hypothesis Hk : 0 < k < 64.
Hypothesis Hlog : 0 <= LogHeapWordSize <= k.
Hypothesis Htarget : 0 < target_number.

Lemma size_t_small x : 0 <= x < 2 ^ 64 -> size_t x = x.
Proof. intros Hx. unfold size_t. apply Z.mod_small. exact Hx. Qed.

Lemma log2_long_pow2 n : 0 <= n -> log2_long (2 ^ n) = n.
Proof.
  intros Hn. unfold log2_long.
  assert (0 < 2 ^ n) by (apply Z.pow_pos_nonneg; lia).
  destruct (Z.eqb_spec (2 ^ n) 0); [lia|]. apply Z.log2_pow2. exact Hn.
Qed.

Lemma setup_from_size (region_size : Z) (flag_is_default : bool) (i m : Z) (g0 : RegionSizes) :
  LogOfHRGrainBytes g0 = 0 -> LogOfHRGrainWords g0 = 0 -> GrainBytes g0 = 0 ->
  GrainWords g0 = 0 -> CardsPerRegion g0 = 0 ->
  region_size =
    (if flag_is_default
     then Z.max (size_t (i + m) / 2 / target_number) min_size
     else G1HeapRegionSize g0) ->
  0 < region_size < 2 ^ 64 ->
  exists g n,
    setup_heap_region_size min_size target_number LogHeapWordSize card_shift
      flag_is_default i m g0 = Ret g /\
    k <= n < 64 /\
    LogOfHRGrainBytes g = n /\ GrainBytes g = 2 ^ n /\
    LogOfHRGrainWords g = n - LogHeapWordSize /\
    GrainWords g = 2 ^ (n - LogHeapWordSize) /\
    CardsPerRegion g = Z.shiftr (2 ^ n) card_shift /\
    G1HeapRegionSize g = 2 ^ n /\
    (min_size <= region_size -> 2 ^ n <= region_size < 2 ^ (n + 1)) /\
    (region_size < min_size -> n = k).
Proof.
  intros H1 H2 H3 H4 H5 Hrs Hrange.
  unfold setup_heap_region_size. rewrite <- Hrs. rewrite H1.
  cbn [LogOfHRGrainBytes LogOfHRGrainWords GrainBytes GrainWords CardsPerRegion
       G1HeapRegionSize guarantee Z.eqb mbind res_bind].
  rewrite H2, H3, H4, H5. cbn [guarantee Z.eqb mbind res_bind].
  set (l := log2_long region_size).
  assert (Hl : 0 <= l < 64 /\ 2 ^ l <= region_size < 2 ^ (l + 1)).
  { unfold l, log2_long. destruct (Z.eqb_spec region_size 0); [lia|].
    pose proof (Z.log2_spec region_size ltac:(lia)) as Hs.
    pose proof (Z.log2_nonneg region_size). split; [|rewrite <- Z.add_1_r in Hs; exact Hs].
    split; [lia|]. apply Z.log2_lt_pow2; lia. }
  destruct Hl as (Hl & Hspec). clearbody l.
  assert (Hshift : size_t (Z.shiftl 1 l) = 2 ^ l).
  { rewrite Z.shiftl_1_l. apply size_t_small. split; [apply Z.pow_nonneg; lia|].
    apply Z.pow_lt_mono_r; lia. }
  rewrite Hshift.
  set (rs := if 2 ^ l <? min_size then min_size else 2 ^ l).
  set (n := if 2 ^ l <? min_size then k else l).
  assert (Hrsn : rs = 2 ^ n /\ k <= n < 64).
  { unfold rs, n. destruct (Z.ltb_spec (2 ^ l) min_size) as [Hs|Hs].
    - split; [exact Hmin|lia].
    - split; [reflexivity|]. split; [|lia].
      rewrite Hmin in Hs. apply (Z.pow_le_mono_r_iff 2); lia. }
  destruct Hrsn as (Hrs2 & Hn).
  assert (Hn1 : 2 ^ l < min_size -> n = k).
  { unfold n. destruct (Z.ltb_spec (2 ^ l) min_size); [reflexivity|lia]. }
  assert (Hn2 : min_size <= 2 ^ l -> n = l).
  { unfold n. destruct (Z.ltb_spec (2 ^ l) min_size); [lia|reflexivity]. }
  clearbody rs n.
  assert (Hlogn : log2_long rs = n) by (rewrite Hrs2; apply log2_long_pow2; lia).
  rewrite Hlogn.
  assert (Hwords : Z.shiftr rs LogHeapWordSize = 2 ^ (n - LogHeapWordSize)).
  { rewrite Hrs2, Z.shiftr_div_pow2 by lia.
    rewrite <- Z.pow_sub_r by lia. reflexivity. }
  rewrite Hwords.
  assert (Hsanity : size_t (Z.shiftl 1 (n - LogHeapWordSize)) = 2 ^ (n - LogHeapWordSize)).
  { rewrite Z.shiftl_1_l. apply size_t_small. split; [apply Z.pow_nonneg; lia|].
    apply Z.pow_lt_mono_r; lia. }
  rewrite Hsanity, Z.eqb_refl. cbn [guarantee mbind res_bind].
  assert (Hfin : forall F, exists g,
            (if negb (F =? rs)
             then Ret (mkSizes n (n - LogHeapWordSize) rs (2 ^ (n - LogHeapWordSize))
                         (Z.shiftr rs card_shift) rs)
             else Ret (mkSizes n (n - LogHeapWordSize) rs (2 ^ (n - LogHeapWordSize))
                         (Z.shiftr rs card_shift) F)) = Ret g /\
            g = mkSizes n (n - LogHeapWordSize) rs (2 ^ (n - LogHeapWordSize))
                  (Z.shiftr rs card_shift) rs).
  { intros F. destruct (Z.eqb_spec F rs) as [->|]; cbn; eauto. }
  destruct (Hfin (G1HeapRegionSize g0)) as (g & Hg & Hgeq).
  exists g, n. split; [exact Hg|]. subst g. cbn. rewrite Hrs2.
  split; [exact Hn|]. do 6 (split; [reflexivity|]). split.
  - intros Hge. destruct (Z_lt_le_dec (2 ^ l) min_size) as [Hs|Hs].
    + exfalso. rewrite Hmin in Hs, Hge.
      assert (l < k) by (apply (Z.pow_lt_mono_r_iff 2); lia).
      assert (2 ^ (l + 1) <= 2 ^ k) by (apply Z.pow_le_mono_r; lia). lia.
    + rewrite (Hn2 Hs). exact Hspec.
  - intros Hlt. apply Hn1. lia.
Qed.

(** X9.  [setup_heap_region_size], with a minimum size that is a power
    of two of at least one heap word, on globals that are still unset:
    the call returns; the region size is a power of two, at least the
    minimum, and the largest power of two not above the requested size
    when that is at least the minimum (nothing caps it from above); the
    size in words, both logarithms and the flag agree with it.  The
    requested size is the flag when it was given, else the larger of the
    minimum and the average heap size divided by the target number of
    regions.  A second call stops on the first guarantee. *)
Theorem setup_heap_region_size_power_of_two (flag_is_default : bool)
    (initial_heap_size max_heap_size flag : Z) :
  (flag_is_default = false -> 0 < flag < 2 ^ 64) ->
  let requested :=
    if flag_is_default
    then Z.max (size_t (initial_heap_size + max_heap_size) / 2 / target_number) min_size
    else flag in
  exists g n,
    setup_heap_region_size min_size target_number LogHeapWordSize card_shift
      flag_is_default initial_heap_size max_heap_size (mkSizes 0 0 0 0 0 flag) = Ret g /\
    k <= n < 64 /\
    LogOfHRGrainBytes g = n /\ GrainBytes g = 2 ^ n /\ min_size <= GrainBytes g /\
    LogOfHRGrainWords g = n - LogHeapWordSize /\
    GrainWords g * 2 ^ LogHeapWordSize = GrainBytes g /\
    G1HeapRegionSize g = GrainBytes g /\
    (min_size <= requested -> GrainBytes g <= requested < 2 * GrainBytes g) /\
    (requested < min_size -> GrainBytes g = min_size) /\
    (forall fd i m,
       setup_heap_region_size min_size target_number LogHeapWordSize card_shift
         fd i m g = Fatal).
Proof.
  intros Hflag requested.
  assert (Hminpos : 0 < min_size < 2 ^ 64).
  { rewrite Hmin. split; [apply Z.pow_pos_nonneg; lia|apply Z.pow_lt_mono_r; lia]. }
  assert (Hreq : 0 < requested < 2 ^ 64).
  { unfold requested. destruct flag_is_default; [|auto].
    assert (Hx : 0 <= size_t (initial_heap_size + max_heap_size) < 2 ^ 64)
      by (apply Z.mod_pos_bound; lia).
    remember (size_t (initial_heap_size + max_heap_size)) as x.
    assert (Ha : 0 <= x / 2 <= x).
    { split; [apply Z.div_pos; lia|apply Z.div_le_upper_bound; lia]. }
    remember (x / 2) as a.
    assert (Hb : a / target_number <= a).
    { apply Z.div_le_upper_bound; [lia|nia]. }
    lia. }
  destruct (setup_from_size requested flag_is_default initial_heap_size max_heap_size
              (mkSizes 0 0 0 0 0 flag)) as (g & n & Hrun & Hn & Hlb & Hgb & Hlw & Hgw & _ & Hfl & Hbig & Hsmall);
    try reflexivity; [exact Hreq|].
  exists g, n. split; [exact Hrun|]. split; [exact Hn|]. split; [exact Hlb|].
  split; [exact Hgb|].
  assert (Hge : min_size <= 2 ^ n) by (rewrite Hmin; apply Z.pow_le_mono_r; lia).
  split; [lia|]. split; [exact Hlw|]. split.
  { rewrite Hgw, Hgb, <- Z.pow_add_r by lia. f_equal. lia. }
  split; [congruence|]. split.
  { intros Hr. rewrite Hgb. destruct (Hbig Hr) as [Ha Hb].
    replace (2 ^ (n + 1)) with (2 * 2 ^ n) in Hb
      by (rewrite Z.pow_add_r by lia; change (2 ^ 1) with 2; lia). lia. }
  split.
  { intros Hr. rewrite Hgb, (Hsmall Hr). symmetry; exact Hmin. }
  intros fd i m. unfold setup_heap_region_size. rewrite Hlb.
  destruct (Z.eqb_spec n 0); [lia|reflexivity].
Qed.

End Setup.

Section Examples.
#[local] Existing Instance example_constants.

Lemma empty_region_space_ok : space_ok (space_of empty_region).
Proof. vm_compute. repeat split; (reflexivity || discriminate). Qed.

Lemma allocate_keeps_table_in_step_witness :
  exists P1 outs r,
    reset_bot (space_of empty_region) (bot_part empty_region) = Ret P1 /\
    allocates example_requests (set_bot_part P1 empty_region) = Ret (outs, r) /\
    contiguous (Region.bottom empty_region) (granted outs) /\
    last_end (Region.bottom empty_region) (granted outs) = Region.top r /\
    Region.top r <= Region.end_ empty_region /\
    forall (view : HeapView), heap_agrees (granted outs) ->
      forall s e addr (fuel : nat),
        In (s, e) (granted outs) -> s <= addr < e ->
        (Z.to_nat (Region.end_ empty_region - Region.bottom empty_region) <= fuel)%nat ->
        BOTChecked.block_start fuel (space_of r) addr (bot_part r)
        = Ret (s, bot_part r).
Proof.
  apply (allocate_keeps_table_in_step example_constants_ok empty_region example_requests).
  - exact empty_region_space_ok.
  - reflexivity.
  - reflexivity.
  - repeat constructor; cbn; lia.
Defined.

Lemma cross_threshold_answers_boundary_witness :
  exists P1 P threshold r,
    reset_bot (space_of empty_region) (bot_part empty_region) = Ret P1 /\
    alloc_blocks (space_of empty_region) example_blocks P1 = Ret P /\
    cross_threshold (last_end (Region.bottom empty_region) example_blocks) 5100
      (set_bot_part P empty_region) = Ret (threshold, r) /\
    threshold = next_offset_threshold (bot_part r) /\
    address_for_index (index_for threshold) = threshold /\
    5100 <= threshold /\
    (next_offset_threshold P < 5100 -> threshold < 5100 + N_words) /\
    (5100 <= next_offset_threshold P -> r = set_bot_part P empty_region).
Proof.
  apply (cross_threshold_answers_boundary example_constants_ok empty_region
           example_blocks 5100).
  - exact empty_region_space_ok.
  - exact example_blocks_contiguous.
  - cbn. lia.
  - cbn. lia.
Defined.

Lemma humongous_link_lifecycle_witness :
  (exists r1 r2 r3,
     set_continues_humongous (set_type StartsHumongousTag example_region) empty_region
       = Ret r1 /\
     humongous_start_region r1
       = Some (hrm_index (set_type StartsHumongousTag example_region)) /\
     type r1 = ContinuesHumongousTag /\
     (forall k c l, hr_clear k c l r1 = Fatal) /\
     clear_humongous 8192 r1 = Ret r2 /\
     humongous_start_region r2 = None /\ type r2 = ContinuesHumongousTag /\
     tracer r2 = tracer r1 /\
     hr_clear false false false r2 = Ret r3 /\
     type r3 = FreeTag /\ humongous_start_region r3 = None) /\
  (forall r', is_humongous r' = false \/ capacity r' <> 8192 ->
     clear_humongous 8192 r' = Fatal).
Proof.
  apply (humongous_link_lifecycle 8192 (set_type StartsHumongousTag example_region)
           empty_region false false); reflexivity.
Defined.

End Examples.

Lemma setup_heap_region_size_power_of_two_witness :
  let requested :=
    if true then Z.max (size_t (2 ^ 30 + 2 ^ 34) / 2 / 2048) (2 ^ 20) else 0 in
  exists g n,
    setup_heap_region_size (2 ^ 20) 2048 3 9 true (2 ^ 30) (2 ^ 34) (mkSizes 0 0 0 0 0 0)
      = Ret g /\
    20 <= n < 64 /\
    LogOfHRGrainBytes g = n /\ GrainBytes g = 2 ^ n /\ 2 ^ 20 <= GrainBytes g /\
    LogOfHRGrainWords g = n - 3 /\
    GrainWords g * 2 ^ 3 = GrainBytes g /\
    G1HeapRegionSize g = GrainBytes g /\
    (2 ^ 20 <= requested -> GrainBytes g <= requested < 2 * GrainBytes g) /\
    (requested < 2 ^ 20 -> GrainBytes g = 2 ^ 20) /\
    (forall fd i m, setup_heap_region_size (2 ^ 20) 2048 3 9 fd i m g = Fatal).
Proof.
  apply (setup_heap_region_size_power_of_two (2 ^ 20) 2048 3 9 20).
  - reflexivity.
  - lia.
  - lia.
  - lia.
  - discriminate.
Defined.

End RegionMoreFacts.

Module LivenessFacts.
Import Region Compact RegionSpec RegionMore Liveness.

(** X10.  One marking cycle on a region.  [note_start_of_marking] takes
    [top] as the snapshot; while marking runs, allocation moves [top] on
    and the marking threads count marked bytes; [note_end_of_marking]
    then makes the snapshot and the count the previous ones and puts the
    next snapshot back to [bottom].  Afterwards [is_obj_dead] answers
    that no object at or above the snapshot is dead, whatever the bitmap
    holds, and that an object below it is dead exactly if it is not
    marked and the region is not an open-archive region; for an address
    outside the region the call stops on its assertion. *)
Theorem marking_cycle_liveness (r : HeapRegion) (new_top marked : Z)
    (prev_bitmap : bitmap) :
  Region.bottom r <= Region.top r ->
  let r1 := note_start_of_marking r in
  let r2 := add_to_marked_bytes marked (set_top new_top r1) in
  let r3 := note_end_of_marking r2 in
  next_top_at_mark_start r1 = Region.top r /\ next_marked_bytes r1 = 0 /\
  prev_top_at_mark_start r3 = Region.top r /\ prev_marked_bytes r3 = marked /\
  next_top_at_mark_start r3 = Region.bottom r /\ next_marked_bytes r3 = 0 /\
  Region.top r3 = new_top /\
  (forall obj, Region.top r <= obj < Region.end_ r ->
     is_obj_dead r3 obj prev_bitmap = Ret false) /\
  (forall obj, Region.bottom r <= obj < Region.top r -> obj < Region.end_ r ->
     is_obj_dead r3 obj prev_bitmap
       = Ret (negb (prev_bitmap obj) && negb (is_open_archive r))) /\
  (forall obj, obj < Region.bottom r \/ Region.end_ r <= obj ->
     is_obj_dead r3 obj prev_bitmap = Fatal).
Proof.
  intros Hbt r1 r2 r3. cbn.
  do 7 (split; [reflexivity || lia|]).
  unfold is_obj_dead, is_in_reserved, obj_allocated_since_prev_marking, is_marked. cbn.
  split; [|split]; intros obj Hobj.
  - destruct (Z.leb_spec (Region.bottom r) obj); [|lia].
    destruct (Z.ltb_spec obj (Region.end_ r)); [|lia]. cbn.
    destruct (Z.leb_spec (Region.top r) obj); [reflexivity|lia].
  - intros He. destruct (Z.leb_spec (Region.bottom r) obj); [|lia].
    destruct (Z.ltb_spec obj (Region.end_ r)); [|lia]. cbn.
    destruct (Z.leb_spec (Region.top r) obj); [lia|]. reflexivity.
  - destruct (Z.leb_spec (Region.bottom r) obj); destruct (Z.ltb_spec obj (Region.end_ r));
      try reflexivity; lia.
Qed.

Lemma marking_cycle_liveness_witness :
  let r1 := note_start_of_marking example_region in
  let r2 := add_to_marked_bytes 240 (set_top 4300 r1) in
  let r3 := note_end_of_marking r2 in
  next_top_at_mark_start r1 = Region.top example_region /\ next_marked_bytes r1 = 0 /\
  prev_top_at_mark_start r3 = Region.top example_region /\ prev_marked_bytes r3 = 240 /\
  next_top_at_mark_start r3 = Region.bottom example_region /\ next_marked_bytes r3 = 0 /\
  Region.top r3 = 4300 /\
  (forall obj, Region.top example_region <= obj < Region.end_ example_region ->
     is_obj_dead r3 obj (fun x => x =? 4100) = Ret false) /\
  (forall obj, Region.bottom example_region <= obj < Region.top example_region ->
     obj < Region.end_ example_region ->
     is_obj_dead r3 obj (fun x => x =? 4100)
       = Ret (negb (obj =? 4100) && negb (is_open_archive example_region))) /\
  (forall obj, obj < Region.bottom example_region \/ Region.end_ example_region <= obj ->
     is_obj_dead r3 obj (fun x => x =? 4100) = Fatal).
Proof.
  apply (marking_cycle_liveness example_region 4300 240 (fun x => x =? 4100)).
  cbn. lia.
Defined.

End LivenessFacts.

Module CollectionSetFacts.
Import CollectionSet CollectionSetSpec.

Lemma remove_last_spec (arr : list (option Z)) (n : nat) x :
  arr !! n = Some x ->
  remove_last_optional_region (mkCSet (Some arr) (Z.of_nat (S n)))
    = Ret (x, mkCSet (Some (<[n := None]> arr)) (Z.of_nat n)).
Proof.
  intros Hx. unfold remove_last_optional_region. cbn [optional_regions optional_region_length].
  destruct (Z.eqb_spec (Z.of_nat (S n)) 0); [lia|]. cbn [negb assert mbind res_bind].
  replace (Z.of_nat (S n) - 1) with (Z.of_nat n) by lia.
  rewrite Nat2Z.id, Hx. reflexivity.
Qed.

Lemma remove_all_spec (n : nat) :
  forall arr : list (option Z),
    (n <= length arr)%nat ->
    remove_all n (mkCSet (Some arr) (Z.of_nat n))
      = Ret (rev (take n arr), mkCSet (Some (replicate n None ++ drop n arr)) 0).
Proof.
  induction n as [|n IH]; intros arr Hlen.
  - cbn. rewrite drop_0. reflexivity.
  - destruct (lookup_lt_is_Some_2 arr n ltac:(lia)) as [x Hx].
    cbn [remove_all]. rewrite (remove_last_spec arr n x Hx). cbn [mbind res_bind].
    rewrite IH by (rewrite length_insert; lia). cbn [mbind res_bind].
    rewrite take_insert_ge by lia.
    rewrite (take_S_r arr n x Hx), rev_app_distr. cbn [rev app].
    rewrite drop_insert_ge by lia. rewrite Nat.sub_diag.
    rewrite (drop_S arr x n Hx).
    change (<[0%nat:=None]> (x :: drop (S n) arr)) with (None :: drop (S n) arr).
    rewrite replicate_S_end, <- app_assoc. reflexivity.
Qed.

(** X11.  The optional part of the collection set is a stack.  With [n]
    optional regions in the array, [optional_region_at(i)] answers slot
    [i] for [i < n] and stops on its assertion from [n] on;
    [remove_last_optional_region] called [n] times answers the regions
    last first, empties each slot it took and leaves the length at
    zero, and one more call stops on the assertion that there is a
    region to remove.  Before [initialize_optional] both calls stop on
    an assertion. *)
Theorem optional_regions_are_a_stack (arr : list (option Z)) (n : nat) :
  (n <= length arr)%nat ->
  (forall i, 0 <= i < Z.of_nat n ->
     exists slot, arr !! Z.to_nat i = Some slot /\
       optional_region_at i (mkCSet (Some arr) (Z.of_nat n)) = Ret slot) /\
  (forall i, Z.of_nat n <= i ->
     optional_region_at i (mkCSet (Some arr) (Z.of_nat n)) = Fatal) /\
  (exists cs,
     remove_all n (mkCSet (Some arr) (Z.of_nat n)) = Ret (rev (take n arr), cs) /\
     optional_region_length cs = 0 /\
     optional_regions cs = Some (replicate n None ++ drop n arr) /\
     remove_last_optional_region cs = Fatal) /\
  (forall len i,
     optional_region_at i (mkCSet None len) = Fatal /\
     remove_last_optional_region (mkCSet None len) = Fatal).
Proof.
  intros Hlen. split; [|split; [|split]].
  - intros i Hi. destruct (lookup_lt_is_Some_2 arr (Z.to_nat i) ltac:(lia)) as [slot Hs].
    exists slot. split; [exact Hs|]. unfold optional_region_at. cbn.
    destruct (Z.ltb_spec i (Z.of_nat n)); [|lia]. cbn. rewrite Hs. reflexivity.
  - intros i Hi. unfold optional_region_at. cbn.
    destruct (Z.ltb_spec i (Z.of_nat n)); [lia|reflexivity].
  - eexists. split; [apply remove_all_spec; exact Hlen|]. cbn.
    split; [reflexivity|]. split; reflexivity.
  - intros len i. split; reflexivity.
Qed.

Lemma optional_regions_are_a_stack_witness :
  (forall i, 0 <= i < Z.of_nat 3 ->
     exists slot, [Some 7; Some 3; Some 9; None] !! Z.to_nat i = Some slot /\
       optional_region_at i (mkCSet (Some [Some 7; Some 3; Some 9; None]) (Z.of_nat 3))
         = Ret slot) /\
  (forall i, Z.of_nat 3 <= i ->
     optional_region_at i (mkCSet (Some [Some 7; Some 3; Some 9; None]) (Z.of_nat 3))
       = Fatal) /\
  (exists cs,
     remove_all 3 (mkCSet (Some [Some 7; Some 3; Some 9; None]) (Z.of_nat 3))
       = Ret (rev (take 3 [Some 7; Some 3; Some 9; None]), cs) /\
     optional_region_length cs = 0 /\
     optional_regions cs
       = Some (replicate 3 None ++ drop 3 [Some 7; Some 3; Some 9; None]) /\
     remove_last_optional_region cs = Fatal) /\
  (forall len i,
     optional_region_at i (mkCSet None len) = Fatal /\
     remove_last_optional_region (mkCSet None len) = Fatal).
Proof.
  apply (optional_regions_are_a_stack [Some 7; Some 3; Some 9; None] 3). cbn. lia.
Defined.

End CollectionSetFacts.

Module CompactMoreFacts.
Import Region Compact BOTSpec RegionSpec CompactSpec CompactFacts CompactMoreSpec.

(** X14.  [apply_to_marked_objects]: when the marked objects lie in
    order between [bottom] and the scan limit, the closure is applied to
    exactly these objects, once each and in address order, and the walk
    ends at the limit; with nothing marked the closure is never applied.
    A marked object for which the closure answers a size that reaches
    beyond the limit, and a limit that lies below [bottom], trip the
    assertion that the scan stops at the limit. *)
Theorem marked_objects_visited_in_order {S : Type} (closure : Z -> S -> res (Z * S))
    (r : HeapRegion) (bm : bitmap) (live : list (Z * Z)) (s s' : S) (fuel : nat) :
  live_layout bm (top r) (bottom r) live ->
  runs closure live s s' ->
  (2 * length live + 1 <= fuel)%nat ->
  apply_to_marked_objects fuel r bm closure s = Ret s' /\
  (live = [] -> s' = s) /\
  (forall (bm' : bitmap) (a sz : Z) (s0 s1 : S) (fuel' : nat),
     bottom r <= a < top r -> bm' a = true ->
     (forall x, bottom r <= x < a -> bm' x = false) ->
     closure a s0 = Ret (sz, s1) -> top r < a + sz -> (2 <= fuel')%nat ->
     apply_to_marked_objects fuel' r bm' closure s0 = Fatal) /\
  (forall (r' : HeapRegion) (fuel' : nat),
     top r' < bottom r' -> apply_to_marked_objects fuel' r' bm closure s = Fatal).
Proof.
  intros Hlay Hruns Hfuel. split; [|split; [|split]].
  - unfold apply_to_marked_objects, scan_limit. eapply walk_runs; eauto.
  - intros ->. inversion Hruns. reflexivity.
  - intros bm' a sz s0 s1 fuel' Ha Hm Hno Hcl Hover Hf.
    unfold apply_to_marked_objects, scan_limit.
    assert (Hat : forall f, apply_to_marked_loop (Datatypes.S f) bm' closure (top r) a s0 = Fatal).
    { intros f. cbn [apply_to_marked_loop].
      destruct (Z.ltb_spec a (top r)); [|lia]. unfold is_marked. rewrite Hm, Hcl.
      cbn [mbind res_bind]. destruct f; cbn [apply_to_marked_loop];
        (destruct (Z.ltb_spec (a + sz) (top r)); [lia|]);
        (destruct (Z.eqb_spec (a + sz) (top r)); [lia|reflexivity]). }
    destruct (Z.eq_dec a (bottom r)) as [->|Hne].
    + destruct fuel' as [|f]; [lia|]. apply Hat.
    + destruct fuel' as [|[|f]]; try lia. cbn [apply_to_marked_loop].
      destruct (Z.ltb_spec (bottom r) (top r)); [|lia].
      unfold is_marked. rewrite (Hno (bottom r)) by lia.
      rewrite (get_next_marked_addr_first bm' (bottom r) (top r) a) by (auto; lia).
      apply Hat.
  - intros r' fuel' Hlt. unfold apply_to_marked_objects, scan_limit.
    destruct fuel'; cbn [apply_to_marked_loop];
      (destruct (Z.ltb_spec (bottom r') (top r')); [lia|]);
      (destruct (Z.eqb_spec (bottom r') (top r')); [lia|reflexivity]).
Qed.

Section Pipeline.
Context `{ObjectModel} `{BOT.BOTConstants}.
Variable ZapUnusedHeapArea : bool.
Variable badHeapWordVal : Z.

(** X15.  [complete_compaction]: the compaction cursor becomes [top],
    both marked-byte counters are zeroed and both top-at-mark-start
    snapshots put back to [bottom]; the offset table is reset exactly
    when the region is left empty, and is not touched otherwise; no heap
    word below the new [top] or from [end] on is written, and with
    [ZapUnusedHeapArea] every word from the new [top] up to [end] holds
    the marker word. *)
Theorem complete_compaction_keeps_used_words (r : HeapRegion) (h : mem) :
  BOT.address_for_index (BOT.index_for (bottom r)) = bottom r ->
  exists r' h',
    complete_compaction ZapUnusedHeapArea badHeapWordVal r h = Ret (r', h') /\
    top r' = compaction_top r /\ bottom r' = bottom r /\ end_ r' = end_ r /\
    next_marked_bytes r' = 0 /\ prev_marked_bytes r' = 0 /\
    next_top_at_mark_start r' = bottom r /\ prev_top_at_mark_start r' = bottom r /\
    (forall x, x < compaction_top r \/ end_ r <= x -> h' x = h x) /\
    (ZapUnusedHeapArea = true ->
     forall x, compaction_top r <= x < end_ r -> h' x = badHeapWordVal) /\
    (ZapUnusedHeapArea = false -> h' = h) /\
    (bottom r < compaction_top r -> bot_part r' = bot_part r) /\
    (compaction_top r <= bottom r ->
     BOT.bot (bot_part r') (BOT.index_for (bottom r)) = 0 /\
     BOT.next_offset_index (bot_part r') = BOT.index_for (bottom r) + 1).
Proof.
  intros Hal. unfold complete_compaction, reset_after_compaction.
  cbn [top set_top bottom].
  destruct (Z.leb_spec (compaction_top r) (bottom r)) as [Hempty|Hused].
  - destruct (reset_bot_ret (space_of (set_top (compaction_top r) r))
                (bot_part (set_top (compaction_top r) r))) as [P' HP']; [exact Hal|].
    pose proof HP' as HP''.
    unfold BOT.reset_bot, BOT.zero_bottom_entry_raw in HP''.
    cbn [BOT.bottom space_of] in HP''. change (bottom (set_top (compaction_top r) r))
      with (bottom r) in HP''. rewrite Hal, Z.eqb_refl in HP''. cbn in HP''.
    injection HP'' as HP''.
    rewrite HP'. cbn [mbind res_bind]. eexists _, _. split; [reflexivity|].
    cbn. do 7 (split; [reflexivity|]).
    split; [|split; [|split; [|split]]].
    + intros x Hx. destruct ZapUnusedHeapArea; [|reflexivity].
      unfold mangle_unused_area. cbn.
      destruct (Z.leb_spec (compaction_top r) x); destruct (Z.ltb_spec x (end_ r));
        cbn; try reflexivity; lia.
    + intros -> x Hx. unfold mangle_unused_area. cbn.
      destruct (Z.leb_spec (compaction_top r) x); destruct (Z.ltb_spec x (end_ r));
        cbn; try reflexivity; lia.
    + intros ->. reflexivity.
    + intros Hlt. lia.
    + intros _. rewrite <- HP''. cbn. unfold BOT.set_offset_array_raw, BOT.u_char.
      rewrite Z.eqb_refl. split; reflexivity.
  - cbn [mbind res_bind]. eexists _, _. split; [reflexivity|].
    cbn. do 7 (split; [reflexivity|]).
    split; [|split; [|split; [|split]]].
    + intros x Hx. destruct ZapUnusedHeapArea; [|reflexivity].
      unfold mangle_unused_area. cbn.
      destruct (Z.leb_spec (compaction_top r) x); destruct (Z.ltb_spec x (end_ r));
        cbn; try reflexivity; lia.
    + intros -> x Hx. unfold mangle_unused_area. cbn.
      destruct (Z.leb_spec (compaction_top r) x); destruct (Z.ltb_spec x (end_ r));
        cbn; try reflexivity; lia.
    + intros ->. reflexivity.
    + intros _. reflexivity.
    + intros Hle. lia.
Qed.

(** X16.  [compact_region] slides the objects down.  On a region that
    is not humongous, whose marked objects lie in order below [top] and
    each hold the destination phase 1 gave them, the call returns: every
    object's words behind the mark word are found at its destination,
    the destinations lying back to back from [bottom]; no heap word
    outside the range the objects are moved into is written by the
    copy; the bitmap is cleared over the region and untouched outside
    it; and [top] is the compaction cursor.  On a humongous region the
    call stops on its assertion. *)
Theorem compact_region_slides_objects (fuel : nat) (r : HeapRegion) (bm : bitmap)
    (h : mem) (live : list (Z * Z)) :
  is_humongous r = false -> 0 < bottom r ->
  BOT.address_for_index (BOT.index_for (bottom r)) = bottom r ->
  live_layout bm (top r) (bottom r) live ->
  Forall (fun o => 2 <= snd o) live ->
  intact (bottom r) live h ->
  (2 * length live + 1 <= fuel)%nat ->
  (exists r' h',
     compact_region ZapUnusedHeapArea badHeapWordVal fuel r bm h
       = Ret (r', clear_region r bm,
              if ZapUnusedHeapArea then mangle_unused_area badHeapWordVal r' h' else h') /\
     top r' = compaction_top r /\ bottom r' = bottom r /\ end_ r' = end_ r /\
     moved (bottom r) live h h' /\
     (forall x, x < bottom r \/ bottom r + sum_sizes live <= x -> h' x = h x) /\
     (forall x, bottom r <= x < end_ r -> clear_region r bm x = false) /\
     (forall x, ~ (bottom r <= x < end_ r) -> clear_region r bm x = bm x)) /\
  (forall (fuel' : nat) (r0 : HeapRegion) (bm0 : bitmap) (h0 : mem),
     is_humongous r0 = true ->
     compact_region ZapUnusedHeapArea badHeapWordVal fuel' r0 bm0 h0 = Fatal).
Proof.
  intros Hhum Hpos Hal Hlay Hsz Hint Hfuel. split.
  - assert (Hasc : ascending (bottom r) live) by (eapply live_layout_ascending; eauto).
    destruct (phase3_runs live (bottom r) (bottom r) h Hasc Hpos ltac:(lia) Hint)
      as (h' & Hruns & Hframe & Hmoved).
    destruct (complete_compaction_ret ZapUnusedHeapArea badHeapWordVal r h' Hal)
      as (r' & Hcc & Htop & Hbot & Hend & _).
    exists r', h'. split.
    { unfold compact_region. rewrite Hhum. cbn [negb assert mbind res_bind].
      unfold apply_to_marked_objects, scan_limit.
      rewrite (walk_runs _ _ _ _ _ _ _ _ Hlay Hruns Hfuel). cbn [mbind res_bind].
      rewrite Hcc. reflexivity. }
    split; [exact Htop|]. split; [exact Hbot|]. split; [exact Hend|].
    split; [exact Hmoved|]. split; [exact Hframe|].
    unfold clear_region. split; intros x Hx.
    + destruct (Z.leb_spec (bottom r) x); destruct (Z.ltb_spec x (end_ r));
        cbn; try reflexivity; lia.
    + destruct (Z.leb_spec (bottom r) x); destruct (Z.ltb_spec x (end_ r));
        cbn; try reflexivity; lia.
  - intros fuel' r0 bm0 h0 Hh. unfold compact_region. rewrite Hh. reflexivity.
Qed.

End Pipeline.

Section Adjust.
Context `{ObjectModel}.

(** X17.  The adjust phase on a humongous region: [do_heap_region]
    visits the reference fields of the humongous object, which starts at
    [bottom] of the start region, and among them only the fields that
    lie between [bottom] and [top] of the region at hand; no other heap
    word is written, and the bitmap is left as it is.  A humongous
    region without start region cannot be adjusted. *)
Theorem humongous_region_adjusts_own_fields (fuel : nat) (region_bottom : Z -> Z)
    (r : HeapRegion) (bm : bitmap) (h : mem) (queue : list Z) (start : Z) :
  is_humongous r = true -> humongous_start_region r = Some start ->
  (exists h' queue',
     do_heap_region fuel region_bottom r bm (h, queue) = Ret (bm, (h', queue')) /\
     forall x,
       ~ (bottom r <= x < top r /\ In x (oop_fields h (region_bottom start))) ->
       h' x = h x) /\
  (forall (r0 : HeapRegion) (s0 : adjust_state),
     is_humongous r0 = true -> humongous_start_region r0 = None ->
     do_heap_region fuel region_bottom r0 bm s0 = Fatal).
Proof.
  intros Hhum Hst. split.
  - unfold do_heap_region. rewrite Hhum, Hst.
    destruct (oop_iterate_bounded r (region_bottom start) (bottom r) (top r) (h, queue))
      as [h' queue'] eqn:Hit.
    exists h', queue'. split; [reflexivity|].
    intros x Hx. unfold oop_iterate_bounded in Hit. cbn [fst] in Hit.
    change h' with (fst (h', queue')). rewrite <- Hit.
    rewrite adjust_fold_frame; [reflexivity|].
    intros Hin. apply list_elem_of_In, list_elem_of_filter in Hin.
    destruct Hin as [Hrange Hin]. apply list_elem_of_In in Hin.
    apply Is_true_eq_true, andb_prop in Hrange. destruct Hrange as [Hlo Hhi].
    apply Z.leb_le in Hlo. apply Z.ltb_lt in Hhi. apply Hx. split; [lia|exact Hin].
  - intros r0 s0 Hh Hn. unfold do_heap_region. rewrite Hh, Hn. reflexivity.
Qed.

End Adjust.

Section Examples.
#[local] Existing Instance example_constants.
#[local] Existing Instance example_model.

Lemma recording_runs :
  runs recording_closure example_live [] [4110; 4100].
Proof. repeat econstructor. Qed.

Lemma marked_objects_visited_in_order_witness :
  apply_to_marked_objects 5 example_region example_bitmap recording_closure []
    = Ret [4110; 4100] /\
  (example_live = [] -> [4110; 4100] = []) /\
  (forall (bm' : bitmap) (a sz : Z) (s0 s1 : list Z) (fuel' : nat),
     bottom example_region <= a < top example_region -> bm' a = true ->
     (forall x, bottom example_region <= x < a -> bm' x = false) ->
     recording_closure a s0 = Ret (sz, s1) -> top example_region < a + sz ->
     (2 <= fuel')%nat ->
     apply_to_marked_objects fuel' example_region bm' recording_closure s0 = Fatal) /\
  (forall (r' : HeapRegion) (fuel' : nat),
     top r' < bottom r' ->
     apply_to_marked_objects fuel' r' example_bitmap recording_closure [] = Fatal).
Proof.
  apply (marked_objects_visited_in_order recording_closure example_region example_bitmap
           example_live [] [4110; 4100] 5).
  - exact example_layout.
  - exact recording_runs.
  - cbn. lia.
Defined.

Lemma complete_compaction_keeps_used_words_witness :
  exists r' h',
    complete_compaction true 0 (set_compaction_top 4103 example_region) example_heap
      = Ret (r', h') /\
    top r' = compaction_top (set_compaction_top 4103 example_region) /\
    bottom r' = bottom (set_compaction_top 4103 example_region) /\
    end_ r' = end_ (set_compaction_top 4103 example_region) /\
    next_marked_bytes r' = 0 /\ prev_marked_bytes r' = 0 /\
    next_top_at_mark_start r' = bottom (set_compaction_top 4103 example_region) /\
    prev_top_at_mark_start r' = bottom (set_compaction_top 4103 example_region) /\
    (forall x, x < compaction_top (set_compaction_top 4103 example_region)
               \/ end_ (set_compaction_top 4103 example_region) <= x ->
       h' x = example_heap x) /\
    (true = true ->
     forall x, compaction_top (set_compaction_top 4103 example_region) <= x
               < end_ (set_compaction_top 4103 example_region) -> h' x = 0) /\
    (true = false -> h' = example_heap) /\
    (bottom (set_compaction_top 4103 example_region)
     < compaction_top (set_compaction_top 4103 example_region) ->
     bot_part r' = bot_part (set_compaction_top 4103 example_region)) /\
    (compaction_top (set_compaction_top 4103 example_region)
     <= bottom (set_compaction_top 4103 example_region) ->
     BOT.bot (bot_part r')
       (BOT.index_for (bottom (set_compaction_top 4103 example_region))) = 0 /\
     BOT.next_offset_index (bot_part r')
     = BOT.index_for (bottom (set_compaction_top 4103 example_region)) + 1).
Proof.
  apply (complete_compaction_keeps_used_words true 0
           (set_compaction_top 4103 example_region) example_heap).
  reflexivity.
Defined.

Lemma prepared_heap_intact : intact 4096 example_live prepared_heap.
Proof. cbn. repeat split; discriminate. Qed.

Lemma compact_region_slides_objects_witness :
  (exists r' h',
     compact_region false 0 5 (set_compaction_top 4103 example_region) example_bitmap
       prepared_heap
       = Ret (r', clear_region (set_compaction_top 4103 example_region) example_bitmap,
              h') /\
     top r' = compaction_top (set_compaction_top 4103 example_region) /\
     bottom r' = bottom (set_compaction_top 4103 example_region) /\
     end_ r' = end_ (set_compaction_top 4103 example_region) /\
     moved (bottom (set_compaction_top 4103 example_region)) example_live
       prepared_heap h' /\
     (forall x, x < bottom (set_compaction_top 4103 example_region)
                \/ bottom (set_compaction_top 4103 example_region)
                   + sum_sizes example_live <= x ->
        h' x = prepared_heap x) /\
     (forall x, bottom (set_compaction_top 4103 example_region) <= x
                < end_ (set_compaction_top 4103 example_region) ->
        clear_region (set_compaction_top 4103 example_region) example_bitmap x = false) /\
     (forall x, ~ (bottom (set_compaction_top 4103 example_region) <= x
                   < end_ (set_compaction_top 4103 example_region)) ->
        clear_region (set_compaction_top 4103 example_region) example_bitmap x
        = example_bitmap x)) /\
  (forall (fuel' : nat) (r0 : HeapRegion) (bm0 : bitmap) (h0 : mem),
     is_humongous r0 = true -> compact_region false 0 fuel' r0 bm0 h0 = Fatal).
Proof.
  apply (compact_region_slides_objects false 0 5
           (set_compaction_top 4103 example_region) example_bitmap prepared_heap
           example_live).
  - reflexivity.
  - cbn. lia.
  - reflexivity.
  - exact example_layout.
  - repeat constructor; cbn; lia.
  - exact prepared_heap_intact.
  - cbn. lia.
Defined.

Lemma humongous_region_adjusts_own_fields_witness :
  (exists h' queue',
     do_heap_region 5 (fun _ => 4000) continues_region example_bitmap (example_heap, [])
       = Ret (example_bitmap, (h', queue')) /\
     forall x,
       ~ (bottom continues_region <= x < top continues_region
          /\ In x (oop_fields example_heap ((fun _ => 4000) 5))) ->
       h' x = example_heap x) /\
  (forall (r0 : HeapRegion) (s0 : adjust_state),
     is_humongous r0 = true -> humongous_start_region r0 = None ->
     do_heap_region 5 (fun _ => 4000) r0 example_bitmap s0 = Fatal).
Proof.
  apply (humongous_region_adjusts_own_fields 5 (fun _ => 4000) continues_region
           example_bitmap example_heap [] 5); reflexivity.
Defined.

End Examples.

End CompactMoreFacts.

Module STSMoreFacts.
Import STS STSSpec STSFacts.


Lemma no_running_when_all_stopped (s : state) :
  invariant s -> nthreads_stopped s = nthreads s ->
  forall t : nat, threads s !! t <> Some Running.
Proof.
  intros (Hn & Hs & _) Heq t Ht.
  pose proof (count_lookup _ _ _ Ht). unfold joined, parked in *. lia.
Qed.

(** X12.  Once [synchronize] has returned, the set stands still until
    [desynchronize]: no thread of the set is running, and no call of any
    thread runs to its end, be it [join], [leave], [yield], the return
    from the wait inside [yield], or a second [synchronize]; the one
    call that goes through is [desynchronize], which only takes the
    request back and leaves the counters and the threads as they are. *)
Theorem synchronized_set_stands_still (n : nat) (s : state) :
  reachable n s -> vm s = VMSynchronized ->
  (forall t : nat, threads s !! t <> Some Running) /\
  (forall c s', run c s = Done s' ->
     c = CDesynchronize /\ vm s' = VMIdle /\ suspend_all s' = false /\
     threads s' = threads s /\ nthreads s' = nthreads s /\
     nthreads_stopped s' = nthreads_stopped s) /\
  (exists s', run CDesynchronize s = Done s').
Proof.
  intros Hr Hv. pose proof (reachable_invariant n s Hr) as Hinv.
  pose proof Hinv as (Hn & Hs & Hsig & Hvm). rewrite Hv in Hvm.
  destruct Hvm as (Hsus & Hw & Heq).
  pose proof (no_running_when_all_stopped s Hinv Heq) as Hnone.
  split; [exact Hnone|]. split.
  - intros c s' Hrun. destruct c as [t|t|t|t| | |]; cbn [run] in Hrun.
    + exfalso. unfold join in Hrun. rewrite Hsus in Hrun.
      destruct (threads s !! t) as [[| |]|]; discriminate.
    + exfalso. unfold leave in Hrun. specialize (Hnone t).
      destruct (threads s !! t) as [[| |]|]; try discriminate. congruence.
    + exfalso. unfold yield in Hrun. specialize (Hnone t).
      destruct (threads s !! t) as [[| |]|]; try discriminate. congruence.
    + exfalso. unfold yield_resume in Hrun. rewrite Hsus in Hrun.
      destruct (threads s !! t) as [[| |]|]; discriminate.
    + exfalso. unfold synchronize in Hrun. rewrite Hv in Hrun. discriminate.
    + exfalso. unfold synchronize_wait in Hrun. rewrite Hv in Hrun. discriminate.
    + unfold desynchronize in Hrun. rewrite Hv, Hsus in Hrun.
      destruct (is_synchronized s) as [[|]|]; try discriminate.
      injection Hrun as <-. cbn. repeat split; reflexivity.
  - cbn [run]. unfold desynchronize, is_synchronized. rewrite Hv, Hsus, Heq.
    rewrite Z.leb_refl, Z.eqb_refl. eauto.
Qed.



Lemma example_synchronized_reachable :
  reachable 2 (mkState 2 2 true 0 [Parked; Parked] VMSynchronized 1).
Proof.
  apply (run_all_reachable 2
           [CJoin 0%nat; CJoin 1%nat; CSynchronize; CYield 1%nat; CYield 0%nat;
            CSynchronizeWait] (init 2));
    [apply reach_init|reflexivity].
Qed.

Lemma synchronized_set_stands_still_witness :
  (forall t : nat, [Parked; Parked] !! t <> Some Running) /\
  (forall c s', run c (mkState 2 2 true 0 [Parked; Parked] VMSynchronized 1) = Done s' ->
     c = CDesynchronize /\ vm s' = VMIdle /\ suspend_all s' = false /\
     threads s' = [Parked; Parked] /\ nthreads s' = 2 /\ nthreads_stopped s' = 2) /\
  (exists s', run CDesynchronize (mkState 2 2 true 0 [Parked; Parked] VMSynchronized 1)
              = Done s').
Proof.
  apply (synchronized_set_stands_still 2
           (mkState 2 2 true 0 [Parked; Parked] VMSynchronized 1)).
  - exact example_synchronized_reachable.
  - reflexivity.
Defined.


End STSMoreFacts.
